(** * RayTracing: the [MatrixGroup] sequence of ABCD transfer matrices

    A shallow embedding of [raytracing/matrixgroup.py].  Python objects are
    modelled as values, methods as functions that take the receiver and the
    ambient world (warning log, object allocator) and give them back together
    with either a result or the exception raised.  Numbers are exact
    rationals; [float('+Inf')] is a constructor of its own. *)

From Stdlib Require Import List ZArith QArith Qabs Bool Lia String.
Import ListNotations.
Local Open Scope Q_scope.
Set Warnings "-register-all".

(** ** Numbers *)

(** A Python float that may be [float('+Inf')]. *)
Inductive Num : Type :=
| Fin (q : Q)
| PInf.

(** [x <= d] for a finite [x]. *)
Definition le_num (x : Q) (d : Num) : bool :=
  match d with
  | Fin q => Qle_bool x q
  | PInf => true
  end.

(** [d -= x] for a finite [x]: the exact difference, which is what the
    float subtraction of line 142 gives whenever that difference is a
    float. *)
Definition sub_num (d : Num) (x : Q) : Num :=
  match d with
  | Fin q => Fin (q - x)
  | PInf => PInf
  end.

(** [a != b] on numbers. *)
Definition Qne_bool (a b : Q) : bool := negb (Qeq_bool a b).

(** [a > b] on numbers. *)
Definition Qgt_bool (a b : Q) : bool := negb (Qle_bool a b).

(** ** Matrix: the single optical element *)

(** The attributes of a [Matrix] object that the sequence code reads or
    writes ([label] and drawing state are left out). *)
Record Matrix : Type := mkMatrix {
  A : Q;
  B : Q;
  C : Q;
  D : Q;
  L : Q;
  frontVertex : option Q;
  backVertex : option Q;
  frontIndex : Q;
  backIndex : Q;
  apertureDiameter : Num
}.

(** Modelled from the spec: the [Matrix] constructor of the absent
    [matrix.py], called in the source as [Matrix(A=1, B=0, C=0, D=1)]: zero
    length, no vertices, index 1 on both sides, unbounded aperture. *)
Definition Matrix_init (a b c d : Q) : Matrix :=
  mkMatrix a b c d 0 None None 1 1 PInf.

(** Modelled from the spec: the operator product [left * right] of the absent
    [matrix.py] ("right occurs first, then left"): the standard 2x2 product,
    the sum of the lengths, front index and vertex of the right factor, back
    index and vertex of the left factor. *)
Definition mul_matrix (left right : Matrix) : Matrix :=
  {| A := A left * A right + B left * C right;
     B := A left * B right + B left * D right;
     C := C left * A right + D left * C right;
     D := C left * B right + D left * D right;
     L := L left + L right;
     frontVertex := frontVertex right;
     backVertex := backVertex left;
     frontIndex := frontIndex right;
     backIndex := backIndex left;
     apertureDiameter := PInf |}.

(** Modelled from the spec: [Space(d, n)] of the absent [matrix.py], free
    propagation over [d] in a medium of index [n] (the docstring of
    [transferMatrices] prints [Space(d=10)] as [[1 10] [0 1]]). *)
Definition Space_matrix (d n : Q) : Matrix :=
  mkMatrix 1 d 0 1 d None None n n PInf.

(** Modelled from the spec: [Lens(f)] of the absent [matrix.py], a thin lens
    (the docstring of [transferMatrices] prints [Lens(f=10)] as
    [[1 0] [-0.1 1]]). *)
Definition Lens_matrix (f : Q) : Matrix :=
  mkMatrix 1 0 (- (1 / f)) 1 0 (Some 0) (Some 0) 1 1 PInf.

(** ** Rays and beams *)

(** Modelled from the spec: a [Ray] of the absent [ray.py]: height, angle,
    axial position and the blocked flag.  [rid] is the identity of the Python
    object. *)
Record Ray : Type := mkRay {
  rid : nat;
  y : Q;
  theta : Q;
  z : Q;
  isBlocked : bool
}.

(** Modelled from the spec: a [GaussianBeam] of the absent
    [gaussianbeam.py]: the complex beam parameter [qRe + i qIm]; [bid] is the
    identity of the Python object. *)
Record GaussianBeam : Type := mkBeam {
  bid : nat;
  qRe : Q;
  qIm : Q
}.

(** What [trace] accepts and returns in its list. *)
Inductive Traced : Type :=
| TRay (r : Ray)
| TBeam (b : GaussianBeam).

(** ** Elements and groups *)

(** The class of a leaf element, as far as [isinstance(matrix, Space)]
    tells. *)
Inductive LeafClass : Type :=
| ClsSpace
| ClsMatrix.

(** An element of a sequence is a leaf [Matrix] (a [Space] or any other
    non-iterable subclass) or a nested [MatrixGroup], which is a [Matrix]
    too.  A group holds its inherited [Matrix] attributes, its [elements],
    the [iteration] counter and the one-entry trace cache
    ([_lastRayToBeTraced], [_lastRayTrace], always assigned together). *)
Inductive Element : Type :=
| Leaf (cls : LeafClass) (m : Matrix)
| Nested (g : MatrixGroup)
with MatrixGroup : Type :=
| mkGroup (base : Matrix) (elements : list Element) (iteration : nat)
          (lastTrace : option (Traced * list Traced)).

(** The attributes of a group. *)
Definition base (g : MatrixGroup) : Matrix :=
  match g with mkGroup m _ _ _ => m end.
Definition elements (g : MatrixGroup) : list Element :=
  match g with mkGroup _ els _ _ => els end.
Definition iteration (g : MatrixGroup) : nat :=
  match g with mkGroup _ _ i _ => i end.
Definition lastTrace (g : MatrixGroup) : option (Traced * list Traced) :=
  match g with mkGroup _ _ _ c => c end.

(** The [Matrix] attributes of an element. *)
Definition matrixOf (e : Element) : Matrix :=
  match e with
  | Leaf _ m => m
  | Nested g => base g
  end.

(** [isinstance(e, Space)]. *)
Definition isSpace (e : Element) : bool :=
  match e with
  | Leaf ClsSpace _ => true
  | _ => false
  end.

(** Write the two indices of an element. *)
Definition setIndices (e : Element) (nf nb : Q) : Element :=
  let upd m :=
    mkMatrix (A m) (B m) (C m) (D m) (L m) (frontVertex m) (backVertex m)
             nf nb (apertureDiameter m) in
  match e with
  | Leaf c m => Leaf c (upd m)
  | Nested g => Nested (mkGroup (upd (base g)) (elements g) (iteration g) (lastTrace g))
  end.

(** [Space(d)] and [Lens(f)] as elements. *)
Definition Space (d : Q) : Element := Leaf ClsSpace (Space_matrix d 1).

Definition SpaceN (d n : Q) : Element := Leaf ClsSpace (Space_matrix d n).

Definition Lens (f : Q) : Element := Leaf ClsMatrix (Lens_matrix f).

(** ** transferMatrix *)

(** Modelled from the spec: [transferMatrix(upTo)] of a leaf, from the absent
    [matrix.py]: the whole element when [upTo] reaches its length; below it a
    [Space] gives [Space(d=upTo)] (docstring of
    [MatrixGroup.transferMatrix]), any other leaf has no partial state and
    gives itself. *)
Definition leaf_transferMatrix (cls : LeafClass) (m : Matrix) (upTo : Num) : Matrix :=
  match upTo with
  | PInf => m
  | Fin d =>
      if Qle_bool (L m) d then m
      else match cls with
           | ClsSpace => Space_matrix d 1
           | ClsMatrix => m
           end
  end.

Section Walk.
(** [element.transferMatrix(upTo=distance)], dispatched on the element. *)
Variable partial : Element -> Num -> Matrix.

(** The loop of [MatrixGroup.transferMatrix] (lines 139-145):
    [transferMatrix] is the running product, [distance] what is left. *)
Fixpoint transferMatrix_loop (els : list Element) (transferMatrix : Matrix)
         (distance : Num) : Matrix :=
  match els with
  | [] => transferMatrix
  | element :: rest =>
      if le_num (L (matrixOf element)) distance then
        transferMatrix_loop rest
          (mul_matrix (matrixOf element) transferMatrix)
          (sub_num distance (L (matrixOf element)))
      else
        mul_matrix (partial element distance) transferMatrix
  end.
End Walk.

(** Dynamic dispatch of [element.transferMatrix(upTo)]: a leaf answers by
    [leaf_transferMatrix], a nested group by [MatrixGroup.transferMatrix]. *)
Fixpoint elem_transferMatrix (e : Element) (upTo : Num) : Matrix :=
  match e with
  | Leaf cls m => leaf_transferMatrix cls m upTo
  | Nested g =>
      transferMatrix_loop elem_transferMatrix (elements g)
        (Matrix_init 1 0 0 1) upTo
  end.

(** [MatrixGroup.transferMatrix(self, upTo)] (lines 137-147), on the element
    list of the group. *)
Definition transferMatrix (els : list Element) (upTo : Num) : Matrix :=
  transferMatrix_loop elem_transferMatrix els (Matrix_init 1 0 0 1) upTo.

(** ** Exceptions, the world and the method monad *)

Inductive Exn : Type :=
| TypeError
| ValueError
| IndexError
| StopIteration.

Inductive Res (T : Type) : Type :=
| Val (v : T)
| Raise (e : Exn).
Arguments Val {T} v.
Arguments Raise {T} e.

(** What lives outside the objects: the allocator of object identities and
    the warnings issued so far by [warnings.warn], oldest first. *)
Record World : Type := mkWorld {
  nextId : nat;
  warnings : list string
}.

(** The outcome of a method call: result or exception, and the receiver and
    the world as they are when the call ends, also when it ends by an
    exception. *)
Record Out (T : Type) : Type := mkOut {
  res : Res T;
  self' : MatrixGroup;
  world' : World
}.
Arguments mkOut {T} res self' world'.
Arguments res {T} o.
Arguments self' {T} o.
Arguments world' {T} o.

(** A method body: from the receiver and the world to an outcome. *)
Definition M (T : Type) : Type := MatrixGroup -> World -> Out T.

Definition ret {T} (v : T) : M T := fun s w => mkOut (Val v) s w.
Definition raise {T} (e : Exn) : M T := fun s w => mkOut (Raise e) s w.
Definition bind {T U} (m : M T) (k : T -> M U) : M U :=
  fun s w =>
    match res (m s w) with
    | Val v => k v (self' (m s w)) (world' (m s w))
    | Raise e => mkOut (Raise e) (self' (m s w)) (world' (m s w))
    end.
Definition getSelf : M MatrixGroup := fun s w => mkOut (Val s) s w.
Definition putSelf (s : MatrixGroup) : M unit := fun _ w => mkOut (Val tt) s w.
Definition warn (msg : string) : M unit :=
  fun s w => mkOut (Val tt) s (mkWorld (nextId w) (warnings w ++ [msg])).

Declare Scope py_scope.
Delimit Scope py_scope with py.
Notation "x <- m ;; k" := (bind m (fun x => k))
  (at level 61, m at next level, right associativity) : py_scope.
Notation "m ;; k" := (bind m (fun _ => k))
  (at level 61, right associativity) : py_scope.
Local Open Scope py_scope.

(** [for x in xs: body(x)]. *)
Fixpoint forEach {T} (xs : list T) (body : T -> M unit) : M unit :=
  match xs with
  | [] => ret tt
  | x :: rest => body x ;; forEach rest body
  end.

(** A Python value passed where the source expects an element, a ray or an
    iterable of elements. *)
Inductive PyObj : Type :=
| OMatrix (e : Element)
| OTraced (t : Traced)
| OList (xs : list PyObj)
| OOther.

(** [xs[-1]] when the list is not empty. *)
Definition lastOf {T} (xs : list T) : option T :=
  match rev xs with
  | [] => None
  | x :: _ => Some x
  end.

(** ** append *)

(** The texts of the two warnings (lines 76 and 437). *)
Definition msgFixSpace : string :=
  "Fixing mismatched indices between last element and appended Space(). Use Space(d=someDistance, n=someIndex).".

Definition msgLength : string :=
  "Physical length mismatch. Squeezing or extending the current group.".

(** Lines 86-92: overwrite the aggregate attributes of the group with those
    of [tm]; the indices and the aperture of the group are not written. *)
Definition setAggregate (g : MatrixGroup) (tm : Matrix) : MatrixGroup :=
  mkGroup
    (mkMatrix (A tm) (B tm) (C tm) (D tm) (L tm) (frontVertex tm) (backVertex tm)
              (frontIndex (base g)) (backIndex (base g)) (apertureDiameter (base g)))
    (elements g) (iteration g) (lastTrace g).

(** [g.elements = els]. *)
Definition setElements (g : MatrixGroup) (els : list Element) : MatrixGroup :=
  mkGroup (base g) els (iteration g) (lastTrace g).

(** Lines 72-82: the element as it is stored, after the index check against
    the last element.  The source writes the two indices of a mismatched
    [Space] into the caller's object and stores that object; the result here
    is the value of that object after the call, which is all that the list
    shows when the object is not yet stored in it ([appendRef] below follows
    the objects). *)
Definition checkIndices (matrix : Element) : M Element :=
  s <- getSelf ;;
  match lastOf (elements s) with
  | None => ret matrix
  | Some lastElement =>
      if Qne_bool (backIndex (matrixOf lastElement)) (frontIndex (matrixOf matrix)) then
        if isSpace matrix then
          warn msgFixSpace ;;
          ret (setIndices matrix (backIndex (matrixOf lastElement))
                                 (backIndex (matrixOf lastElement)))
        else raise ValueError
      else ret matrix
  end.

(** [MatrixGroup.append(self, matrix)] (lines 68-92). *)
Definition append (matrix : PyObj) : M unit :=
  match matrix with
  | OMatrix m =>
      m' <- checkIndices m ;;
      s <- getSelf ;;
      putSelf (setElements s (elements s ++ [m'])) ;;
      s1 <- getSelf ;;
      putSelf (setAggregate s1 (transferMatrix (elements s1) PInf))
  | _ => raise TypeError
  end.

(** The group that [super().__init__(1, 0, 0, 1)] and lines 20-23 leave:
    no element, no cached trace. *)
Definition emptyGroup : MatrixGroup :=
  mkGroup (Matrix_init 1 0 0 1) [] 0 None.

(** What iterating over an argument yields, when it is iterable: the items of
    a list, the elements of a group ([__iter__] and [__next__] of the
    argument). *)
Definition iterItems (o : PyObj) : option (list PyObj) :=
  match o with
  | OList xs => Some xs
  | OMatrix (Nested g) => Some (map OMatrix (elements g))
  | _ => None
  end.

(** [MatrixGroup(elements)] (lines 19-36) on an argument that is not [None]:
    the new group, or the exception that ends the construction. *)
Definition MatrixGroup_init (els : PyObj) (w : World) : Res MatrixGroup * World :=
  match iterItems els with
  | None => (Raise TypeError, w)
  | Some xs =>
      let o := forEach xs append emptyGroup w in
      match res o with
      | Val _ => (Val (mkGroup (base (self' o)) (elements (self' o)) (iteration (self' o)) None),
                  world' o)
      | Raise e => (Raise e, world' o)
      end
  end.

(** Run the construction of another group inside a method of this one. *)
Definition construct (els : PyObj) : M MatrixGroup :=
  fun s w =>
    match MatrixGroup_init els w with
    | (Val g, w') => mkOut (Val g) s w'
    | (Raise e, w') => mkOut (Raise e) s w'
    end.

(** ** trace *)

(** Modelled from the spec: the blocking test of the absent [matrix.py]: the
    height exceeds half of a finite [apertureDiameter]. *)
Definition exceeds (height : Q) (diameter : Num) : bool :=
  match diameter with
  | PInf => false
  | Fin d => Qgt_bool (Qabs height) (d / 2)
  end.

(** Modelled from the spec: propagation of a ray through a leaf, from the
    absent [matrix.py]: a new [Ray] object [id] with the outgoing height and
    angle of the 2x2 product, blocked when it came in blocked or when its
    outgoing height exceeds the aperture radius of the element. *)
Definition mul_ray (m : Matrix) (r : Ray) (id : nat) : Ray :=
  {| rid := id;
     y := A m * y r + B m * theta r;
     theta := C m * y r + D m * theta r;
     z := z r + L m;
     isBlocked := isBlocked r || exceeds (A m * y r + B m * theta r) (apertureDiameter m) |}.

(** Modelled from the spec: propagation of a Gaussian beam through a leaf,
    from the absent [matrix.py]: the ABCD law [q' = (A q + B) / (C q + D)] on
    the complex parameter, no blocking test. *)
Definition mul_beam (m : Matrix) (b : GaussianBeam) (id : nat) : GaussianBeam :=
  let nr := A m * qRe b + B m in
  let ni := A m * qIm b in
  let dr := C m * qRe b + D m in
  let di := C m * qIm b in
  {| bid := id;
     qRe := (nr * dr + ni * di) / (dr * dr + di * di);
     qIm := (ni * dr - nr * di) / (dr * dr + di * di) |}.

(** Modelled from the spec: [trace(ray)] of a leaf, from the absent
    [matrix.py]: the list of the one ray after the element, a new object. *)
Definition leaf_trace (m : Matrix) (ray : Traced) (w : World) : list Traced * World :=
  let w' := mkWorld (S (nextId w)) (warnings w) in
  match ray with
  | TRay r => ([TRay (mul_ray m r (nextId w))], w')
  | TBeam b => ([TBeam (mul_beam m b (nextId w))], w')
  end.

(** Modelled from the spec: [a != b] on rays and beams, whose classes are
    absent: two references differ unless they are the same object. *)
Definition traced_ne (a b : Traced) : bool :=
  match a, b with
  | TRay r1, TRay r2 => negb (Nat.eqb (rid r1) (rid r2))
  | TBeam b1, TBeam b2 => negb (Nat.eqb (bid b1) (bid b2))
  | _, _ => true
  end.

Section Trace.
(** [element.trace(ray)], dispatched on the element: the list it returns
    or the exception, and the element as the call leaves it. *)
Variable etrace : Element -> Traced -> World -> Res (list Traced) * Element * World.

(** The loop of lines 258-261 over the elements still to be visited;
    gives back the elements as the calls left them. *)
Fixpoint trace_loop (els : list Element) (ray : Traced) (rayTrace : list Traced)
         (w : World) : Res (list Traced) * list Element * World :=
  match els with
  | [] => (Val rayTrace, [], w)
  | element :: rest =>
      match etrace element ray w with
      | (Val rayTraceInElement, element', w1) =>
          match lastOf rayTraceInElement with
          | None => (Raise IndexError, element' :: rest, w1)
          | Some lastRay =>
              let '(r, rest', w2) :=
                trace_loop rest lastRay (rayTrace ++ rayTraceInElement) w1 in
              (r, element' :: rest', w2)
          end
      | (Raise e, element', w1) => (Raise e, element' :: rest, w1)
      end
  end.

(** Lines 255-267 of [MatrixGroup.trace], for an argument that passed the
    type check. *)
Definition trace_body (g : MatrixGroup) (inputRay : Traced) (w : World)
  : Res (list Traced) * MatrixGroup * World :=
  let recompute :=
    let '(r, els', w') := trace_loop (elements g) inputRay [inputRay] w in
    match r with
    | Val rayTrace =>
        (Val rayTrace, mkGroup (base g) els' (iteration g) (Some (inputRay, rayTrace)), w')
    | Raise e =>
        (Raise e, mkGroup (base g) els' (iteration g) (lastTrace g), w')
    end in
  match lastTrace g with
  | None => recompute
  | Some (lastRay, lastRayTrace) =>
      if traced_ne inputRay lastRay then recompute
      else (Val lastRayTrace, g, w)
  end.
End Trace.

(** Dynamic dispatch of [element.trace(ray)]: a leaf answers by
    [leaf_trace], a nested group by [MatrixGroup.trace]. *)
Fixpoint elem_trace (e : Element) (ray : Traced) (w : World)
  : Res (list Traced) * Element * World :=
  match e with
  | Leaf _ m => let '(l, w') := leaf_trace m ray w in (Val l, e, w')
  | Nested g =>
      let '(r, g', w') := trace_body elem_trace g ray w in (r, Nested g', w')
  end.

(** [MatrixGroup.trace(self, inputRay)] (lines 253-267). *)
Definition trace (inputRay : PyObj) : M (list Traced) :=
  fun s w =>
    match inputRay with
    | OTraced ray =>
        let '(r, s', w') := trace_body elem_trace s ray w in mkOut r s' w'
    | _ => mkOut (Raise TypeError) s w
    end.

(** ** Iteration, length *)

(** [MatrixGroup.__iter__] (lines 356-358): the position is set to zero and
    the value returned is [self], the receiver as the call leaves it. *)
Definition iter__ : M MatrixGroup :=
  s <- getSelf ;;
  putSelf (mkGroup (base s) (elements s) 0 (lastTrace s)) ;;
  getSelf.

(** [MatrixGroup.__next__] (lines 360-367); [elements] is always a list
    here, never [None]. *)
Definition next__ : M Element :=
  s <- getSelf ;;
  match nth_error (elements s) (iteration s) with
  | Some element =>
      putSelf (mkGroup (base s) (elements s) (iteration s + 1) (lastTrace s)) ;;
      ret element
  | None => raise StopIteration
  end.

(** [MatrixGroup.__len__] (lines 370-371). *)
Definition len__ (s : MatrixGroup) : Z := Z.of_nat (List.length (elements s)).

(** ** Structural editing *)

Local Open Scope Z_scope.

(** [range(n)]. *)
Definition range (n : Z) : list Z := map Z.of_nat (seq 0 (Z.to_nat n)).

(** [xs[i]] for an integer [i]: counted from the end when negative,
    [IndexError] when out of range. *)
Definition getItem {T} (xs : list T) (i : Z) : M T :=
  let n := Z.of_nat (List.length xs) in
  let j := if i <? 0 then i + n else i in
  if j <? 0 then raise IndexError
  else match nth_error xs (Z.to_nat j) with
       | Some x => ret x
       | None => raise IndexError
       end.

(** [xs[a:b]] for [0 <= a <= b]. *)
Definition slice {T} (xs : list T) (a b : Z) : list T :=
  firstn (Z.to_nat b - Z.to_nat a) (skipn (Z.to_nat a) xs).

(** [for x in group: self.append(x)] over another group, which the loop does
    not change: [__iter__] resets its counter, [__next__] yields its elements
    in order. *)
Definition appendAll (group : MatrixGroup) : M unit :=
  forEach (elements group) (fun x => append (OMatrix x)).

(** Lines 397-400, 422-425 and 445-448: the argument wrapped in a group of
    its own. *)
Definition asGroup (element : PyObj) : M MatrixGroup :=
  match iterItems element with
  | None => construct (OList [element])
  | Some _ => construct element
  end.

(** [self.elements = []]. *)
Definition clearElements : M unit :=
  s <- getSelf ;; putSelf (setElements s []).

(** [MatrixGroup.removeElement(self, index, pad)] (lines 378-394). *)
Definition removeElement (index : Z) (pad : bool) : M unit :=
  s <- getSelf ;;
  let maxIndex := len__ s in
  let index := if index <? 0 then index + maxIndex else index in
  if (index >=? maxIndex) || (index <? 0) then raise IndexError
  else
    let tempElements := elements s in
    clearElements ;;
    forEach (range maxIndex) (fun i =>
      element <- getItem tempElements i ;;
      if i =? index then
        let length := L (matrixOf element) in
        if Qgt_bool length 0 && pad then append (OMatrix (Space length))
        else ret tt
      else append (OMatrix element)).

(** [MatrixGroup.insertElement(self, index, element)] (lines 396-419). *)
Definition insertElement (index : Z) (element : PyObj) : M unit :=
  element <- asGroup element ;;
  s <- getSelf ;;
  let maxIndex := len__ s in
  let index := if index <? 0 then index + maxIndex else index in
  if (index >? maxIndex) || (index <? 0) then raise IndexError
  else if index =? maxIndex then appendAll element
  else
    let tempElements := elements s in
    clearElements ;;
    forEach (range maxIndex) (fun i =>
      previousElement <- getItem tempElements i ;;
      if i =? index then
        appendAll element ;;
        append (OMatrix previousElement)
      else append (OMatrix previousElement)).

(** [MatrixGroup.replaceSingle(self, index, newElement)] (lines 421-441). *)
Definition replaceSingle (index : Z) (newElement : PyObj) : M unit :=
  newElement <- asGroup newElement ;;
  s <- getSelf ;;
  let maxIndex := len__ s in
  let index := if index <? 0 then index + maxIndex else index in
  if (index >=? maxIndex) || (index <? 0) then raise IndexError
  else
    let tempElements := elements s in
    clearElements ;;
    forEach (range maxIndex) (fun i =>
      if i =? index then
        toReplace <- getItem tempElements i ;;
        (if Qne_bool (L (matrixOf toReplace)) (L (base newElement))
         then warn msgLength else ret tt) ;;
        appendAll newElement
      else
        e <- getItem tempElements i ;; append (OMatrix e)).

(** [self[a:b]] for a slice (lines 374-375): a new group of the sliced
    elements. *)
Definition getSlice (a b : Z) : M MatrixGroup :=
  s <- getSelf ;;
  construct (OList (map OMatrix (slice (elements s) a b))).

(** [MatrixGroup.replaceChunk(self, startIndex, stopIndex, newChunk)]
    (lines 443-476). *)
Definition replaceChunk (startIndex stopIndex : Z) (newChunk : PyObj) : M unit :=
  newChunk <- asGroup newChunk ;;
  s <- getSelf ;;
  let maxIndex := len__ s in
  let startIndex := if startIndex <? 0 then startIndex + maxIndex else startIndex in
  let stopIndex := if stopIndex <? 0 then stopIndex + maxIndex else stopIndex in
  if (startIndex >=? maxIndex) || (startIndex <? 0) then raise IndexError
  else if (stopIndex >=? maxIndex) || (stopIndex <? 0) then raise IndexError
  else if startIndex =? stopIndex then raise IndexError
  else
    let (startIndex, stopIndex) :=
      if startIndex >? stopIndex then (stopIndex, startIndex)
      else (startIndex, stopIndex) in
    old <- getSlice startIndex (stopIndex + 1) ;;
    (if Qne_bool (L (base old)) (L (base newChunk)) then warn msgLength else ret tt) ;;
    let tempElements := elements s in
    clearElements ;;
    forEach (range maxIndex) (fun i =>
      if (i <? startIndex) || (i >? stopIndex) then
        e <- getItem tempElements i ;; append (OMatrix e)
      else if i =? startIndex then appendAll newChunk
      else ret tt).

(** Modelled from the spec: [flipOrientation()] of a leaf, from the absent
    [matrix.py]: the front and back indices and vertices change roles. *)
Definition leaf_flipOrientation (m : Matrix) : Matrix :=
  mkMatrix (A m) (B m) (C m) (D m) (L m) (backVertex m) (frontVertex m)
           (backIndex m) (frontIndex m) (apertureDiameter m).

Section Flip.
(** [element.flipOrientation()], dispatched on the element: the element
    as the call leaves it, or the exception. *)
Variable eflip : Element -> World -> Res Element * World.

(** [MatrixGroup.flipOrientation(self)] (lines 297-305).  The pending
    flips are taken element by element from the reversed list, each run at
    its turn just before the element is appended. *)
Definition flip_body : M unit :=
  s <- getSelf ;;
  let allElements := rev (map eflip (elements s)) in
  clearElements ;;
  forEach allElements (fun flipElement =>
    element <- (fun s w =>
                  match flipElement w with
                  | (Val e, w') => mkOut (Val e) s w'
                  | (Raise x, w') => mkOut (Raise x) s w'
                  end) ;;
    append (OMatrix element)).
End Flip.

(** Dynamic dispatch of [element.flipOrientation()]. *)
Fixpoint elem_flipOrientation (e : Element) (w : World) : Res Element * World :=
  match e with
  | Leaf cls m => (Val (Leaf cls (leaf_flipOrientation m)), w)
  | Nested g =>
      let o := flip_body elem_flipOrientation g w in
      match res o with
      | Val _ => (Val (Nested (self' o)), world' o)
      | Raise x => (Raise x, world' o)
      end
  end.

(** [MatrixGroup.flipOrientation(self)]. *)
Definition flipOrientation : M unit := flip_body elem_flipOrientation.

Local Close Scope Z_scope.

(** * The rest of [matrixgroup.py] *)

(** ** transferMatrices *)

(** Dynamic dispatch of [element.transferMatrices()]: a leaf gives the list
    of itself (docstring, lines 150-152), a nested group the lists of its
    elements one after the other (lines 185-189). *)
Fixpoint elem_transferMatrices (e : Element) : list Element :=
  match e with
  | Leaf _ _ => [e]
  | Nested g => flat_map elem_transferMatrices (elements g)
  end.

(** [MatrixGroup.transferMatrices(self)] (lines 185-189). *)
Definition transferMatrices (g : MatrixGroup) : list Element :=
  flat_map elem_transferMatrices (elements g).

(** ** intermediateConjugates *)

(** [a + b] for a finite [a]. *)
Definition add_num (a : Q) (b : Num) : Num :=
  match b with
  | Fin q => Fin (a + q)
  | PInf => PInf
  end.

(** [x != 0]. *)
Definition num_ne0 (x : Num) : bool :=
  match x with
  | Fin q => Qne_bool q 0
  | PInf => true
  end.

Section Conjugates.
(** [Matrix.forwardConjugate()] of the absent [matrix.py]: a distance or
    [None], a matrix or [None]. *)
Variable forwardConjugate : Matrix -> option Num * option Matrix.

(** The loop of [intermediateConjugates] (lines 217-224); a plane is a
    pair of a position and a magnification. *)
Fixpoint conjugates_loop (matrices : list Element) (transferMatrix : Matrix)
         (planes : list (Num * Q)) : list (Num * Q) :=
  match matrices with
  | [] => planes
  | element :: rest =>
      let transferMatrix := mul_matrix (matrixOf element) transferMatrix in
      match forwardConjugate transferMatrix with
      | (Some distance, conjugate) =>
          let planePosition := add_num (L transferMatrix) distance in
          match conjugate with
          | Some c =>
              if num_ne0 planePosition
              then conjugates_loop rest transferMatrix (planes ++ [(planePosition, A c)])
              else conjugates_loop rest transferMatrix planes
          | None => conjugates_loop rest transferMatrix planes
          end
      | (None, _) => conjugates_loop rest transferMatrix planes
      end
  end.

(** [MatrixGroup.intermediateConjugates(self)] (lines 214-225). *)
Definition intermediateConjugates (g : MatrixGroup) : list (Num * Q) :=
  conjugates_loop (transferMatrices g) (Matrix_init 1 0 0 1) [].
End Conjugates.

(** Modelled from the spec: [forwardConjugate()] of the absent [matrix.py]:
    the distance [z] past the element at which [B] of [Space(z) * M]
    vanishes, with that matrix, or nothing when there is no finite
    solution. *)
Definition forwardConjugate_spec (m : Matrix) : option Num * option Matrix :=
  if Qeq_bool (D m) 0 then (None, None)
  else (Some (Fin (- B m / D m)),
        Some (mul_matrix (Space_matrix (- B m / D m) 1) m)).

(** ** hasFiniteApertureDiameter, largestDiameter *)

(** Dynamic dispatch of [element.hasFiniteApertureDiameter()]; for a nested
    group the loop of lines 271-274.  Modelled from the spec: a leaf has a
    finite aperture when its [apertureDiameter] is not [+Inf]. *)
Fixpoint elem_hasFiniteApertureDiameter (e : Element) : bool :=
  match e with
  | Leaf _ m =>
      match apertureDiameter m with
      | Fin _ => true
      | PInf => false
      end
  | Nested g => existsb elem_hasFiniteApertureDiameter (elements g)
  end.

(** [MatrixGroup.hasFiniteApertureDiameter(self)] (lines 271-274). *)
Definition hasFiniteApertureDiameter (g : MatrixGroup) : bool :=
  existsb elem_hasFiniteApertureDiameter (elements g).

Section LargestDiameter.
(** [element.displayHalfHeight()] of the absent [matrix.py]. *)
Variable displayHalfHeight : Element -> Q.

Section Scan.
(** [element.largestDiameter], dispatched on the element. *)
Variable elargest : Element -> Num.

(** The loop of lines 282-285. *)
Fixpoint largest_loop (els : list Element) (maxDiameter : Q) : Q :=
  match els with
  | [] => maxDiameter
  | element :: rest =>
      match elargest element with
      | Fin diameter =>
          if Qgt_bool diameter maxDiameter then largest_loop rest diameter
          else largest_loop rest maxDiameter
      | PInf => largest_loop rest maxDiameter
      end
  end.
End Scan.

(** Dynamic dispatch of [element.largestDiameter]; for a nested group lines
    280-291.  Modelled from the spec: the largest diameter of a leaf is its
    [apertureDiameter]. *)
Fixpoint elem_largestDiameter (e : Element) : Num :=
  match e with
  | Leaf _ m => apertureDiameter m
  | Nested g =>
      if existsb elem_hasFiniteApertureDiameter (elements g) then
        Fin (largest_loop elem_largestDiameter (elements g) 0)
      else
        match elements g with
        | first :: _ => Fin (displayHalfHeight first * 2)
        | [] => PInf
        end
  end.

(** [MatrixGroup.largestDiameter] (lines 280-291). *)
Definition largestDiameter (g : MatrixGroup) : Num :=
  if hasFiniteApertureDiameter g then
    Fin (largest_loop elem_largestDiameter (elements g) 0)
  else
    match elements g with
    | first :: _ => Fin (displayHalfHeight first * 2)
    | [] => PInf
    end.
End LargestDiameter.

(** ** Indexed access *)

Local Open Scope Z_scope.

(** A subscript: an integer or [slice(start, stop, step)], each part an
    integer or [None]. *)
Inductive Key : Type :=
| KInt (i : Z)
| KSlice (start stop step : option Z).

(** One bound of a slice brought inside the list, as Python does. *)
Definition clampIndex (n lower upper : Z) (i : option Z) (default : Z) : Z :=
  match i with
  | None => default
  | Some i => if i <? 0 then Z.max (i + n) lower else Z.min i upper
  end.

(** The positions that a slice selects in a list of length [n], in the
    order they are taken; nothing when the step is zero, which raises
    [ValueError]. *)
Definition sliceIndices (n : Z) (start stop step : option Z) : option (list Z) :=
  let step := match step with None => 1 | Some k => k end in
  if step =? 0 then None
  else
    let lower := if step <? 0 then -1 else 0 in
    let upper := if step <? 0 then n - 1 else n in
    let start := clampIndex n lower upper start (if step <? 0 then upper else lower) in
    let stop := clampIndex n lower upper stop (if step <? 0 then lower else upper) in
    let count :=
      if step <? 0
      then (if stop <? start then (start - stop - 1) / (- step) + 1 else 0)
      else (if start <? stop then (stop - start - 1) / step + 1 else 0) in
    Some (map (fun k => start + Z.of_nat k * step) (seq 0 (Z.to_nat count))).

(** [xs[start:stop:step]]. *)
Definition pySlice {T} (xs : list T) (start stop step : option Z) : option (list T) :=
  match sliceIndices (Z.of_nat (List.length xs)) start stop step with
  | None => None
  | Some positions =>
      Some (flat_map (fun i => match nth_error xs (Z.to_nat i) with
                               | Some x => [x]
                               | None => []
                               end) positions)
  end.

(** What [__getitem__] returns: an element or a new group. *)
Inductive Item : Type :=
| ItemElement (e : Element)
| ItemGroup (g : MatrixGroup).

(** [MatrixGroup.__getitem__(self, item)] (lines 373-376). *)
Definition getitem__ (item : Key) : M Item :=
  s <- getSelf ;;
  match item with
  | KSlice start stop step =>
      match pySlice (elements s) start stop step with
      | None => raise ValueError
      | Some sliced =>
          g <- construct (OList (map OMatrix sliced)) ;;
          ret (ItemGroup g)
      end
  | KInt i =>
      e <- getItem (elements s) i ;;
      ret (ItemElement e)
  end.

(** The warning of line 481. *)
Definition msgStep : string := "Not using the step of the slice.".

(** [MatrixGroup.__setitem__(self, key, value)] (lines 478-484).  With
    [None] as a bound of the slice, [replaceChunk] builds the group of new
    elements and then fails on [startIndex < 0] or [stopIndex < 0], which
    Python refuses between [None] and an integer. *)
Definition setitem__ (key : Key) (value : PyObj) : M unit :=
  match key with
  | KSlice start stop step =>
      (match step with Some _ => warn msgStep | None => ret tt end) ;;
      match start, stop with
      | Some startIndex, Some stopIndex => replaceChunk startIndex stopIndex value
      | _, _ => _ <- asGroup value ;; raise TypeError
      end
  | KInt i => replaceSingle i value
  end.

Local Close Scope Z_scope.

(** ** load *)

(** What [load] raises: its own [IOError], or what [append] raised. *)
Inductive LoadExn : Type :=
| IOError
| FromAppend (e : Exn).

(** The outcome of [load]: the exception if any, the group and the world. *)
Record LoadOut : Type := mkLoadOut {
  loadRaised : option LoadExn;
  loadSelf : MatrixGroup;
  loadWorld : World
}.

(** [isinstance(o, Matrix)]. *)
Definition isMatrix (o : PyObj) : bool :=
  match o with
  | OMatrix _ => true
  | _ => false
  end.

(** [MatrixGroup.load(self, filePath, append)] from the point where the
    file has been read (lines 535-545): [loadedMatrices] is what the
    unpickler returned. *)
Definition load (loadedMatrices : PyObj) (appendToCurrent : bool)
           (s : MatrixGroup) (w : World) : LoadOut :=
  match iterItems loadedMatrices with
  | None => mkLoadOut (Some IOError) s w
  | Some xs =>
      if negb (forallb isMatrix xs) then mkLoadOut (Some IOError) s w
      else
        let o :=
          if appendToCurrent then forEach xs append s w
          else (clearElements ;; forEach xs append) s w in
        match res o with
        | Val _ => mkLoadOut None (self' o) (world' o)
        | Raise e => mkLoadOut (Some (FromAppend e)) (self' o) (world' o)
        end
  end.

(** * Definitions used by the properties *)

(** ** The walk of [transferMatrix] in the words of the specification *)

(** The product of elements taken in fully, in order, onto [start]. *)
Definition composeAll (els : list Element) (start : Matrix) : Matrix :=
  fold_left (fun tm e => mul_matrix (matrixOf e) tm) els start.

(** What is left of the distance after the elements were taken in fully. *)
Definition remaining (els : list Element) (upTo : Num) : Num :=
  fold_left (fun d e => sub_num d (L (matrixOf e))) els upTo.

(** Every element fits in what is left of the distance when it is reached. *)
Fixpoint allFit (els : list Element) (distance : Num) : bool :=
  match els with
  | [] => true
  | e :: rest =>
      le_num (L (matrixOf e)) distance
      && allFit rest (sub_num distance (L (matrixOf e)))
  end.

(** The walk as the specification words it: either every element fits and
    the result is the full product, or the elements split at the first one
    that does not fit, which alone is folded partially. *)
Definition walkSpec (partial : Element -> Num -> Matrix) (els : list Element)
           (start : Matrix) (upTo : Num) (result : Matrix) : Prop :=
  (allFit els upTo = true /\ result = composeAll els start)
  \/ (exists pre e post,
        els = pre ++ e :: post
        /\ allFit pre upTo = true
        /\ le_num (L (matrixOf e)) (remaining pre upTo) = false
        /\ result = mul_matrix (partial e (remaining pre upTo)) (composeAll pre start)).

(** Equality of the four entries of two matrices, as numbers. *)
Definition abcd_eq (m1 m2 : Matrix) : Prop :=
  A m1 == A m2 /\ B m1 == B m2 /\ C m1 == C m2 /\ D m1 == D m2.

(** ** What [append] does to a group *)

(** The group after [matrix] was stored and the aggregate recomputed. *)
Definition appended (s : MatrixGroup) (stored : Element) : MatrixGroup :=
  setAggregate (setElements s (elements s ++ [stored]))
               (transferMatrix (elements s ++ [stored]) PInf).

(** The verdict of the index check of [append]: the element as it will be
    stored and whether the warning is issued, or nothing when the check
    raises. *)
Definition indexCheck (s : MatrixGroup) (matrix : Element) : option (Element * bool) :=
  match lastOf (elements s) with
  | None => Some (matrix, false)
  | Some lastElement =>
      if Qne_bool (backIndex (matrixOf lastElement)) (frontIndex (matrixOf matrix)) then
        if isSpace matrix then
          Some (setIndices matrix (backIndex (matrixOf lastElement))
                                  (backIndex (matrixOf lastElement)), true)
        else None
      else Some (matrix, false)
  end.

(** The world after the check: one more warning when [b] is set. *)
Definition warned (w : World) (b : bool) : World :=
  if b then mkWorld (nextId w) (warnings w ++ [msgFixSpace]) else w.

(** The aggregate attributes of a group: the seven that [append]
    overwrites. *)
Definition aggregateOf (g : MatrixGroup) : Q * Q * Q * Q * Q * option Q * option Q :=
  (A (base g), B (base g), C (base g), D (base g), L (base g),
   frontVertex (base g), backVertex (base g)).

(** The same seven attributes of a matrix. *)
Definition matrixAggregate (m : Matrix) : Q * Q * Q * Q * Q * option Q * option Q :=
  (A m, B m, C m, D m, L m, frontVertex m, backVertex m).

(** The aggregate of a group agrees with its element list. *)
Definition consistent (g : MatrixGroup) : Prop :=
  aggregateOf g = matrixAggregate (transferMatrix (elements g) PInf).

(** ** Exceptions and replay *)

(** A method body that never ends by [IndexError]. *)
Definition noIndexError {T} (m : M T) : Prop :=
  forall s w, res (m s w) <> Raise IndexError.

(** [for x in xs: self.append(x)]. *)
Definition appendEach (xs : list Element) : M unit :=
  forEach xs (fun x => append (OMatrix x)).

(** The group with [els] as its elements and the aggregate recomputed. *)
Definition withElements (s : MatrixGroup) (els : list Element) : MatrixGroup :=
  setAggregate (setElements s els) (transferMatrix els PInf).

(** An element as [append] stores it: itself, or a [Space] with both
    indices rewritten. *)
Definition storedFrom (x stored : Element) : Prop :=
  stored = x \/ (isSpace x = true /\ exists n, stored = setIndices x n n).

Local Open Scope Z_scope.

(** [for i in range(k, k + len(xs)): body(i, xs[i - k])]. *)
Fixpoint forEachFrom (k : Z) (xs : list Element) (body : Z -> Element -> M unit) : M unit :=
  match xs with
  | [] => ret tt
  | x :: rest => body k x ;; forEachFrom (k + 1) rest body
  end.

(** The element list that [removeElement] replays: the snapshot without the
    element at [j], or with [Space(length)] in its place when [pad] is set
    and the length is positive. *)
Definition padding (t : list Element) (j : nat) (pad : bool) : list Element :=
  match nth_error t j with
  | Some e => if Qgt_bool (L (matrixOf e)) 0 && pad then [Space (L (matrixOf e))] else []
  | None => []
  end.

(** What is replayed: the elements before [j], the padding, the elements
    after [j]. *)
Definition removedList (t : list Element) (j : nat) (pad : bool) : list Element :=
  firstn j t ++ padding t j pad ++ skipn (S j) t.

(** The element list that [insertElement] replays. *)
Definition insertedList (t : list Element) (j : nat) (new : list Element) : list Element :=
  firstn j t ++ new ++ skipn j t.

(** The body of the loop of [removeElement] (lines 388-394), the element
    already read. *)
Definition removeBody (index : Z) (pad : bool) (i : Z) (element : Element) : M unit :=
  if i =? index then
    if Qgt_bool (L (matrixOf element)) 0 && pad
    then append (OMatrix (Space (L (matrixOf element))))
    else ret tt
  else append (OMatrix element).

(** The body of the loop of [insertElement] (lines 414-419), the element
    already read. *)
Definition insertBody (index : Z) (element : MatrixGroup) (i : Z)
           (previousElement : Element) : M unit :=
  if i =? index then appendAll element ;; append (OMatrix previousElement)
  else append (OMatrix previousElement).

Local Close Scope Z_scope.

(** The index of an edit after [if index < 0: index += maxIndex]. *)
Definition normalized (s : MatrixGroup) (index : Z) : Z :=
  if (index <? 0)%Z then (index + len__ s)%Z else index.

(** The sum of the lengths of the elements. *)
Definition sumL (els : list Element) : Q :=
  fold_right (fun e acc => L (matrixOf e) + acc) 0 els.

(** Every element of [xs] starts at the index where the one before it ends;
    [prev] is the element before the first, if any. *)
Fixpoint linked (prev : option Element) (xs : list Element) : bool :=
  match xs with
  | [] => true
  | x :: rest =>
      match prev with
      | None => true
      | Some p => Qeq_bool (backIndex (matrixOf p)) (frontIndex (matrixOf x))
      end && linked (Some x) rest
  end.

(** ** Iteration and trace *)

(** [k] calls of [__next__] in a row, collecting what they yield. *)
Fixpoint nextTimes (k : nat) : M (list Element) :=
  match k with
  | O => ret []
  | S k' => e <- next__ ;; l <- nextTimes k' ;; ret (e :: l)
  end.

(** The group with its position counter at [i]. *)
Definition setIteration (s : MatrixGroup) (i : nat) : MatrixGroup :=
  mkGroup (base s) (elements s) i (lastTrace s).

(** A cached trace always starts with the ray it was computed for, so it is
    never empty; this is what a nested group must satisfy for the [[-1]] of
    line 261 to find a ray. *)
Definition cacheFilled (c : option (Traced * list Traced)) : bool :=
  match c with
  | Some (_, []) => false
  | _ => true
  end.

(** Every nested group, at any depth, has a filled cache or none. *)
Fixpoint wfElement (e : Element) : bool :=
  match e with
  | Leaf _ _ => true
  | Nested g =>
      match g with
      | mkGroup _ els _ c => cacheFilled c && forallb wfElement els
      end
  end.

(** Induction on an element that reaches the elements of a nested group. *)
Section ElementInduction.
Variable P : Element -> Prop.
Hypothesis HLeaf : forall cls m, P (Leaf cls m).
Hypothesis HNested :
  forall b els it c, Forall P els -> P (Nested (mkGroup b els it c)).

Fixpoint Element_nested_ind (e : Element) : P e :=
  match e with
  | Leaf cls m => HLeaf cls m
  | Nested (mkGroup b els it c) =>
      HNested b els it c
        ((fix all (l : list Element) : Forall P l :=
            match l with
            | [] => Forall_nil P
            | x :: r => Forall_cons x (Element_nested_ind x) (all r)
            end) els)
  end.
End ElementInduction.

(** [element.trace(ray)] returns a list that is not empty and leaves the
    element well formed. *)
Definition traceReturns (e : Element) : Prop :=
  wfElement e = true ->
  forall ray w, exists l e' w',
    elem_trace e ray w = (Val l, e', w') /\ l <> [] /\ wfElement e' = true.

(** A method body that leaves the trace cache of the receiver alone, however
    it ends. *)
Definition keepsCache {T} (m : M T) : Prop :=
  forall s w, lastTrace (self' (m s w)) = lastTrace s.

(** The structural edits of a sequence. *)
Inductive Edit : Type :=
| EAppend (matrix : PyObj)
| ERemove (index : Z) (pad : bool)
| EInsert (index : Z) (element : PyObj)
| EReplaceSingle (index : Z) (newElement : PyObj)
| EReplaceChunk (startIndex stopIndex : Z) (newChunk : PyObj)
| EFlip.

(** The method call an edit stands for. *)
Definition runEdit (e : Edit) : M unit :=
  match e with
  | EAppend matrix => append matrix
  | ERemove index pad => removeElement index pad
  | EInsert index element => insertElement index element
  | EReplaceSingle index newElement => replaceSingle index newElement
  | EReplaceChunk startIndex stopIndex newChunk =>
      replaceChunk startIndex stopIndex newChunk
  | EFlip => flipOrientation
  end.

(** The group and the world after a run of edits, whether they return or
    raise. *)
Fixpoint afterEdits (es : list Edit) (s : MatrixGroup) (w : World) : MatrixGroup * World :=
  match es with
  | [] => (s, w)
  | e :: rest => afterEdits rest (self' (runEdit e s w)) (world' (runEdit e s w))
  end.

(** A single element, not a nested group. *)
Definition isLeaf (e : Element) : bool :=
  match e with
  | Leaf _ _ => true
  | Nested _ => false
  end.

(** One leaf applied to a ray or a beam; [id] is the new object. *)
Definition step (m : Matrix) (t : Traced) (id : nat) : Traced :=
  match t with
  | TRay r => TRay (mul_ray m r id)
  | TBeam b => TBeam (mul_beam m b id)
  end.

(** The states after each element of a flat sequence. *)
Fixpoint propagate (els : list Element) (t : Traced) (id : nat) : list Traced :=
  match els with
  | [] => []
  | e :: rest => step (matrixOf e) t id :: propagate rest (step (matrixOf e) t id) (S id)
  end.

(** ** Sequences and rays of the examples *)

Definition world0 : World := mkWorld 0 [].

(** A dielectric interface from index 1 to index 1.5. *)
Definition interface15 : Element :=
  Leaf ClsMatrix (mkMatrix 1 0 0 (2 # 3) 0 (Some 0) (Some 0) 1 1.5 PInf).

(** A slab of glass of thickness 2 with its exit face, from index 1.5 back
    to index 1. *)
Definition glassExit : Element :=
  Leaf ClsMatrix (mkMatrix 1 2 0 1.5 2 (Some 0) (Some 2) 1.5 1 PInf).

(** A thick lens of length 3 in air. *)
Definition thickLens : Element :=
  Leaf ClsMatrix (mkMatrix 1 3 (- (1 # 10)) (7 # 10) 3 (Some 0) (Some 3) 1 1 PInf).

(** A circular aperture of diameter 2. *)
Definition aperture2 : Element :=
  Leaf ClsMatrix (mkMatrix 1 0 0 1 0 (Some 0) (Some 0) 1 1 (Fin 2)).

(** [MatrixGroup([Space(10)])]. *)
Definition group1 : MatrixGroup := appended emptyGroup (Space 10).

(** [MatrixGroup([Space(10), Space(20)])]. *)
Definition group2 : MatrixGroup := withElements emptyGroup [Space 10; Space 20].

(** The interface, the slab and the thick lens in a row. *)
Definition group3 : MatrixGroup :=
  withElements emptyGroup [interface15; glassExit; thickLens].

(** [MatrixGroup([Space(10), Lens(10)])] and the group that holds it as its
    one element. *)
Definition innerGroup : MatrixGroup := withElements emptyGroup [Space 10; Lens 10].

Definition outerGroup : MatrixGroup := withElements emptyGroup [Nested innerGroup].

(** A spacer, the aperture, a spacer. *)
Definition apertureGroup : MatrixGroup :=
  withElements emptyGroup [Space 10; aperture2; Space 10].

(** A ray at height 1 and a ray at height 3, both along the axis. *)
Definition ray0 : Traced := TRay (mkRay 7 1 0 0 false).

Definition highRay : Traced := TRay (mkRay 7 3 0 0 false).

(** Two references to one Python object: a ray or a beam of the same class
    and the same identity, whatever its height and angle. *)
Definition sameObject (a b : Traced) : Prop :=
  match a, b with
  | TRay r1, TRay r2 => rid r1 = rid r2
  | TBeam b1, TBeam b2 => bid b1 = bid b2
  | _, _ => False
  end.

(** Another [Ray] object with the height, angle, position and blocked flag
    of [r]. *)
Definition copyOfRay (r : Ray) (id : nat) : Traced :=
  TRay (mkRay id (y r) (theta r) (z r) (isBlocked r)).

(** ** Definitions for the further properties *)

(** A property of the group that a method body keeps, however it ends. *)
Definition preserves (I : MatrixGroup -> Prop) {T} (m : M T) : Prop :=
  forall s w, I s -> I (self' (m s w)).

(** Each element starts at the index where the one before it ends. *)
Definition continuous (g : MatrixGroup) : Prop :=
  linked None (elements g) = true.

(** The aggregate agrees with the elements, or there is no element. *)
Definition emptyOrConsistent (g : MatrixGroup) : Prop :=
  elements g = [] \/ consistent g.

(** What no edit writes: the indices and the aperture of the group itself,
    its position counter and its trace cache. *)
Definition sameFrame (g0 g : MatrixGroup) : Prop :=
  frontIndex (base g) = frontIndex (base g0)
  /\ backIndex (base g) = backIndex (base g0)
  /\ apertureDiameter (base g) = apertureDiameter (base g0)
  /\ iteration g = iteration g0
  /\ lastTrace g = lastTrace g0.

(** A translation over [b]: the matrix [[1 b] [0 1]] of length [b]. *)
Definition isTranslation (m : Matrix) (b : Q) : Prop :=
  A m == 1 /\ B m == b /\ C m == 0 /\ D m == 1 /\ L m == b.

(** A [Space] of some length that is not negative, in some medium. *)
Definition isSpacer (e : Element) : Prop :=
  exists d n, e = SpaceN d n /\ 0 <= d.

(** The ray [r] is the ray of height [y0], angle [theta0] and position [z0]
    taken through the matrix [m]. *)
Definition rayThrough (m : Matrix) (y0 theta0 z0 : Q) (r : Ray) : Prop :=
  y r == A m * y0 + B m * theta0
  /\ theta r == C m * y0 + D m * theta0
  /\ z r == z0 + L m.

(** The number of entries that [element.trace] returns when no nested group
    answers from its cache: one for a leaf, one more than its elements give
    for a group. *)
Fixpoint traceSize (e : Element) : nat :=
  match e with
  | Leaf _ _ => 1
  | Nested g => S (list_sum (map traceSize (elements g)))
  end.

(** No nested group, at any depth, has a cached trace. *)
Fixpoint noCache (e : Element) : bool :=
  match e with
  | Leaf _ _ => true
  | Nested g =>
      match g with
      | mkGroup _ els _ c =>
          match c with None => true | Some _ => false end && forallb noCache els
      end
  end.

(** [element.trace] returns [traceSize] entries. *)
Definition traceHasSize (e : Element) : Prop :=
  noCache e = true ->
  forall ray w, exists l e' w',
    elem_trace e ray w = (Val l, e', w')
    /\ List.length l = traceSize e /\ l <> [].

Local Open Scope Z_scope.

(** The body of the loop of [replaceSingle] (lines 434-441), the element
    already read. *)
Definition replaceBody (index : Z) (newElement : MatrixGroup) (i : Z) (e : Element) : M unit :=
  if i =? index then
    (if Qne_bool (L (matrixOf e)) (L (base newElement)) then warn msgLength else ret tt) ;;
    appendAll newElement
  else append (OMatrix e).


Local Close Scope Z_scope.

(** The element list after a replacement: the elements before [j], the new
    ones, the elements after [k]. *)
Definition replacedList (t : list Element) (j k : nat) (new : list Element) : list Element :=
  firstn j t ++ new ++ skipn (S k) t.

(** The world after the length check of a replacement: one more warning
    when the two lengths differ. *)
Definition warnedLength (w : World) (old new : Q) : World :=
  if Qne_bool old new then mkWorld (nextId w) (warnings w ++ [msgLength]) else w.

(** The group that [MatrixGroup(els)] builds from index-continuous
    elements. *)
Definition groupOf (els : list Element) : MatrixGroup := withElements emptyGroup els.

(** Three spaces and two lenses in a row. *)
Definition group5 : MatrixGroup :=
  groupOf [Space 10; Lens 5; Space 20; Lens 3; Space 4].

(** The world after [__setitem__] looked at the step of a slice: one more
    warning when a step was given. *)
Definition warnedStep (w : World) (step : option Z) : World :=
  match step with
  | Some _ => mkWorld (nextId w) (warnings w ++ [msgStep])
  | None => w
  end.

(** What [save] hands to the pickler (line 496): the element list of the
    group. *)
Definition saved (g : MatrixGroup) : PyObj := OList (map OMatrix (elements g)).

(** A group of one lens behind an aperture of diameter 2. *)
Definition lensBehindAperture : MatrixGroup := groupOf [aperture2; Lens 5].

(** The four entries of every nested group, at any depth, are those of the
    product of its elements. *)
Fixpoint deepConsistent (e : Element) : Prop :=
  match e with
  | Leaf _ _ => True
  | Nested g =>
      match g with
      | mkGroup b els _ _ =>
          abcd_eq b (transferMatrix els PInf)
          /\ (fix all (l : list Element) : Prop :=
                match l with
                | [] => True
                | x :: rest => deepConsistent x /\ all rest
                end) els
      end
  end.

(** A group of a space and the group of a lens and a space. *)
Definition nestedTelescope : MatrixGroup :=
  groupOf [Space 10; Nested (groupOf [Lens 5; Space 20])].

(** Two lenses of focal lengths 10 and 20 separated by 30, the example of
    the docstring of [intermediateConjugates]. *)
Definition twoLenses : MatrixGroup := groupOf [Lens 10; Space 30; Lens 20].

(** Single elements given by their class and their matrix. *)
Definition leaves (ms : list (LeafClass * Matrix)) : list Element :=
  map (fun cm => Leaf (fst cm) (snd cm)) ms.

(** The single elements in the reverse order, each one flipped. *)
Definition flipLeaves (ms : list (LeafClass * Matrix)) : list (LeafClass * Matrix) :=
  rev (map (fun cm => (fst cm, leaf_flipOrientation (snd cm))) ms).

(** ** Element objects *)

(** The definitions above store in a group the elements themselves.  The
    source stores the caller's object (line 84) after writing into it the
    two indices of a mismatched [Space] (lines 78-79), so that every
    reference to that object shows the new indices.  Here the elements of a
    group are references into a store of element objects. *)
Definition Ref : Type := nat.

Definition Store : Type := Ref -> Element.

(** The store after the attributes of the object [r] were written. *)
Definition writeObject (st : Store) (r : Ref) (e : Element) : Store :=
  fun r' => if Nat.eqb r' r then e else st r'.

(** The elements that a list of references shows. *)
Definition deref (st : Store) (refs : list Ref) : list Element := map st refs.

(** What [append] and a run of [append] calls leave: the store, the
    references of the group, and whether the index warning was issued
    ([appendRef]) or [ValueError] was raised ([appendRefs]). *)
Record RefOut : Type := mkRefOut {
  store : Store;
  stored : list Ref;
  flag : bool
}.

(** Lines 72-84 of [append] on references: the index check against the
    last element, the indices of a mismatched [Space] written into the
    object itself, the reference stored; nothing when [ValueError] is
    raised.  The aggregate of lines 85-92 is left out. *)
Definition appendRef (matrix : Ref) (st : Store) (refs : list Ref) : option RefOut :=
  match lastOf refs with
  | None => Some (mkRefOut st (refs ++ [matrix]) false)
  | Some lastElement =>
      if Qne_bool (backIndex (matrixOf (st lastElement)))
                  (frontIndex (matrixOf (st matrix))) then
        if isSpace (st matrix) then
          Some (mkRefOut
                  (writeObject st matrix
                     (setIndices (st matrix) (backIndex (matrixOf (st lastElement)))
                                 (backIndex (matrixOf (st lastElement)))))
                  (refs ++ [matrix]) true)
        else None
      else Some (mkRefOut st (refs ++ [matrix]) false)
  end.

(** [for element in elements: self.append(element)] on references (lines
    30-31, and the replay of every edit): it stops at the first
    [ValueError], the flag then set. *)
Fixpoint appendRefs (matrices : list Ref) (st : Store) (refs : list Ref) : RefOut :=
  match matrices with
  | [] => mkRefOut st refs false
  | matrix :: rest =>
      match appendRef matrix st refs with
      | Some o => appendRefs rest (store o) (stored o)
      | None => mkRefOut st refs true
      end
  end.

(** A store with a spacer in air, object 0, and the interface from index 1
    to index 1.5, object 1. *)
Definition spacerAndInterface : Store :=
  fun r => match r with
           | O => Space 10
           | _ => interface15
           end.

(** A whole number from 0 to 2^53: binary64 holds it exactly, and subtracts
    two such numbers without rounding when the difference is one of them. *)
Definition wholeNumber (q : Q) : Prop :=
  exists z : Z, q == inject_Z z /\ (0 <= z <= 2 ^ 53)%Z.

(** * Properties *)

(** ** The walk of [transferMatrix] *)

Lemma transferMatrix_loop_walk (partial : Element -> Num -> Matrix) (els : list Element) :
  forall start upTo,
    walkSpec partial els start upTo (transferMatrix_loop partial els start upTo).
Proof.
  induction els as [|e rest IH]; intros start upTo.
  - left. split; reflexivity.
  - simpl. destruct (le_num (L (matrixOf e)) upTo) eqn:Hfit.
    + destruct (IH (mul_matrix (matrixOf e) start) (sub_num upTo (L (matrixOf e))))
        as [[Hall Heq] | (pre & x & post & Hsplit & Hall & Hno & Heq)].
      * left. simpl. rewrite Hfit, Hall. split; [reflexivity | exact Heq].
      * right. exists (e :: pre), x, post. simpl. rewrite Hfit, Hall.
        subst rest. repeat split; assumption.
    + right. exists [], e, rest. simpl. repeat split; try reflexivity; assumption.
Qed.

Lemma Qle_bool_refl (q : Q) : Qle_bool q q = true.
Proof. apply Qle_bool_iff. apply Qle_refl. Qed.

Lemma Qle_bool_false (a b : Q) : b < a -> Qle_bool a b = false.
Proof.
  intros H. destruct (Qle_bool a b) eqn:E; [|reflexivity].
  apply Qle_bool_iff in E. exfalso. exact (Qlt_not_le _ _ H E).
Qed.

(** C1 as stated fails: for [Space(10) + Lens(10) + Space(10)] the matrix up
    to 10 is not the translation [[1 10] [0 1]]; its C entry is -1/10. *)
Lemma transferMatrix_upTo_d1_not_translation :
  ~ abcd_eq (transferMatrix [Space 10; Lens 10; Space 10] (Fin 10))
            (Space_matrix 10 1).
Proof.
  intros (_ & _ & Hc & _). vm_compute in Hc. discriminate Hc.
Qed.

(** C1 (amended): [transferMatrix(upTo)] walks the elements in order, takes
    in fully every element that fits in what is left and subtracts its
    length, and folds at most one partial element, the first that does not
    fit, through that element's own [transferMatrix], then stops.  For
    [Space(d1) + Lens(f) + Space(d2)] the matrix up to [d1] is
    [Lens(f) * Space(d1)], that is [[1 d1] [-1/f 1 - d1/f]]: the lens of
    length zero that lies at [d1] is taken in.  Up to any [0 <= d < d1] it is
    the translation [[1 d] [0 1]]. *)
Theorem transferMatrix_walk (els : list Element) (upTo : Num) (d1 f d2 d : Q)
        (Hd2 : 0 <= d2) (Hd : 0 <= d /\ d < d1) :
  walkSpec elem_transferMatrix els (Matrix_init 1 0 0 1) upTo (transferMatrix els upTo)
  /\ abcd_eq (transferMatrix [Space d1; Lens f; Space d2] (Fin d1))
             (mkMatrix 1 d1 (- (1 / f)) (1 - d1 * (1 / f)) d1 None None 1 1 PInf)
  /\ abcd_eq (transferMatrix [Space d1; Lens f; Space d2] (Fin d))
             (mkMatrix 1 d 0 1 d None None 1 1 PInf).
Proof.
  split; [apply transferMatrix_loop_walk|]. split.
  - unfold transferMatrix. simpl. rewrite Qle_bool_refl.
    assert (H0 : Qle_bool 0 (d1 - d1) = true)
      by (apply Qle_bool_iff; ring_simplify; apply Qle_refl).
    rewrite H0.
    destruct (Qle_bool d2 (d1 - d1 - 0)) eqn:E2.
    + apply Qle_bool_iff in E2.
      assert (Hz : d2 == 0).
      { apply Qle_antisym; [|exact Hd2]. ring_simplify in E2.
        eapply Qle_trans; [exact E2|]. ring_simplify. apply Qle_refl. }
      unfold abcd_eq; simpl. rewrite Hz. repeat split; ring.
    + unfold abcd_eq; simpl. repeat split; ring.
  - unfold transferMatrix. simpl.
    rewrite (Qle_bool_false d1 d (proj2 Hd)). simpl.
    unfold abcd_eq; simpl. repeat split; ring.
Qed.

Lemma transferMatrix_walk_witness :
  (0 <= 10 /\ (0 <= 7 /\ 7 < 10))
  /\ abcd_eq (transferMatrix [Space 10; Lens 10; Space 10] (Fin 7))
             (mkMatrix 1 7 0 1 7 None None 1 1 PInf).
Proof.
  assert (H1 : 0 <= 10) by (unfold Qle; simpl; lia).
  assert (H2 : 0 <= 7 /\ 7 < 10) by (split; [unfold Qle | unfold Qlt]; simpl; lia).
  split; [exact (conj H1 H2)|].
  exact (proj2 (proj2 (transferMatrix_walk [Space 10; Lens 10; Space 10] (Fin 10)
                                           10 10 10 7 H1 H2))).
Defined.

(** ** append *)

Lemma append_matrix (matrix : Element) (s : MatrixGroup) (w : World) :
  append (OMatrix matrix) s w =
  match indexCheck s matrix with
  | Some (stored, b) => mkOut (Val tt) (appended s stored) (warned w b)
  | None => mkOut (Raise ValueError) s w
  end.
Proof.
  unfold append, checkIndices, indexCheck, bind, getSelf. simpl.
  destruct (lastOf (elements s)) as [lastElement|]; [|reflexivity].
  destruct (Qne_bool _ _); [|reflexivity].
  destruct (isSpace matrix); reflexivity.
Qed.

Lemma lastOf_app {T} (xs : list T) (x : T) : lastOf (xs ++ [x]) = Some x.
Proof. unfold lastOf. rewrite rev_app_distr. reflexivity. Qed.

Lemma lastOf_nil_iff {T} (xs : list T) : lastOf xs = None <-> xs = [].
Proof.
  split; [|intros ->; reflexivity].
  destruct xs as [|a xs] using rev_ind; [reflexivity|].
  rewrite lastOf_app. discriminate.
Qed.

Lemma elements_appended (s : MatrixGroup) (e : Element) :
  elements (appended s e) = elements s ++ [e].
Proof. reflexivity. Qed.

Lemma appended_consistent (s : MatrixGroup) (e : Element) : consistent (appended s e).
Proof. reflexivity. Qed.

Lemma append_consistent (x : PyObj) (s : MatrixGroup) (w : World) :
  res (append x s w) = Val tt -> consistent (self' (append x s w)).
Proof.
  destruct x as [m| | |]; try discriminate.
  rewrite append_matrix. destruct (indexCheck s m) as [[stored b]|]; [|discriminate].
  intros _. apply appended_consistent.
Qed.

(** C4: on a sequence that is not empty, appending a [Space] whose front
    index differs from the back index of the last element does not raise:
    the spacer is stored last with both its indices set to that back index,
    its other attributes untouched, and one warning is issued; appending any
    other element with such a mismatch raises [ValueError]. *)
Theorem append_mismatch (s : MatrixGroup) (w : World) (lastElement matrix : Element)
        (Hlast : lastOf (elements s) = Some lastElement)
        (Hmis : Qne_bool (backIndex (matrixOf lastElement))
                         (frontIndex (matrixOf matrix)) = true) :
  (isSpace matrix = true ->
     let o := append (OMatrix matrix) s w in
     let n := backIndex (matrixOf lastElement) in
     res o = Val tt
     /\ elements (self' o) = elements s ++ [setIndices matrix n n]
     /\ (exists stored,
           lastOf (elements (self' o)) = Some stored
           /\ isSpace stored = true
           /\ frontIndex (matrixOf stored) = n
           /\ backIndex (matrixOf stored) = n
           /\ matrixAggregate (matrixOf stored) = matrixAggregate (matrixOf matrix))
     /\ warnings (world' o) = warnings w ++ [msgFixSpace])
  /\ (isSpace matrix = false ->
        res (append (OMatrix matrix) s w) = Raise ValueError).
Proof.
  split; intros Hsp; cbv zeta; rewrite append_matrix; unfold indexCheck;
    rewrite Hlast, Hmis, Hsp; simpl.
  - split; [reflexivity|]. split; [reflexivity|]. split; [|reflexivity].
    exists (setIndices matrix (backIndex (matrixOf lastElement))
                       (backIndex (matrixOf lastElement))).
    rewrite lastOf_app.
    destruct matrix as [[|] m|g]; try discriminate Hsp.
    repeat split; reflexivity.
  - reflexivity.
Qed.

Lemma append_mismatch_witness :
  res (append (OMatrix (Space 5)) (appended emptyGroup interface15) world0) = Val tt
  /\ res (append (OMatrix (Lens 5)) (appended emptyGroup interface15) world0)
     = Raise ValueError.
Proof.
  pose proof (append_mismatch (appended emptyGroup interface15) world0
                              interface15 (Space 5) eq_refl eq_refl) as [H1 _].
  pose proof (append_mismatch (appended emptyGroup interface15) world0
                              interface15 (Lens 5) eq_refl eq_refl) as [_ H2].
  split; [exact (proj1 (H1 eq_refl)) | exact (H2 eq_refl)].
Defined.

(** ** Which exceptions the methods raise, and what they leave *)

Lemma append_raise (x : PyObj) (s : MatrixGroup) (w : World) (e : Exn) :
  res (append x s w) = Raise e ->
  (e = TypeError \/ e = ValueError)
  /\ self' (append x s w) = s /\ world' (append x s w) = w.
Proof.
  destruct x as [m| | |];
    [|simpl; intros H; inversion H; repeat split; auto ..].
  rewrite append_matrix. destruct (indexCheck s m) as [[stored b]|]; simpl.
  - discriminate.
  - intros H; inversion H; repeat split; auto.
Qed.

Lemma noIndexError_append (x : PyObj) : noIndexError (append x).
Proof.
  intros s w H. destruct (append_raise x s w IndexError H) as [[E|E] _]; discriminate E.
Qed.

Lemma noIndexError_ret {T} (v : T) : noIndexError (ret v).
Proof. intros s w; discriminate. Qed.


Lemma noIndexError_bind {T U} (m : M T) (k : T -> M U) :
  noIndexError m -> (forall v, noIndexError (k v)) -> noIndexError (bind m k).
Proof.
  intros Hm Hk s w. unfold bind. specialize (Hm s w).
  destruct (res (m s w)) as [v|e] eqn:E.
  - apply Hk.
  - simpl. congruence.
Qed.

Lemma noIndexError_forEach {T} (xs : list T) (body : T -> M unit) :
  (forall x, In x xs -> noIndexError (body x)) -> noIndexError (forEach xs body).
Proof.
  induction xs as [|x rest IH]; intros H; simpl.
  - apply noIndexError_ret.
  - apply noIndexError_bind.
    + apply H. left; reflexivity.
    + intros _. apply IH. intros y Hy. apply H. right; exact Hy.
Qed.

Lemma noIndexError_appendAll (g : MatrixGroup) : noIndexError (appendAll g).
Proof. apply noIndexError_forEach. intros x _. apply noIndexError_append. Qed.

Lemma noIndexError_clearElements : noIndexError clearElements.
Proof. intros s w; discriminate. Qed.

Lemma In_range (i n : Z) : In i (range n) <-> (0 <= i < n)%Z.
Proof.
  unfold range. rewrite in_map_iff. split.
  - intros (k & <- & Hk). apply in_seq in Hk. lia.
  - intros H. exists (Z.to_nat i). split; [lia|]. apply in_seq. lia.
Qed.

(** Inside [range(len(xs))] the subscript [xs[i]] finds its element. *)
Lemma getItem_in_range {T} (xs : list T) (i : Z) :
  In i (range (Z.of_nat (List.length xs))) ->
  exists x, nth_error xs (Z.to_nat i) = Some x /\ getItem xs i = ret x.
Proof.
  intros Hi. apply In_range in Hi.
  destruct (nth_error xs (Z.to_nat i)) as [x|] eqn:E.
  - exists x. split; [reflexivity|]. unfold getItem.
    destruct (i <? 0)%Z eqn:E1; [apply Z.ltb_lt in E1; lia|].
    rewrite E1, E. reflexivity.
  - apply nth_error_None in E. lia.
Qed.

Lemma construct_keeps (els : PyObj) (s : MatrixGroup) (w : World) :
  self' (construct els s w) = s.
Proof. unfold construct. destruct (MatrixGroup_init els w) as [[g|e] w']; reflexivity. Qed.

Lemma construct_raise (els : PyObj) (s : MatrixGroup) (w : World) (e : Exn) :
  res (construct els s w) = Raise e -> e = TypeError \/ e = ValueError.
Proof.
  unfold construct, MatrixGroup_init.
  destruct (iterItems els) as [xs|]; [|simpl; intros H; inversion H; auto].
  remember (forEach xs append emptyGroup w) as o eqn:Ho.
  destruct (res o) as [v|e'] eqn:E; simpl; [discriminate|].
  intros H; inversion H; subst e'. clear H.
  revert Ho E. generalize emptyGroup as g. revert w o.
  induction xs as [|x rest IH]; intros w o g Ho E; subst o; simpl in E.
  - discriminate.
  - unfold bind in E. destruct (res (append x g w)) eqn:Ea.
    + eapply IH; [reflexivity | exact E].
    + simpl in E. inversion E; subst. exact (proj1 (append_raise _ _ _ _ Ea)).
Qed.

Lemma asGroup_keeps (x : PyObj) (s : MatrixGroup) (w : World) :
  self' (asGroup x s w) = s.
Proof. unfold asGroup. destruct (iterItems x); apply construct_keeps. Qed.

Lemma asGroup_raise (x : PyObj) (s : MatrixGroup) (w : World) (e : Exn) :
  res (asGroup x s w) = Raise e -> e = TypeError \/ e = ValueError.
Proof. unfold asGroup. destruct (iterItems x); apply construct_raise. Qed.

Lemma bind_run {T U} (m : M T) (k : T -> M U) (s : MatrixGroup) (w : World) :
  bind m k s w =
  match res (m s w) with
  | Val v => k v (self' (m s w)) (world' (m s w))
  | Raise e => mkOut (Raise e) (self' (m s w)) (world' (m s w))
  end.
Proof. reflexivity. Qed.

Lemma bind_getSelf {U} (k : MatrixGroup -> M U) (s : MatrixGroup) (w : World) :
  bind getSelf k s w = k s s w.
Proof. reflexivity. Qed.

(** The replay loops never end by [IndexError]: every subscript is taken
    inside [range(len(tempElements))] and [append] raises no such error. *)
Ltac replay_no_index :=
  apply noIndexError_bind; [apply noIndexError_clearElements | intros _];
  apply noIndexError_forEach; intros i Hi.


Lemma insertElement_replay_noIndexError (temp : list Element) (index : Z)
      (element : MatrixGroup) :
  noIndexError
    (clearElements ;;
     forEach (range (Z.of_nat (List.length temp))) (fun i =>
       previousElement <- getItem temp i ;;
       if (i =? index)%Z then
         appendAll element ;; append (OMatrix previousElement)
       else append (OMatrix previousElement))).
Proof.
  replay_no_index.
  destruct (getItem_in_range temp i Hi) as (x & _ & ->).
  apply noIndexError_bind; [apply noIndexError_ret | intros v].
  destruct (i =? index)%Z; [|apply noIndexError_append].
  apply noIndexError_bind; [apply noIndexError_appendAll | intros _].
  apply noIndexError_append.
Qed.




Lemma insertElement_IndexError (index : Z) (x : PyObj) (s : MatrixGroup) (w : World) :
  res (insertElement index x s w) = Raise IndexError ->
  self' (insertElement index x s w) = s.
Proof.
  unfold insertElement. rewrite bind_run.
  destruct (res (asGroup x s w)) as [g|e] eqn:Eg.
  - rewrite asGroup_keeps, bind_getSelf. cbv zeta.
    destruct (_ || _); [reflexivity|].
    destruct (_ =? _)%Z; intros H; exfalso; revert H.
    + apply noIndexError_appendAll.
    + apply insertElement_replay_noIndexError.
  - simpl. intros H. inversion H; subst e.
    destruct (asGroup_raise _ _ _ _ Eg); discriminate.
Qed.








(** ** Stale aggregate after the last element is removed *)

(** C3, at the failing input: removing the only element of
    [MatrixGroup([Space(10)])] returns normally and leaves an empty element
    list, whose transfer matrix is the identity of length 0, while the
    aggregate still reads [B = 10] and [L = 10]: no [append] ran in the
    replay, so nothing recomputed it. *)
Theorem removeElement_only_element_stale :
  let s := group1 in
  let o := removeElement 0 false s world0 in
  MatrixGroup_init (OList [OMatrix (Space 10)]) world0 = (Val s, world0)
  /\ consistent s
  /\ res o = Val tt
  /\ elements (self' o) = []
  /\ aggregateOf (self' o) = aggregateOf s
  /\ ~ L (base (self' o)) == L (transferMatrix (elements (self' o)) PInf)
  /\ ~ B (base (self' o)) == B (transferMatrix (elements (self' o)) PInf).
Proof.
  cbv zeta. repeat split; try reflexivity; intros H; vm_compute in H; discriminate H.
Qed.

(** ** Replaying a list of elements through [append] *)

Lemma storedFrom_L (x stored : Element) :
  storedFrom x stored -> L (matrixOf stored) = L (matrixOf x).
Proof.
  intros [->|(_ & n & ->)]; [reflexivity|]. destruct x as [c m|g]; reflexivity.
Qed.

Lemma indexCheck_storedFrom (s : MatrixGroup) (x stored : Element) (b : bool) :
  indexCheck s x = Some (stored, b) -> storedFrom x stored.
Proof.
  unfold indexCheck. destruct (lastOf (elements s)) as [l|].
  - destruct (Qne_bool _ _).
    + destruct (isSpace x) eqn:E; [|discriminate].
      intros H; inversion H. right. split; [exact E|]. eexists; reflexivity.
    + intros H; inversion H. left; reflexivity.
  - intros H; inversion H. left; reflexivity.
Qed.

Lemma appendEach_cons (x : Element) (xs : list Element) (s : MatrixGroup) (w : World) :
  appendEach (x :: xs) s w =
  match indexCheck s x with
  | Some (stored, b) => appendEach xs (appended s stored) (warned w b)
  | None => mkOut (Raise ValueError) s w
  end.
Proof.
  unfold appendEach. cbn [forEach]. rewrite bind_run, append_matrix.
  destruct (indexCheck s x) as [[stored b]|]; reflexivity.
Qed.

(** What a replay that returns has built: the elements one by one as
    [append] stores them, after those already there, and an aggregate that
    agrees with the list as soon as one element went through. *)
Lemma appendEach_val (xs : list Element) :
  forall s w,
    res (appendEach xs s w) = Val tt ->
    exists stored,
      Forall2 storedFrom xs stored
      /\ elements (self' (appendEach xs s w)) = elements s ++ stored
      /\ (xs <> [] -> consistent (self' (appendEach xs s w))).
Proof.
  induction xs as [|x rest IH]; intros s w H.
  - exists []. simpl. rewrite app_nil_r. repeat split; [constructor | congruence].
  - rewrite appendEach_cons in *.
    destruct (indexCheck s x) as [[st b]|] eqn:E; [|discriminate].
    destruct (IH _ _ H) as (stored & HF & Hel & Hc).
    exists (st :: stored). split; [|split].
    + constructor; [exact (indexCheck_storedFrom _ _ _ _ E) | exact HF].
    + rewrite Hel, elements_appended, <- app_assoc. reflexivity.
    + intros _. destruct rest as [|y rest'].
      * simpl. apply appended_consistent.
      * apply Hc. discriminate.
Qed.

(** A replay raises nothing but the [ValueError] of an index mismatch. *)
Lemma appendEach_raise (xs : list Element) :
  forall s w e, res (appendEach xs s w) = Raise e -> e = ValueError.
Proof.
  induction xs as [|x rest IH]; intros s w e H.
  - discriminate.
  - rewrite appendEach_cons in H.
    destruct (indexCheck s x) as [[st b]|]; [exact (IH _ _ _ H)|].
    inversion H; reflexivity.
Qed.

Lemma forEach_app {T} (xs ys : list T) (body : T -> M unit) (s : MatrixGroup) (w : World) :
  forEach (xs ++ ys) body s w = (forEach xs body ;; forEach ys body) s w.
Proof.
  revert s w. induction xs as [|x rest IH]; intros s w.
  - reflexivity.
  - simpl. rewrite !bind_run. destruct (res (body x s w)); [|reflexivity].
    rewrite IH. reflexivity.
Qed.

(** ** The replay loops as one pass over a list *)

Local Open Scope Z_scope.

Lemma getItem_middle {T} (pre : list T) (x : T) (post : list T) :
  getItem (pre ++ x :: post) (Z.of_nat (List.length pre)) = ret x.
Proof.
  unfold getItem.
  destruct (Z.of_nat (List.length pre) <? 0) eqn:E; [apply Z.ltb_lt in E; lia|].
  rewrite E, Nat2Z.id, nth_error_app2, Nat.sub_diag by lia. reflexivity.
Qed.

(** The loop [for i in range(maxIndex): element = tempElements[i]; ...] is a
    pass over the snapshot with a running index. *)
Lemma forEach_range_getItem (body : Z -> Element -> M unit) (temp : list Element) :
  forall pre s w,
    forEach (map Z.of_nat (seq (List.length pre) (List.length temp)))
            (fun i => x <- getItem (pre ++ temp) i ;; body i x) s w
    = forEachFrom (Z.of_nat (List.length pre)) temp body s w.
Proof.
  induction temp as [|x rest IH]; intros pre s w.
  - reflexivity.
  - cbn [List.length seq map forEach forEachFrom].
    rewrite !bind_run, getItem_middle. cbn [ret res self' world'].
    destruct (res (body (Z.of_nat (List.length pre)) x s w)); [|reflexivity].
    specialize (IH (pre ++ [x])).
    rewrite <- app_assoc, length_app, Nat.add_1_r in IH. cbn [app] in IH.
    rewrite IH. f_equal. lia.
Qed.

Lemma replay_range (body : Z -> Element -> M unit) (temp : list Element)
      (s : MatrixGroup) (w : World) :
  forEach (range (Z.of_nat (List.length temp)))
          (fun i => x <- getItem temp i ;; body i x) s w
  = forEachFrom 0 temp body s w.
Proof.
  unfold range. rewrite Nat2Z.id. exact (forEach_range_getItem body temp [] s w).
Qed.

Lemma bind_ret_tt {U} (k : M U) (s : MatrixGroup) (w : World) :
  (ret tt ;; k) s w = k s w.
Proof. reflexivity. Qed.

Lemma removeBody_other (index : Z) (pad : bool) (k : Z) (e : Element) :
  k <> index -> removeBody index pad k e = append (OMatrix e).
Proof.
  intros H. unfold removeBody. apply Z.eqb_neq in H. rewrite H. reflexivity.
Qed.

Lemma insertBody_other (index : Z) (g : MatrixGroup) (k : Z) (e : Element) :
  k <> index -> insertBody index g k e = append (OMatrix e).
Proof.
  intros H. unfold insertBody. apply Z.eqb_neq in H. rewrite H. reflexivity.
Qed.

Lemma removeBody_after (index : Z) (pad : bool) (t : list Element) :
  forall k s w, index < k ->
    forEachFrom k t (removeBody index pad) s w = appendEach t s w.
Proof.
  induction t as [|e rest IH]; intros k s w Hk; [reflexivity|].
  unfold appendEach in *. cbn [forEachFrom forEach].
  rewrite removeBody_other by lia. rewrite !bind_run.
  destruct (res _); [|reflexivity]. apply IH. lia.
Qed.

Lemma removeBody_list (index : Z) (pad : bool) (t : list Element) :
  forall k s w, k <= index ->
    forEachFrom k t (removeBody index pad) s w
    = appendEach (removedList t (Z.to_nat (index - k)) pad) s w.
Proof.
  induction t as [|e rest IH]; intros k s w Hk.
  - unfold removedList, padding. rewrite firstn_nil, skipn_nil.
    destruct (Z.to_nat (index - k)); reflexivity.
  - cbn [forEachFrom]. destruct (Z.eq_dec k index) as [E|E].
    + subst k. rewrite Z.sub_diag.
      unfold removedList, padding. cbn [Z.to_nat firstn skipn nth_error app].
      unfold removeBody at 1. rewrite Z.eqb_refl.
      destruct (Qgt_bool (L (matrixOf e)) 0 && pad).
      * cbn [app]. unfold appendEach at 1. cbn [forEach]. rewrite !bind_run.
        destruct (res _); [|reflexivity]. apply removeBody_after. lia.
      * rewrite bind_ret_tt. cbn [app]. apply removeBody_after. lia.
    + rewrite removeBody_other by exact E.
      replace (Z.to_nat (index - k)) with (S (Z.to_nat (index - (k + 1)))) by lia.
      unfold removedList, padding. cbn [firstn skipn nth_error app].
      unfold appendEach at 1. cbn [forEach]. rewrite !bind_run.
      destruct (res _); [|reflexivity].
      rewrite IH by lia. reflexivity.
Qed.

Lemma insertBody_after (index : Z) (g : MatrixGroup) (t : list Element) :
  forall k s w, index < k ->
    forEachFrom k t (insertBody index g) s w = appendEach t s w.
Proof.
  induction t as [|e rest IH]; intros k s w Hk; [reflexivity|].
  unfold appendEach in *. cbn [forEachFrom forEach].
  rewrite insertBody_other by lia. rewrite !bind_run.
  destruct (res _); [|reflexivity]. apply IH. lia.
Qed.

Lemma insertBody_list (index : Z) (g : MatrixGroup) (t : list Element) :
  forall k s w, k <= index < k + Z.of_nat (List.length t) ->
    forEachFrom k t (insertBody index g) s w
    = appendEach (insertedList t (Z.to_nat (index - k)) (elements g)) s w.
Proof.
  induction t as [|e rest IH]; intros k s w Hk.
  - simpl in Hk. lia.
  - cbn [forEachFrom]. destruct (Z.eq_dec k index) as [E|E].
    + subst k. rewrite Z.sub_diag.
      unfold insertedList. cbn [Z.to_nat firstn skipn app].
      unfold insertBody at 1. rewrite Z.eqb_refl.
      unfold appendEach. rewrite forEach_app. unfold appendAll.
      rewrite !bind_run.
      destruct (res (forEach (elements g) _ s w)); [|reflexivity].
      cbn [forEach]. rewrite !bind_run.
      destruct (res _); [|reflexivity]. apply insertBody_after. lia.
    + rewrite insertBody_other by exact E.
      replace (Z.to_nat (index - k)) with (S (Z.to_nat (index - (k + 1))))
        by (cbn [List.length] in Hk; lia).
      unfold insertedList. cbn [firstn skipn app].
      unfold appendEach at 1. cbn [forEach]. rewrite !bind_run.
      destruct (res _); [|reflexivity].
      rewrite IH by (cbn [List.length] in Hk; lia). reflexivity.
Qed.

Local Close Scope Z_scope.

(** [removeElement] at a valid index: the snapshot, without the element or
    with its padding, replayed through [append] on the emptied list. *)
Lemma removeElement_valid (index : Z) (pad : bool) (s : MatrixGroup) (w : World) :
  (0 <= normalized s index < len__ s)%Z ->
  removeElement index pad s w
  = appendEach (removedList (elements s) (Z.to_nat (normalized s index)) pad)
               (setElements s []) w.
Proof.
  unfold normalized. intros H. unfold removeElement. rewrite bind_getSelf. cbv zeta.
  set (j := if (index <? 0)%Z then (index + len__ s)%Z else index) in *.
  destruct ((j >=? len__ s)%Z || (j <? 0)%Z) eqn:E.
  - apply orb_true_iff in E. destruct E as [E|E]; [apply Z.geb_le in E | apply Z.ltb_lt in E]; lia.
  - rewrite bind_run. cbn [clearElements bind getSelf putSelf res self' world'].
    etransitivity; [exact (replay_range (removeBody j pad) (elements s) _ w)|].
    rewrite removeBody_list by lia. rewrite Z.sub_0_r. reflexivity.
Qed.

(** [removeElement] at an index out of range. *)
Lemma removeElement_invalid (index : Z) (pad : bool) (s : MatrixGroup) (w : World) :
  ~ (0 <= normalized s index < len__ s)%Z ->
  removeElement index pad s w = mkOut (Raise IndexError) s w.
Proof.
  unfold normalized. intros H. unfold removeElement. rewrite bind_getSelf. cbv zeta.
  set (j := if (index <? 0)%Z then (index + len__ s)%Z else index) in *.
  destruct ((j >=? len__ s)%Z || (j <? 0)%Z) eqn:E; [reflexivity|].
  apply orb_false_iff in E. destruct E as [E1 E2].
  rewrite Z.geb_leb in E1. apply Z.leb_gt in E1. apply Z.ltb_ge in E2. lia.
Qed.

(** ** Total length *)

Lemma transferMatrix_loop_PInf (partial : Element -> Num -> Matrix) (els : list Element) :
  forall start, transferMatrix_loop partial els start PInf = composeAll els start.
Proof. induction els as [|e rest IH]; intros start; [reflexivity | apply IH]. Qed.

Lemma composeAll_L (els : list Element) :
  forall start, L (composeAll els start) == L start + sumL els.
Proof.
  induction els as [|e rest IH]; intros start; simpl.
  - ring.
  - rewrite IH. simpl. ring.
Qed.

(** The length of the whole transfer matrix is the sum of the lengths of the
    elements. *)
Lemma totalLength_sumL (els : list Element) :
  L (transferMatrix els PInf) == sumL els.
Proof.
  unfold transferMatrix. rewrite transferMatrix_loop_PInf, composeAll_L. simpl. ring.
Qed.

Lemma sumL_app (xs ys : list Element) : sumL (xs ++ ys) == sumL xs + sumL ys.
Proof.
  induction xs as [|x rest IH]; simpl; [ring | rewrite IH; ring].
Qed.

Lemma sumL_stored (xs stored : list Element) :
  Forall2 storedFrom xs stored -> sumL stored = sumL xs.
Proof.
  induction 1 as [|x st xs sts Hx _ IH]; [reflexivity|].
  simpl. rewrite IH, (storedFrom_L _ _ Hx). reflexivity.
Qed.

Lemma sumL_split (t : list Element) :
  forall j e, nth_error t j = Some e ->
    sumL t == sumL (firstn j t) + L (matrixOf e) + sumL (skipn (S j) t).
Proof.
  induction t as [|x rest IH]; intros [|j] e H; try discriminate.
  - inversion H; subst. cbn [firstn skipn sumL fold_right]. fold (sumL rest). ring.
  - simpl in H.
    change (skipn (S (S j)) (x :: rest)) with (skipn (S j) rest).
    change (sumL (firstn (S j) (x :: rest)))
      with (L (matrixOf x) + sumL (firstn j rest)).
    change (sumL (x :: rest)) with (L (matrixOf x) + sumL rest).
    rewrite (IH j e H). ring.
Qed.

(** ** removeElement and the total length *)

(** C6 as stated fails: in [interface15; glassExit; thickLens], built by the
    constructor, removing the element of length 2 at index 1 makes the replay
    append [thickLens] (front index 1) after [interface15] (back index
    1.5), or after the padding spacer that took that index: [append] raises
    [ValueError] and the sequence is left with total length 0 without
    padding, 2 with padding, not 5 - 2 and 5. *)
Lemma removeElement_mismatch_loses_length :
  MatrixGroup_init (OList (map OMatrix [interface15; glassExit; thickLens])) world0
  = (Val group3, world0)
  /\ nth_error (elements group3) 1 = Some glassExit
  /\ res (removeElement 1 false group3 world0) = Raise ValueError
  /\ ~ L (transferMatrix (elements (self' (removeElement 1 false group3 world0))) PInf)
       == L (transferMatrix (elements group3) PInf) - L (matrixOf glassExit)
  /\ res (removeElement 1 true group3 world0) = Raise ValueError
  /\ ~ L (transferMatrix (elements (self' (removeElement 1 true group3 world0))) PInf)
       == L (transferMatrix (elements group3) PInf).
Proof.
  split; [vm_compute; reflexivity|].
  split; [reflexivity|].
  split; [vm_compute; reflexivity|].
  split; [intros H; vm_compute in H; discriminate H|].
  split; [vm_compute; reflexivity|].
  intros H; vm_compute in H; discriminate H.
Qed.

Lemma Forall2_nil_iff {T U} (R : T -> U -> Prop) (xs : list T) (ys : list U) :
  Forall2 R xs ys -> (xs = [] <-> ys = []).
Proof. intros H; destruct H; split; intros; congruence. Qed.

(** C6 (amended): for a valid index [i] of an element of length [d >= 0],
    when [removeElement] returns, that is when no index mismatch is raised
    while the other elements are replayed through [append]: with [pad=True]
    the total length of the sequence is what it was, with [pad=False] it is
    smaller by exactly [d]; the aggregate [L] is that total length whenever
    an element is left; with [pad=True] and [d > 0] the element list is the
    old one with a [Space] of length [d] in the place of the element, and
    otherwise the old one without the element, every other element stored
    as [append] stores it (itself, or a [Space] with its indices
    rewritten). *)
Theorem removeElement_length (s : MatrixGroup) (w : World) (index : Z) (pad : bool)
        (e : Element)
        (Hidx : (0 <= normalized s index < len__ s)%Z)
        (He : nth_error (elements s) (Z.to_nat (normalized s index)) = Some e)
        (Hd : 0 <= L (matrixOf e))
        (Hret : res (removeElement index pad s w) = Val tt) :
  let s' := self' (removeElement index pad s w) in
  (pad = true ->
     L (transferMatrix (elements s') PInf) == L (transferMatrix (elements s) PInf))
  /\ (pad = false ->
        L (transferMatrix (elements s') PInf)
        == L (transferMatrix (elements s) PInf) - L (matrixOf e))
  /\ (elements s' <> [] -> L (base s') = L (transferMatrix (elements s') PInf))
  /\ (pad = true -> 0 < L (matrixOf e) ->
        exists before n after,
          elements s' = before ++ SpaceN (L (matrixOf e)) n :: after
          /\ Forall2 storedFrom
                     (firstn (Z.to_nat (normalized s index)) (elements s)) before
          /\ Forall2 storedFrom
                     (skipn (S (Z.to_nat (normalized s index))) (elements s)) after)
  /\ (pad = false \/ L (matrixOf e) == 0 ->
        Forall2 storedFrom
                (firstn (Z.to_nat (normalized s index)) (elements s)
                 ++ skipn (S (Z.to_nat (normalized s index))) (elements s))
                (elements s')).
Proof.
  cbv zeta. rewrite removeElement_valid in * by exact Hidx.
  destruct (appendEach_val _ _ _ Hret) as (stored & HF & Hel & Hc).
  cbn [elements setElements app] in Hel. rewrite Hel.
  set (j := Z.to_nat (normalized s index)) in *.
  assert (Hlist := HF).
  assert (Hnew : L (transferMatrix stored PInf)
                 == sumL (firstn j (elements s)) + sumL (padding (elements s) j pad)
                    + sumL (skipn (S j) (elements s))).
  { eapply Qeq_trans; [apply totalLength_sumL|].
    rewrite (sumL_stored _ _ HF). unfold removedList.
    eapply Qeq_trans; [apply sumL_app|].
    eapply Qeq_trans; [apply Qplus_comp; [apply Qeq_refl | apply sumL_app]|].
    ring. }
  assert (Hold : L (transferMatrix (elements s) PInf)
                 == sumL (firstn j (elements s)) + L (matrixOf e)
                    + sumL (skipn (S j) (elements s))).
  { eapply Qeq_trans; [apply totalLength_sumL | apply sumL_split; exact He]. }
  unfold padding in Hnew. rewrite He in Hnew.
  unfold removedList, padding in Hlist. rewrite He in Hlist.
  split; [|split; [|split; [|split]]].
  - intros ->. rewrite andb_true_r in Hnew.
    eapply Qeq_trans; [exact Hnew|]. apply Qeq_sym.
    eapply Qeq_trans; [exact Hold|].
    destruct (Qgt_bool (L (matrixOf e)) 0) eqn:G.
    + simpl. ring.
    + unfold Qgt_bool in G. apply negb_false_iff, Qle_bool_iff in G.
      assert (Hz : L (matrixOf e) == 0) by (apply Qle_antisym; assumption).
      simpl. rewrite Hz. ring.
  - intros ->. rewrite andb_false_r in Hnew.
    eapply Qeq_trans; [exact Hnew|].
    apply Qeq_sym.
    eapply Qeq_trans; [apply Qplus_comp; [exact Hold | apply Qeq_refl]|].
    simpl. ring.
  - intros Hne.
    assert (Hx : removedList (elements s) j pad <> []).
    { intros Hx. apply Hne. apply (Forall2_nil_iff _ _ _ HF). exact Hx. }
    specialize (Hc Hx). unfold consistent, aggregateOf, matrixAggregate in Hc.
    rewrite Hel in Hc. inversion Hc. reflexivity.
  - intros -> Hpos.
    assert (G : Qgt_bool (L (matrixOf e)) 0 = true).
    { unfold Qgt_bool. apply negb_true_iff.
      destruct (Qle_bool (L (matrixOf e)) 0) eqn:G; [|reflexivity].
      apply Qle_bool_iff in G. exfalso. exact (Qlt_not_le _ _ Hpos G). }
    rewrite G in Hlist. cbn [andb] in Hlist.
    apply Forall2_app_inv_l in Hlist.
    destruct Hlist as (before & rest & Hb & Hrest & ->).
    cbn [app] in Hrest. inversion Hrest as [|x sp l after Hsp Hafter]; subst.
    assert (Hn : exists n, sp = SpaceN (L (matrixOf e)) n).
    { destruct Hsp as [->|(_ & n & ->)]; [exists 1 | exists n]; reflexivity. }
    destruct Hn as (n & ->).
    exists before, n, after. split; [reflexivity|]. split; assumption.
  - intros Hcase.
    assert (G : Qgt_bool (L (matrixOf e)) 0 && pad = false).
    { destruct Hcase as [->|Hz]; [apply andb_false_r|].
      unfold Qgt_bool.
      assert (Hle : Qle_bool (L (matrixOf e)) 0 = true)
        by (apply Qle_bool_iff; rewrite Hz; apply Qle_refl).
      rewrite Hle. reflexivity. }
    rewrite G in Hlist. exact Hlist.
Qed.

Lemma removeElement_length_witness :
  L (transferMatrix (elements (self' (removeElement 2 true group3 world0))) PInf)
  == L (transferMatrix (elements group3) PInf)
  /\ (exists before n after,
        elements (self' (removeElement 2 true group3 world0))
        = before ++ SpaceN 3 n :: after
        /\ Forall2 storedFrom [interface15; glassExit] before
        /\ Forall2 storedFrom [] after)
  /\ L (transferMatrix (elements (self' (removeElement (-1) false group3 world0))) PInf)
     == L (transferMatrix (elements group3) PInf) - L (matrixOf thickLens)
  /\ Forall2 storedFrom [interface15; glassExit]
             (elements (self' (removeElement (-1) false group3 world0))).
Proof.
  assert (H2 : (0 <= normalized group3 2 < len__ group3)%Z)
    by (vm_compute; split; [intros H; discriminate H | reflexivity]).
  assert (H1 : (0 <= normalized group3 (-1) < len__ group3)%Z)
    by (vm_compute; split; [intros H; discriminate H | reflexivity]).
  assert (Hd : 0 <= L (matrixOf thickLens)) by (vm_compute; intros H; discriminate H).
  destruct (removeElement_length group3 world0 2%Z true thickLens H2 eq_refl Hd eq_refl)
    as (Ha & _ & _ & Hb & _).
  destruct (removeElement_length group3 world0 (-1)%Z false thickLens H1 eq_refl Hd eq_refl)
    as (_ & Hc & _ & _ & He).
  split; [exact (Ha eq_refl)|].
  split; [exact (Hb eq_refl eq_refl)|].
  split; [exact (Hc eq_refl)|].
  exact (He (or_introl eq_refl)).
Defined.

(** ** Index continuity and replay without repair *)

Lemma lastOf_cons {T} (x : T) (xs : list T) :
  lastOf (x :: xs) = match lastOf xs with Some l => Some l | None => Some x end.
Proof.
  unfold lastOf. simpl. destruct (rev xs); reflexivity.
Qed.

Lemma linked_app (a b : list Element) :
  forall prev,
    linked prev (a ++ b)
    = linked prev a
      && linked (match lastOf a with Some l => Some l | None => prev end) b.
Proof.
  induction a as [|x rest IH]; intros prev.
  - reflexivity.
  - cbn [app linked]. rewrite IH, lastOf_cons, andb_assoc.
    destruct (lastOf rest); reflexivity.
Qed.

Lemma withElements_appended (s : MatrixGroup) (x : Element) (els : list Element) :
  withElements (appended s x) els = withElements s els.
Proof. reflexivity. Qed.

(** Replaying index-continuous elements stores them unchanged, raises
    nothing and issues no warning. *)
Lemma appendEach_linked (xs : list Element) :
  forall s w,
    linked (lastOf (elements s)) xs = true ->
    appendEach xs s w
    = mkOut (Val tt)
            (match xs with [] => s | _ => withElements s (elements s ++ xs) end) w.
Proof.
  induction xs as [|x rest IH]; intros s w H; [reflexivity|].
  cbn [linked] in H. apply andb_true_iff in H. destruct H as [H1 H2].
  rewrite appendEach_cons.
  assert (Hc : indexCheck s x = Some (x, false)).
  { unfold indexCheck. destruct (lastOf (elements s)); [|reflexivity].
    unfold Qne_bool. rewrite H1. reflexivity. }
  rewrite Hc. cbn [warned]. rewrite IH.
  - destruct rest as [|y rest']; [reflexivity|].
    rewrite withElements_appended, elements_appended, <- app_assoc. reflexivity.
  - rewrite elements_appended, lastOf_app. exact H2.
Qed.

Lemma withElements_consistent (s : MatrixGroup) :
  consistent s -> withElements s (elements s) = s.
Proof.
  destruct s as [[a b c d l fv bv nf nb ap] els it cache].
  unfold consistent, aggregateOf, matrixAggregate, withElements, setAggregate, setElements.
  cbn [base elements iteration lastTrace A B C D L frontVertex backVertex
       frontIndex backIndex apertureDiameter].
  intros H. inversion H. reflexivity.
Qed.

Lemma padding_false (t : list Element) (j : nat) : padding t j false = [].
Proof.
  unfold padding. destruct (nth_error t j); [rewrite andb_false_r|]; reflexivity.
Qed.

Lemma removed_inserted (x : Element) (t : list Element) :
  forall j, (j <= List.length t)%nat ->
    removedList (insertedList t j [x]) j false = t.
Proof.
  intros j Hj. unfold removedList. rewrite padding_false. cbn [app].
  unfold insertedList. revert j Hj.
  induction t as [|e rest IH]; intros [|j] Hj; simpl in Hj; try reflexivity; [lia|].
  specialize (IH j ltac:(lia)). cbn [firstn skipn app] in *.
  f_equal. exact IH.
Qed.

(** The group built around one leaf element by lines 397-398. *)
Lemma asGroup_leaf (cls : LeafClass) (m : Matrix) (s : MatrixGroup) (w : World) :
  asGroup (OMatrix (Leaf cls m)) s w
  = mkOut (Val (withElements emptyGroup [Leaf cls m])) s w.
Proof. reflexivity. Qed.

(** ** insertElement followed by removeElement *)

(** [insertElement] of one leaf element at an index from 0 to the length:
    at the length it is appended to the list as it is, below it the snapshot
    with the element inserted is replayed on the emptied list. *)
Lemma insertElement_leaf (index : Z) (cls : LeafClass) (m : Matrix)
      (s : MatrixGroup) (w : World) :
  (0 <= index <= len__ s)%Z ->
  insertElement index (OMatrix (Leaf cls m)) s w
  = if (index =? len__ s)%Z then appendEach [Leaf cls m] s w
    else appendEach (insertedList (elements s) (Z.to_nat index) [Leaf cls m])
                    (setElements s []) w.
Proof.
  intros H. unfold insertElement. rewrite bind_run, asGroup_leaf.
  cbn [res self' world']. rewrite bind_getSelf. cbv zeta.
  destruct (index <? 0)%Z eqn:E0; [apply Z.ltb_lt in E0; lia|].
  destruct ((index >? len__ s)%Z || (index <? 0)%Z) eqn:E.
  - apply orb_true_iff in E. destruct E as [E|E]; [|congruence].
    rewrite Z.gtb_ltb in E. apply Z.ltb_lt in E. lia.
  - destruct (index =? len__ s)%Z eqn:En; [reflexivity|].
    apply Z.eqb_neq in En.
    rewrite bind_run. cbn [clearElements bind getSelf putSelf res self' world'].
    etransitivity;
      [exact (replay_range (insertBody index (withElements emptyGroup [Leaf cls m]))
                           (elements s) _ w)|].
    rewrite insertBody_list by (unfold len__ in *; lia).
    rewrite Z.sub_0_r. reflexivity.
Qed.

Lemma insertedList_length (t : list Element) (j : nat) (x : Element) :
  (j <= List.length t)%nat ->
  List.length (insertedList t j [x]) = S (List.length t).
Proof.
  intros H. unfold insertedList.
  rewrite !length_app, length_firstn, length_skipn. simpl. lia.
Qed.

(** With continuous indices the insertion stores the elements unchanged. *)
Lemma insertElement_leaf_linked (index : Z) (cls : LeafClass) (m : Matrix)
      (s : MatrixGroup) (w : World) :
  (0 <= index <= len__ s)%Z ->
  linked None (insertedList (elements s) (Z.to_nat index) [Leaf cls m]) = true ->
  insertElement index (OMatrix (Leaf cls m)) s w
  = mkOut (Val tt)
          (withElements s (insertedList (elements s) (Z.to_nat index) [Leaf cls m])) w.
Proof.
  intros Hidx Hfit. rewrite insertElement_leaf by exact Hidx.
  destruct (index =? len__ s)%Z eqn:En.
  - apply Z.eqb_eq in En. unfold len__ in En.
    assert (Hj : Z.to_nat index = List.length (elements s)) by lia.
    rewrite Hj in *. unfold insertedList in *.
    rewrite firstn_all, skipn_all, app_nil_r in *.
    rewrite linked_app in Hfit. apply andb_true_iff in Hfit. destruct Hfit as [_ Hx].
    rewrite appendEach_linked; [reflexivity|].
    destruct (lastOf (elements s)); exact Hx.
  - rewrite appendEach_linked by exact Hfit.
    unfold insertedList.
    destruct (firstn (Z.to_nat index) (elements s) ++
              [Leaf cls m] ++ skipn (Z.to_nat index) (elements s)) eqn:E.
    + exfalso. destruct (firstn (Z.to_nat index) (elements s)); discriminate E.
    + reflexivity.
Qed.

(** C7 as stated fails: at index -1 on [Space(10); Space(20)] the lens is
    inserted before the last element, and index -1 of the longer list then
    removes the last element, not the lens. *)
Lemma insert_remove_negative_index :
  let o1 := insertElement (-1) (OMatrix (Lens 5)) group2 world0 in
  let o2 := removeElement (-1) false (self' o1) (world' o1) in
  MatrixGroup_init (OList (map OMatrix [Space 10; Space 20])) world0 = (Val group2, world0)
  /\ res o1 = Val tt
  /\ elements (self' o1) = [Space 10; Lens 5; Space 20]
  /\ res o2 = Val tt
  /\ elements (self' o2) = [Space 10; Lens 5]
  /\ elements (self' o2) <> elements group2.
Proof.
  cbv zeta.
  split; [vm_compute; reflexivity|].
  split; [vm_compute; reflexivity|].
  split; [vm_compute; reflexivity|].
  split; [vm_compute; reflexivity|].
  split; [vm_compute; reflexivity|].
  intros H; vm_compute in H; discriminate H.
Qed.

(** C7 (amended): for a sequence with continuous indices and an aggregate
    that agrees with its elements, an index [0 <= i <= n] and one leaf
    element whose indices fit its neighbours at [i]:
    [insertElement(i, element)] returns, [removeElement(i, pad=False)] after
    it returns, no warning is issued, the element list is the original one
    and, when the sequence is not empty, the whole group, aggregate included,
    is the original one. *)
Theorem insert_remove_roundtrip (s : MatrixGroup) (w : World) (index : Z)
        (cls : LeafClass) (m : Matrix)
        (Hidx : (0 <= index <= len__ s)%Z)
        (Hcont : linked None (elements s) = true)
        (Hfit : linked None (insertedList (elements s) (Z.to_nat index) [Leaf cls m])
                = true)
        (Hcons : consistent s) :
  let o1 := insertElement index (OMatrix (Leaf cls m)) s w in
  let o2 := removeElement index false (self' o1) (world' o1) in
  res o1 = Val tt
  /\ elements (self' o1) = insertedList (elements s) (Z.to_nat index) [Leaf cls m]
  /\ res o2 = Val tt
  /\ elements (self' o2) = elements s
  /\ world' o2 = w
  /\ (elements s <> [] -> self' o2 = s).
Proof.
  cbv zeta. rewrite insertElement_leaf_linked by assumption.
  cbn [res self' world'].
  set (il := insertedList (elements s) (Z.to_nat index) [Leaf cls m]).
  assert (Hlen : List.length il = S (List.length (elements s)))
    by (apply insertedList_length; unfold len__ in Hidx; lia).
  assert (Hn : normalized (withElements s il) index = index).
  { unfold normalized. destruct (index <? 0)%Z eqn:E; [apply Z.ltb_lt in E; lia|reflexivity]. }
  rewrite removeElement_valid
    by (rewrite Hn; unfold len__ in *; cbn [withElements setAggregate setElements elements];
        rewrite Hlen; lia).
  rewrite Hn. cbn [withElements setAggregate setElements elements].
  unfold il. rewrite removed_inserted by (unfold len__ in Hidx; lia).
  rewrite appendEach_linked by exact Hcont.
  cbn [res self' world'].
  split; [reflexivity|]. split; [reflexivity|]. split; [reflexivity|].
  destruct (elements s) as [|e rest] eqn:Es.
  - repeat split. intros H; elim H; reflexivity.
  - repeat split. intros _. change (withElements s (e :: rest) = s).
    rewrite <- Es. apply withElements_consistent. exact Hcons.
Qed.

Lemma insert_remove_roundtrip_witness :
  self' (removeElement 1 false
           (self' (insertElement 1 (OMatrix (Lens 5)) group2 world0))
           (world' (insertElement 1 (OMatrix (Lens 5)) group2 world0)))
  = group2.
Proof.
  refine (proj2 (proj2 (proj2 (proj2 (proj2
            (insert_remove_roundtrip group2 world0 1%Z ClsMatrix (Lens_matrix 5)
               _ eq_refl eq_refl eq_refl))))) _).
  - vm_compute. split; intros H; discriminate H.
  - intros H; discriminate H.
Defined.

(** The other restrictions of the round trip are needed too.  A nested group
    given as the element is iterated, its two elements are inserted and one
    removal takes out only the first. *)
Example insert_remove_group_argument :
  let pair := Nested (withElements emptyGroup [Lens 5; Lens 7]) in
  let o1 := insertElement 0 (OMatrix pair) group2 world0 in
  let o2 := removeElement 0 false (self' o1) (world' o1) in
  elements (self' o1) = [Lens 5; Lens 7; Space 10; Space 20]
  /\ elements (self' o2) = [Lens 7; Space 10; Space 20].
Proof. cbv zeta. split; vm_compute; reflexivity. Qed.

(** On the empty sequence the element list comes back but the aggregate
    keeps the matrix of the element that was removed. *)
Example insert_remove_on_empty :
  let o1 := insertElement 0 (OMatrix (Space 10)) emptyGroup world0 in
  let o2 := removeElement 0 false (self' o1) (world' o1) in
  res o2 = Val tt /\ elements (self' o2) = [] /\ self' o2 <> emptyGroup.
Proof.
  cbv zeta. split; [vm_compute; reflexivity|]. split; [vm_compute; reflexivity|].
  intros H; vm_compute in H; discriminate H.
Qed.

(** ** Bounds of insertElement, removeElement and replaceSingle *)

(** C9: with [n] elements and an argument from which the group of new
    elements [g] is built, [insertElement] raises [IndexError] exactly when
    the index, after [n] is added to a negative one, is negative or greater
    than [n]; at [n] it appends the new elements one by one at the end of
    the list as it is, so that when it returns the old elements are followed
    by the new ones as [append] stored them; [removeElement(n)] and
    [replaceSingle(n, ...)] raise [IndexError]. *)
Theorem insertElement_bounds (s : MatrixGroup) (w : World) (index : Z) (x : PyObj)
        (g : MatrixGroup) (Hg : res (asGroup x s w) = Val g) :
  let n := len__ s in
  let j := normalized s index in
  let w1 := world' (asGroup x s w) in
  (res (insertElement index x s w) = Raise IndexError <-> (j < 0 \/ j > n)%Z)
  /\ (j = n -> insertElement index x s w = appendAll g s w1)
  /\ (j = n -> res (insertElement index x s w) = Val tt ->
        exists stored,
          Forall2 storedFrom (elements g) stored
          /\ elements (self' (insertElement index x s w)) = elements s ++ stored)
  /\ (forall pad, removeElement n pad s w = mkOut (Raise IndexError) s w)
  /\ replaceSingle n x s w = mkOut (Raise IndexError) s w1.
Proof.
  cbv zeta.
  assert (Hcases :
    insertElement index x s w =
    if ((normalized s index >? len__ s) || (normalized s index <? 0))%Z
    then mkOut (Raise IndexError) s (world' (asGroup x s w))
    else if (normalized s index =? len__ s)%Z
         then appendAll g s (world' (asGroup x s w))
         else insertElement index x s w).
  { unfold insertElement at 1 2. rewrite bind_run, Hg, asGroup_keeps, bind_getSelf.
    cbv zeta. fold (normalized s index).
    destruct (_ || _); [reflexivity|]. destruct (_ =? _)%Z; reflexivity. }
  assert (Hn : normalized s (len__ s) = len__ s).
  { unfold normalized, len__.
    destruct (Z.of_nat _ <? 0)%Z eqn:E; [apply Z.ltb_lt in E; lia | reflexivity]. }
  split; [split|split; [|split; [|split]]].
  - intros H. pose proof (insertElement_IndexError index x s w H) as Hs.
    rewrite Hcases in H.
    destruct ((normalized s index >? len__ s) || (normalized s index <? 0))%Z eqn:E.
    + apply orb_true_iff in E. destruct E as [E|E].
      * rewrite Z.gtb_ltb in E. apply Z.ltb_lt in E. right. lia.
      * apply Z.ltb_lt in E. left. exact E.
    + exfalso. destruct (normalized s index =? len__ s)%Z.
      * revert H. apply noIndexError_appendAll.
      * revert H. unfold insertElement.
        rewrite bind_run, Hg, asGroup_keeps, bind_getSelf. cbv zeta.
        fold (normalized s index). rewrite E.
        destruct (normalized s index =? len__ s)%Z.
        -- apply noIndexError_appendAll.
        -- apply insertElement_replay_noIndexError.
  - intros H. rewrite Hcases.
    destruct ((normalized s index >? len__ s) || (normalized s index <? 0))%Z eqn:E;
      [reflexivity|].
    apply orb_false_iff in E. destruct E as [E1 E2].
    rewrite Z.gtb_ltb in E1. apply Z.ltb_ge in E1. apply Z.ltb_ge in E2. lia.
  - intros H. rewrite Hcases, H, Z.eqb_refl.
    destruct ((len__ s >? len__ s) || (len__ s <? 0))%Z eqn:E; [|reflexivity].
    apply orb_true_iff in E. destruct E as [E|E].
    + rewrite Z.gtb_ltb in E. apply Z.ltb_lt in E. lia.
    + apply Z.ltb_lt in E. unfold len__ in E. lia.
  - intros H Hv. rewrite Hcases in Hv |- *. rewrite H, Z.eqb_refl in Hv |- *.
    destruct ((len__ s >? len__ s) || (len__ s <? 0))%Z eqn:E; [discriminate Hv|].
    destruct (appendEach_val (elements g) s _ Hv) as (stored & HF & Hel & _).
    exists stored. split; assumption.
  - intros pad. apply removeElement_invalid. rewrite Hn. lia.
  - unfold replaceSingle. rewrite bind_run, Hg, asGroup_keeps, bind_getSelf.
    cbv zeta. fold (normalized s (len__ s)). rewrite Hn.
    rewrite Z.geb_leb, Z.leb_refl. reflexivity.
Qed.

Lemma insertElement_bounds_witness :
  insertElement 2 (OMatrix (Lens 5)) group2 world0
  = appendAll (withElements emptyGroup [Lens 5]) group2 world0.
Proof.
  exact (proj1 (proj2 (insertElement_bounds group2 world0 2%Z (OMatrix (Lens 5))
                         (withElements emptyGroup [Lens 5]) eq_refl)) eq_refl).
Defined.

(** ** Iteration *)

Lemma next_some (s : MatrixGroup) (w : World) (e : Element) :
  nth_error (elements s) (iteration s) = Some e ->
  next__ s w = mkOut (Val e) (setIteration s (iteration s + 1)) w.
Proof.
  intros H. unfold next__. rewrite bind_getSelf, H. reflexivity.
Qed.

Lemma next_stop (s : MatrixGroup) (w : World) :
  (List.length (elements s) <= iteration s)%nat ->
  next__ s w = mkOut (Raise StopIteration) s w.
Proof.
  intros H. unfold next__. rewrite bind_getSelf.
  rewrite (proj2 (nth_error_None _ _) H). reflexivity.
Qed.

Lemma skipn_nth_error {T} (xs : list T) :
  forall i x, nth_error xs i = Some x -> skipn i xs = x :: skipn (S i) xs.
Proof.
  induction xs as [|a rest IH]; intros [|i] x H; try discriminate.
  - inversion H; reflexivity.
  - simpl in H. exact (IH i x H).
Qed.

(** After any number of calls that stays inside the list, the calls have
    yielded the elements from the shared position on, in order. *)
Lemma nextTimes_spec (k : nat) :
  forall s w,
    (iteration s + k <= List.length (elements s))%nat ->
    nextTimes k s w
    = mkOut (Val (firstn k (skipn (iteration s) (elements s))))
            (setIteration s (iteration s + k)) w.
Proof.
  induction k as [|k IH]; intros s w H.
  - cbn [nextTimes firstn]. rewrite Nat.add_0_r. destruct s; reflexivity.
  - destruct (nth_error (elements s) (iteration s)) as [e|] eqn:E;
      [|apply nth_error_None in E; lia].
    cbn [nextTimes]. rewrite bind_run, (next_some _ _ _ E).
    cbn [res self' world']. rewrite bind_run, IH by (simpl; lia).
    cbn [res self' world' ret setIteration base elements iteration lastTrace].
    rewrite (skipn_nth_error _ _ _ E). cbn [firstn].
    rewrite Nat.add_1_r, Nat.add_succ_r. reflexivity.
Qed.

(** C10: a sequence is its own iterator.  [__iter__] sets the one position
    counter to zero, whatever it was, changes nothing else, and the iterator
    it returns is the receiver.  So with at least one element: a first
    iteration that has yielded the first element stands at position 1; a
    second iteration started then puts the position back to 0 and yields the
    first element again; once the second has run through all [n] elements the
    first one gets [StopIteration] at its next step, having visited only the
    first element; and when both are started before either is advanced, the
    first step of the second iteration reads position 1, not 0. *)
Theorem iteration_shared (s : MatrixGroup) (w : World) (e0 : Element)
        (rest : list Element) (He : elements s = e0 :: rest) :
  let first := iter__ s w in
  let step1 := next__ (self' first) (world' first) in
  let second := iter__ (self' step1) (world' step1) in
  let inner := nextTimes (List.length (elements s)) (self' second) (world' second) in
  let innerEnd := next__ (self' inner) (world' inner) in
  let step2 := next__ (self' innerEnd) (world' innerEnd) in
  let both := iter__ (self' first) (world' first) in
  let a := next__ (self' both) (world' both) in
  let b := next__ (self' a) (world' a) in
  (forall g w', iter__ g w' = mkOut (Val (setIteration g 0)) (setIteration g 0) w')
  /\ res step1 = Val e0 /\ iteration (self' step1) = 1%nat
  /\ iteration (self' second) = 0%nat
  /\ res inner = Val (elements s)
  /\ res innerEnd = Raise StopIteration
  /\ res step2 = Raise StopIteration
  /\ res a = Val e0
  /\ res b = match rest with
             | [] => Raise StopIteration
             | e1 :: _ => Val e1
             end.
Proof.
  cbv zeta.
  assert (Hiter : forall g w',
            iter__ g w' = mkOut (Val (setIteration g 0)) (setIteration g 0) w')
    by reflexivity.
  rewrite !Hiter. cbn [self' world'].
  assert (H1 : next__ (setIteration s 0) w = mkOut (Val e0) (setIteration s 1) w).
  { rewrite (next_some _ _ e0); [reflexivity|]. simpl. rewrite He. reflexivity. }
  rewrite H1. cbn [res self' world'].
  rewrite nextTimes_spec by (simpl; lia).
  cbn [res self' world' setIteration base elements iteration lastTrace skipn].
  rewrite firstn_all, Nat.add_0_l.
  rewrite next_stop by (simpl; lia). cbn [res self' world'].
  rewrite next_stop by (simpl; lia). cbn [res self' world'].
  change (setIteration (setIteration s 0) 0) with (setIteration s 0).
  rewrite H1. cbn [res self' world'].
  repeat split; try assumption; try reflexivity.
  unfold next__. rewrite bind_getSelf. simpl. rewrite He.
  destruct rest; reflexivity.
Qed.

Lemma iteration_shared_witness :
  res (next__ (self' (next__ (self' (iter__ (self' (iter__ group1 world0)) world0)) world0))
              world0)
  = Raise StopIteration.
Proof.
  exact (proj2 (proj2 (proj2 (proj2 (proj2 (proj2 (proj2 (proj2
           (iteration_shared group1 world0 (Space 10) [] eq_refl))))))))).
Defined.

(** ** trace: it returns, and what it caches *)

Lemma lastOf_some {T} (l : list T) : l <> [] -> exists x, lastOf l = Some x.
Proof.
  intros H. destruct (lastOf l) as [x|] eqn:E; [exists x; reflexivity|].
  apply lastOf_nil_iff in E. contradiction.
Qed.

Lemma trace_loop_returns (els : list Element) :
  Forall traceReturns els -> forallb wfElement els = true ->
  forall ray acc w, exists l els' w',
    trace_loop elem_trace els ray acc w = (Val (acc ++ l), els', w')
    /\ forallb wfElement els' = true
    /\ List.length els' = List.length els.
Proof.
  induction 1 as [|e rest He _ IH]; intros Hwf ray acc w.
  - exists [], [], w. simpl. rewrite app_nil_r. repeat split.
  - simpl in Hwf. apply andb_true_iff in Hwf. destruct Hwf as [Hwe Hwr].
    destruct (He Hwe ray w) as (l & e' & w1 & Ht & Hne & Hwe').
    destruct (lastOf_some l Hne) as (lastRay & Hl).
    destruct (IH Hwr lastRay (acc ++ l) w1) as (l2 & rest' & w2 & Hr & Hwr' & Hlen).
    exists (l ++ l2), (e' :: rest'), w2.
    cbn [trace_loop]. rewrite Ht, Hl, Hr, app_assoc.
    repeat split.
    + simpl. rewrite Hwe', Hwr'. reflexivity.
    + simpl. rewrite Hlen. reflexivity.
Qed.

Lemma elem_trace_returns (e : Element) : traceReturns e.
Proof.
  induction e as [cls m | b els it c IH] using Element_nested_ind; intros Hwf ray w.
  - simpl. destruct ray as [r|bm]; simpl; eexists _, _, _;
      (split; [reflexivity | split; [discriminate | reflexivity]]).
  - simpl in Hwf. apply andb_true_iff in Hwf. destruct Hwf as [Hc Hels].
    destruct (trace_loop_returns els IH Hels ray [ray] w)
      as (l & els' & w' & Hr & Hwf' & _).
    cbn [elem_trace]. unfold trace_body. cbn [lastTrace elements base iteration].
    destruct c as [[lastRay lastRayTrace]|].
    + destruct (traced_ne ray lastRay).
      * rewrite Hr. eexists _, _, _. split; [reflexivity|].
        split; [discriminate|]. simpl. exact Hwf'.
      * exists lastRayTrace, (Nested (mkGroup b els it (Some (lastRay, lastRayTrace)))), w.
        split; [reflexivity|]. split.
        -- destruct lastRayTrace; [discriminate Hc | discriminate].
        -- simpl. rewrite Hels. destruct lastRayTrace; [discriminate Hc | reflexivity].
    + rewrite Hr. eexists _, _, _. split; [reflexivity|].
      split; [discriminate|]. simpl. exact Hwf'.
Qed.

(** The recomputation branch of [trace] (lines 257-263) on a group whose
    elements are well formed: it returns a list that starts with the input
    ray and caches it under that ray. *)
Lemma trace_body_miss (g : MatrixGroup) (ray : Traced) (w : World) :
  forallb wfElement (elements g) = true ->
  match lastTrace g with
  | None => True
  | Some (lastRay, _) => traced_ne ray lastRay = true
  end ->
  exists l els' w',
    trace_loop elem_trace (elements g) ray [ray] w = (Val (ray :: l), els', w')
    /\ trace_body elem_trace g ray w
       = (Val (ray :: l),
          mkGroup (base g) els' (iteration g) (Some (ray, ray :: l)), w')
    /\ forallb wfElement els' = true
    /\ List.length els' = List.length (elements g).
Proof.
  intros Hwf Hmiss.
  assert (HF : Forall traceReturns (elements g))
    by (apply Forall_forall; intros e _; apply elem_trace_returns).
  destruct (trace_loop_returns _ HF Hwf ray [ray] w) as (l & els' & w' & Hr & Hwf' & Hlen).
  exists l, els', w'. cbn [app] in Hr. split; [exact Hr|]. split; [|split; assumption].
  unfold trace_body.
  destruct (lastTrace g) as [[lastRay lastRayTrace]|]; [rewrite Hmiss|];
    rewrite Hr; reflexivity.
Qed.

Lemma keepsCache_ret {T} (v : T) : keepsCache (ret v).
Proof. intros s w; reflexivity. Qed.

Lemma keepsCache_raise {T} (e : Exn) : keepsCache (@raise T e).
Proof. intros s w; reflexivity. Qed.

Lemma keepsCache_warn (msg : string) : keepsCache (warn msg).
Proof. intros s w; reflexivity. Qed.

Lemma keepsCache_bind {T U} (m : M T) (k : T -> M U) :
  keepsCache m -> (forall v, keepsCache (k v)) -> keepsCache (bind m k).
Proof.
  intros Hm Hk s w. rewrite bind_run. specialize (Hm s w).
  destruct (res (m s w)) as [v|e].
  - rewrite Hk. exact Hm.
  - exact Hm.
Qed.

Lemma keepsCache_forEach {T} (xs : list T) (body : T -> M unit) :
  (forall x, keepsCache (body x)) -> keepsCache (forEach xs body).
Proof.
  intros H. induction xs as [|x rest IH]; simpl.
  - apply keepsCache_ret.
  - apply keepsCache_bind; [apply H | intros _; exact IH].
Qed.

Lemma keepsCache_append (x : PyObj) : keepsCache (append x).
Proof.
  intros s w. destruct x as [m| | |]; try reflexivity.
  rewrite append_matrix. destruct (indexCheck s m) as [[stored b]|]; reflexivity.
Qed.

Lemma keepsCache_appendAll (g : MatrixGroup) : keepsCache (appendAll g).
Proof. apply keepsCache_forEach. intros x. apply keepsCache_append. Qed.

Lemma keepsCache_construct (els : PyObj) : keepsCache (construct els).
Proof. intros s w. rewrite construct_keeps. reflexivity. Qed.

Lemma keepsCache_asGroup (x : PyObj) : keepsCache (asGroup x).
Proof. intros s w. rewrite asGroup_keeps. reflexivity. Qed.

Lemma keepsCache_getItem {T} (xs : list T) (i : Z) : keepsCache (getItem xs i).
Proof.
  intros s w. unfold getItem. destruct (_ <? 0)%Z; [reflexivity|].
  destruct (nth_error _ _); reflexivity.
Qed.

Lemma keepsCache_clearElements : keepsCache clearElements.
Proof. intros s w; reflexivity. Qed.

Lemma keepsCache_getSelf_bind {U} (k : MatrixGroup -> M U) :
  (forall s, keepsCache (k s)) -> keepsCache (bind getSelf k).
Proof. intros H s w. rewrite bind_getSelf. apply H. Qed.

Ltac keeps_cache :=
  lazymatch goal with
  | |- keepsCache (ret _) => apply keepsCache_ret
  | |- keepsCache (raise _) => apply keepsCache_raise
  | |- keepsCache (warn _) => apply keepsCache_warn
  | |- keepsCache (append _) => apply keepsCache_append
  | |- keepsCache (appendAll _) => apply keepsCache_appendAll
  | |- keepsCache (construct _) => apply keepsCache_construct
  | |- keepsCache (asGroup _) => apply keepsCache_asGroup
  | |- keepsCache (getItem _ _) => apply keepsCache_getItem
  | |- keepsCache clearElements => apply keepsCache_clearElements
  | |- keepsCache (bind getSelf _) =>
      apply keepsCache_getSelf_bind; intros ?; keeps_cache
  | |- keepsCache (bind _ _) =>
      apply keepsCache_bind; [keeps_cache | intros ?; keeps_cache]
  | |- keepsCache (forEach _ _) =>
      apply keepsCache_forEach; intros ?; keeps_cache
  | |- keepsCache (if ?b then _ else _) => destruct b; keeps_cache
  | |- keepsCache (let (_, _) := ?p in _) => destruct p; keeps_cache
  | |- keepsCache (let _ := _ in _) => cbv zeta; keeps_cache
  | |- _ => idtac
  end.

Lemma keepsCache_removeElement (index : Z) (pad : bool) :
  keepsCache (removeElement index pad).
Proof. unfold removeElement. keeps_cache. Qed.

Lemma keepsCache_insertElement (index : Z) (x : PyObj) :
  keepsCache (insertElement index x).
Proof. unfold insertElement. keeps_cache. Qed.

Lemma keepsCache_replaceSingle (index : Z) (x : PyObj) :
  keepsCache (replaceSingle index x).
Proof. unfold replaceSingle. keeps_cache. Qed.

Lemma keepsCache_replaceChunk (startIndex stopIndex : Z) (x : PyObj) :
  keepsCache (replaceChunk startIndex stopIndex x).
Proof. unfold replaceChunk, getSlice. keeps_cache. Qed.

Lemma keepsCache_flipOrientation : keepsCache flipOrientation.
Proof.
  unfold flipOrientation, flip_body. keeps_cache.
  intros g w. destruct (_ w) as [[e|e] w']; reflexivity.
Qed.

(** No edit touches the cache (the source never invalidates it). *)
Lemma keepsCache_runEdit (e : Edit) : keepsCache (runEdit e).
Proof.
  destruct e; simpl.
  - apply keepsCache_append.
  - apply keepsCache_removeElement.
  - apply keepsCache_insertElement.
  - apply keepsCache_replaceSingle.
  - apply keepsCache_replaceChunk.
  - apply keepsCache_flipOrientation.
Qed.

Lemma afterEdits_cache (es : list Edit) :
  forall s w, lastTrace (fst (afterEdits es s w)) = lastTrace s.
Proof.
  induction es as [|e rest IH]; intros s w; [reflexivity|].
  simpl. rewrite IH. apply keepsCache_runEdit.
Qed.

Lemma traced_ne_refl (a : Traced) : traced_ne a a = false.
Proof. destruct a; simpl; rewrite Nat.eqb_refl; reflexivity. Qed.

Lemma traced_ne_other (other ray key : Traced) :
  traced_ne other ray = true -> traced_ne ray key = false ->
  traced_ne other key = true.
Proof.
  destruct other, ray, key; simpl; try discriminate; try reflexivity;
    intros H1 H2; apply negb_false_iff, Nat.eqb_eq in H2; rewrite <- H2; exact H1.
Qed.

(** The comparison of line 256 tells objects apart, not values. *)
Lemma traced_ne_objects (a b : Traced) : traced_ne a b = true <-> ~ sameObject a b.
Proof.
  destruct a as [r1|b1], b as [r2|b2]; cbn [traced_ne sameObject];
    try (split; [intros _ H; exact H | reflexivity]).
  - rewrite negb_true_iff, Nat.eqb_neq. reflexivity.
  - rewrite negb_true_iff, Nat.eqb_neq. reflexivity.
Qed.

(** A call with the cached object returns the cached list and changes
    nothing. *)
Lemma trace_hit (g : MatrixGroup) (w : World) (ray key : Traced) (t : list Traced) :
  lastTrace g = Some (key, t) -> traced_ne ray key = false ->
  trace (OTraced ray) g w = mkOut (Val t) g w.
Proof.
  intros Hc Hk. unfold trace, trace_body. rewrite Hc, Hk. reflexivity.
Qed.

(** A call with any other object runs the loop over the current elements and
    caches its result under the new object. *)
Lemma trace_miss (g : MatrixGroup) (w : World) (ray : Traced) :
  forallb wfElement (elements g) = true ->
  match lastTrace g with
  | None => True
  | Some (lastRay, _) => traced_ne ray lastRay = true
  end ->
  exists l els' w',
    trace_loop elem_trace (elements g) ray [ray] w = (Val (ray :: l), els', w')
    /\ trace (OTraced ray) g w
       = mkOut (Val (ray :: l))
               (mkGroup (base g) els' (iteration g) (Some (ray, ray :: l))) w'.
Proof.
  intros Hwf Hmiss.
  destruct (trace_body_miss g ray w Hwf Hmiss) as (l & els' & w' & Hl & Hb & _).
  exists l, els', w'. split; [exact Hl|]. unfold trace. rewrite Hb. reflexivity.
Qed.

(** C8: the cache is keyed on the identity of the last traced ray alone.
    [trace(ray)] returns a list [t]; called again with the same object it
    returns [t] and changes nothing; after any run of structural edits,
    which may have changed the elements, it still returns that same [t];
    called with any other object, be it a ray with the same height and
    angle, it runs the loop over the current elements and caches the new
    list, which starts with the new object, under it. *)
Theorem trace_cache (s : MatrixGroup) (w : World) (ray : Traced)
        (Hwf : forallb wfElement (elements s) = true) :
  let o1 := trace (OTraced ray) s w in
  exists t,
    res o1 = Val t
    /\ trace (OTraced ray) (self' o1) (world' o1)
       = mkOut (Val t) (self' o1) (world' o1)
    /\ (forall es : list Edit,
          let s2 := fst (afterEdits es (self' o1) (world' o1)) in
          let w2 := snd (afterEdits es (self' o1) (world' o1)) in
          trace (OTraced ray) s2 w2 = mkOut (Val t) s2 w2)
    /\ (forall (es : list Edit) (other : Traced),
          let s2 := fst (afterEdits es (self' o1) (world' o1)) in
          let w2 := snd (afterEdits es (self' o1) (world' o1)) in
          ~ sameObject other ray ->
          forallb wfElement (elements s2) = true ->
          exists l els' w',
            trace_loop elem_trace (elements s2) other [other] w2
            = (Val (other :: l), els', w')
            /\ trace (OTraced other) s2 w2
               = mkOut (Val (other :: l))
                       (mkGroup (base s2) els' (iteration s2)
                                (Some (other, other :: l))) w')
    /\ (forall (es : list Edit) (r : Ray) (id : nat),
          let s2 := fst (afterEdits es (self' o1) (world' o1)) in
          let w2 := snd (afterEdits es (self' o1) (world' o1)) in
          ray = TRay r -> id <> rid r ->
          forallb wfElement (elements s2) = true ->
          exists l els' w',
            trace_loop elem_trace (elements s2) (copyOfRay r id) [copyOfRay r id] w2
            = (Val (copyOfRay r id :: l), els', w')
            /\ trace (OTraced (copyOfRay r id)) s2 w2
               = mkOut (Val (copyOfRay r id :: l))
                       (mkGroup (base s2) els' (iteration s2)
                                (Some (copyOfRay r id, copyOfRay r id :: l))) w').
Proof.
  cbv zeta.
  assert (Hfirst : exists t key,
            res (trace (OTraced ray) s w) = Val t
            /\ lastTrace (self' (trace (OTraced ray) s w)) = Some (key, t)
            /\ traced_ne ray key = false).
  { destruct (lastTrace s) as [[key t0]|] eqn:Ec.
    - destruct (traced_ne ray key) eqn:Ek.
      + destruct (trace_miss s w ray Hwf) as (l & els' & w' & _ & Ht);
          [rewrite Ec; exact Ek|].
        rewrite Ht. exists (ray :: l), ray. repeat split. apply traced_ne_refl.
      + rewrite (trace_hit s w ray key t0 Ec Ek). exists t0, key. repeat split; assumption.
    - destruct (trace_miss s w ray Hwf) as (l & els' & w' & _ & Ht);
        [rewrite Ec; exact I|].
      rewrite Ht. exists (ray :: l), ray. repeat split. apply traced_ne_refl. }
  destruct Hfirst as (t & key & Hres & Hcache & Hkey).
  assert (Hmiss : forall (es : list Edit) (other : Traced),
             ~ sameObject other ray ->
             forallb wfElement
                     (elements (fst (afterEdits es (self' (trace (OTraced ray) s w))
                                                (world' (trace (OTraced ray) s w)))))
             = true ->
             exists l els' w',
               trace_loop elem_trace
                 (elements (fst (afterEdits es (self' (trace (OTraced ray) s w))
                                            (world' (trace (OTraced ray) s w)))))
                 other [other]
                 (snd (afterEdits es (self' (trace (OTraced ray) s w))
                                  (world' (trace (OTraced ray) s w))))
               = (Val (other :: l), els', w')
               /\ trace (OTraced other)
                     (fst (afterEdits es (self' (trace (OTraced ray) s w))
                                      (world' (trace (OTraced ray) s w))))
                     (snd (afterEdits es (self' (trace (OTraced ray) s w))
                                      (world' (trace (OTraced ray) s w))))
                  = mkOut (Val (other :: l))
                      (mkGroup
                         (base (fst (afterEdits es (self' (trace (OTraced ray) s w))
                                                (world' (trace (OTraced ray) s w)))))
                         els'
                         (iteration (fst (afterEdits es (self' (trace (OTraced ray) s w))
                                                     (world' (trace (OTraced ray) s w)))))
                         (Some (other, other :: l))) w').
  { intros es other Hother Hwf2. apply trace_miss; [exact Hwf2|].
    rewrite afterEdits_cache, Hcache.
    exact (traced_ne_other _ _ _ (proj2 (traced_ne_objects other ray) Hother) Hkey). }
  exists t. split; [exact Hres|]. split; [|split; [|split]].
  - apply (trace_hit _ _ ray key t Hcache Hkey).
  - intros es. apply (trace_hit _ _ ray key t); [|exact Hkey].
    rewrite afterEdits_cache. exact Hcache.
  - exact Hmiss.
  - intros es r id Hr Hid Hwf2. apply (Hmiss es (copyOfRay r id)); [|exact Hwf2].
    rewrite Hr. cbn [sameObject copyOfRay rid]. exact Hid.
Qed.

Lemma trace_cache_witness :
  let o1 := trace (OTraced ray0) group2 world0 in
  exists t,
    res o1 = Val t
    /\ trace (OTraced ray0) (self' o1) (world' o1) = mkOut (Val t) (self' o1) (world' o1)
    /\ (let s2 := fst (afterEdits [EAppend (OMatrix (Lens 5))] (self' o1) (world' o1)) in
        let w2 := snd (afterEdits [EAppend (OMatrix (Lens 5))] (self' o1) (world' o1)) in
        List.length (elements s2) = 3%nat
        /\ trace (OTraced ray0) s2 w2 = mkOut (Val t) s2 w2
        /\ exists l,
             res (trace (OTraced (copyOfRay (mkRay 7 1 0 0 false) 8)) s2 w2)
             = Val (copyOfRay (mkRay 7 1 0 0 false) 8 :: l)
             /\ lastTrace (self' (trace (OTraced (copyOfRay (mkRay 7 1 0 0 false) 8))
                                        s2 w2))
                = Some (copyOfRay (mkRay 7 1 0 0 false) 8,
                        copyOfRay (mkRay 7 1 0 0 false) 8 :: l)).
Proof.
  cbv zeta.
  destruct (trace_cache group2 world0 ray0 eq_refl) as (t & H1 & H2 & H3 & _ & H5).
  exists t. split; [exact H1|]. split; [exact H2|].
  split; [reflexivity|].
  split; [exact (H3 [EAppend (OMatrix (Lens 5))])|].
  assert (Hid : 8%nat <> rid (mkRay 7 1 0 0 false)) by (intros H; discriminate H).
  destruct (H5 [EAppend (OMatrix (Lens 5))] (mkRay 7 1 0 0 false) 8%nat
               eq_refl Hid eq_refl) as (l & els' & w' & _ & Ht).
  exists l. rewrite Ht. split; reflexivity.
Defined.

(** The stale list is observable: the ray traced through one spacer, then
    the lens appended, then the same ray traced again gives the two entries
    of the first trace, while another ray object with the same height and
    angle gives three. *)
Example trace_stale_after_append :
  let o1 := trace (OTraced ray0) group1 world0 in
  let o2 := append (OMatrix (Lens 5)) (self' o1) (world' o1) in
  let o3 := trace (OTraced ray0) (self' o2) (world' o2) in
  let o4 := trace (OTraced (TRay (mkRay 8 1 0 0 false))) (self' o2) (world' o2) in
  res o2 = Val tt
  /\ res o3 = res o1
  /\ option_map (@List.length Traced) (match res o3 with Val t => Some t | _ => None end)
     = Some 2%nat
  /\ option_map (@List.length Traced) (match res o4 with Val t => Some t | _ => None end)
     = Some 3%nat.
Proof. cbv zeta. repeat split; vm_compute; reflexivity. Qed.

(** ** trace through a flat sequence *)

Lemma propagate_length (els : list Element) :
  forall t id, List.length (propagate els t id) = List.length els.
Proof. induction els as [|e rest IH]; intros t id; simpl; [|rewrite IH]; reflexivity. Qed.

Lemma trace_loop_flat (els : list Element) :
  forallb isLeaf els = true ->
  forall t acc w,
    trace_loop elem_trace els t acc w
    = (Val (acc ++ propagate els t (nextId w)), els,
       mkWorld (nextId w + List.length els) (warnings w)).
Proof.
  induction els as [|e rest IH]; intros Hflat t acc w.
  - simpl. rewrite app_nil_r, Nat.add_0_r. destruct w; reflexivity.
  - simpl in Hflat. apply andb_true_iff in Hflat. destruct Hflat as [He Hrest].
    destruct e as [cls m|g]; [|discriminate He].
    cbn [trace_loop elem_trace].
    assert (Hleaf : leaf_trace m t w
                    = ([step m t (nextId w)], mkWorld (S (nextId w)) (warnings w)))
      by (destruct t; reflexivity).
    rewrite Hleaf. cbn [lastOf rev app].
    rewrite (IH Hrest). cbn [nextId warnings propagate matrixOf List.length].
    rewrite <- app_assoc, Nat.add_succ_r. reflexivity.
Qed.

(** Each entry of the list is the state before an element, the next entry
    the state after it. *)
Lemma propagate_step (els : list Element) :
  forall t0 id j e x,
    nth_error els j = Some e ->
    nth_error (t0 :: propagate els t0 id) j = Some x ->
    nth_error (t0 :: propagate els t0 id) (S j) = Some (step (matrixOf e) x (id + j)).
Proof.
  induction els as [|e0 rest IH]; intros t0 id j e x He Hx.
  - destruct j; discriminate He.
  - destruct j as [|j].
    + simpl in He, Hx. inversion He; inversion Hx; subst.
      simpl. rewrite Nat.add_0_r. reflexivity.
    + simpl in He.
      change (nth_error (step (matrixOf e0) t0 id
                         :: propagate rest (step (matrixOf e0) t0 id) (S id)) j
              = Some x) in Hx.
      change (nth_error (step (matrixOf e0) t0 id
                         :: propagate rest (step (matrixOf e0) t0 id) (S id)) (S j)
              = Some (step (matrixOf e) x (id + S j))).
      rewrite (IH _ _ j e x He Hx). rewrite Nat.add_succ_r. reflexivity.
Qed.

Lemma propagate_rays (els : list Element) :
  forall r id j x,
    nth_error (TRay r :: propagate els (TRay r) id) j = Some x ->
    exists rj, x = TRay rj.
Proof.
  induction els as [|e0 rest IH]; intros r id j x Hx.
  - destruct j as [|[|j]]; simpl in Hx; try discriminate.
    inversion Hx. eexists; reflexivity.
  - destruct j as [|j].
    + inversion Hx. eexists; reflexivity.
    + change (nth_error (TRay (mul_ray (matrixOf e0) r id)
                         :: propagate rest (TRay (mul_ray (matrixOf e0) r id)) (S id)) j
              = Some x) in Hx.
      exact (IH _ _ j x Hx).
Qed.

(** A flat sequence, traced with a ray that is not the cached one. *)
Lemma trace_flat_miss (s : MatrixGroup) (w : World) (ray : Traced) :
  forallb isLeaf (elements s) = true ->
  match lastTrace s with
  | None => True
  | Some (lastRay, _) => traced_ne ray lastRay = true
  end ->
  res (trace (OTraced ray) s w)
  = Val (ray :: propagate (elements s) ray (nextId w)).
Proof.
  intros Hflat Hmiss. unfold trace, trace_body.
  rewrite (trace_loop_flat _ Hflat). cbn [app].
  destruct (lastTrace s) as [[lastRay lastRayTrace]|]; [rewrite Hmiss|]; reflexivity.
Qed.

Section Blocking.
Variable els : list Element.
Variable r : Ray.
Variable id : nat.

(** The trace list of the ray [r] through the flat sequence [els]. *)
Let T : list Traced := TRay r :: propagate els (TRay r) id.

Lemma entry_before (j : nat) (x : Traced) :
  nth_error T (S j) = Some x ->
  exists e rin, nth_error els j = Some e /\ nth_error T j = Some (TRay rin).
Proof.
  intros Hx.
  assert (Hlen : (S j < List.length T)%nat)
    by (apply nth_error_Some; rewrite Hx; discriminate).
  unfold T in Hlen. cbn [List.length] in Hlen. rewrite propagate_length in Hlen.
  destruct (nth_error els j) as [e|] eqn:He;
    [|apply nth_error_None in He; lia].
  destruct (nth_error T j) as [y0|] eqn:Hy.
  - destruct (propagate_rays els r id j y0 Hy) as (rin & ->).
    exists e, rin. split; reflexivity.
  - apply nth_error_None in Hy. unfold T in Hy. cbn [List.length] in Hy.
    rewrite propagate_length in Hy. lia.
Qed.

Lemma entry_after (j : nat) (e : Element) (rin : Ray) :
  nth_error els j = Some e ->
  nth_error T j = Some (TRay rin) ->
  nth_error T (S j) = Some (TRay (mul_ray (matrixOf e) rin (id + j))).
Proof.
  intros He Hin. exact (propagate_step els (TRay r) id j e (TRay rin) He Hin).
Qed.

Lemma unblocked_before (k : nat) :
  isBlocked r = false ->
  (forall i ei ri, (i < k)%nat -> nth_error els i = Some ei ->
     nth_error T (S i) = Some (TRay ri) ->
     exceeds (y ri) (apertureDiameter (matrixOf ei)) = false) ->
  forall j rj, (j <= k)%nat -> nth_error T j = Some (TRay rj) -> isBlocked rj = false.
Proof.
  intros Hr Hno. induction j as [|j IH]; intros rj Hj Hx.
  - inversion Hx. subst. exact Hr.
  - destruct (entry_before j _ Hx) as (e & rin & He & Hin).
    pose proof (entry_after j e rin He Hin) as Hout.
    pose proof (Hno j e rj ltac:(lia) He Hx) as Hex.
    rewrite Hx in Hout. injection Hout as Heq. subst rj.
    cbn [isBlocked mul_ray y] in Hex |- *.
    rewrite Hex, (IH rin ltac:(lia) Hin). reflexivity.
Qed.

Lemma blocked_after (k : nat) (ek : Element) (rk : Ray) :
  nth_error els k = Some ek ->
  nth_error T (S k) = Some (TRay rk) ->
  exceeds (y rk) (apertureDiameter (matrixOf ek)) = true ->
  forall j rj, (k < j)%nat -> nth_error T j = Some (TRay rj) -> isBlocked rj = true.
Proof.
  intros Hek Hrk Hex. induction j as [|j IH]; intros rj Hj Hx; [lia|].
  destruct (entry_before j _ Hx) as (e & rin & He & Hin).
  pose proof (entry_after j e rin He Hin) as Hout.
  destruct (Nat.eq_dec j k) as [->|Hne].
  - rewrite Hrk in Hx. injection Hx as Hx. subst rj.
    rewrite Hek in He. injection He as He. subst e.
    rewrite Hrk in Hout. injection Hout as Heq.
    rewrite Heq in Hex |- *. cbn [isBlocked mul_ray y] in Hex |- *.
    rewrite Hex. apply orb_true_r.
  - rewrite Hx in Hout. injection Hout as Heq. subst rj.
    cbn [isBlocked mul_ray]. rewrite (IH rin ltac:(lia) Hin). reflexivity.
Qed.
End Blocking.

(** C2 as stated fails: a sequence whose one element is the group
    [Space(10); Lens(10)] has one element, and its trace has four entries:
    the input ray, then the three entries of the trace of the inner group. *)
Lemma trace_nested_group_longer :
  MatrixGroup_init (OList [OMatrix (Space 10); OMatrix (Lens 10)]) world0
  = (Val innerGroup, world0)
  /\ MatrixGroup_init (OList [OMatrix (Nested innerGroup)]) world0
     = (Val outerGroup, world0)
  /\ exists t,
       res (trace (OTraced ray0) outerGroup world0) = Val t
       /\ List.length t = 4%nat
       /\ List.length t <> (1 + List.length (elements outerGroup))%nat.
Proof.
  split; [vm_compute; reflexivity|]. split; [vm_compute; reflexivity|].
  eexists. split; [vm_compute; reflexivity|].
  split; [reflexivity | discriminate].
Qed.

(** C2 (amended): for a sequence whose elements are all single elements (no
    nested group) and a ray or beam that is not the cached one, [trace]
    returns a list of exactly [1 + n] entries that starts with the input;
    entry [j + 1] is entry [j] taken through element [j]: the height and
    angle of the 2x2 product, blocked when entry [j] is blocked or the new
    height exceeds the aperture radius of the element, so every later
    element still propagates a blocked ray.  When the input ray is not
    blocked and element [k] is the first after which the height exceeds the
    aperture radius, the entries up to [k], the states in front of that
    element, are unblocked and all the entries after it are blocked. *)
Theorem trace_flat (s : MatrixGroup) (w : World) (ray : Traced)
        (Hflat : forallb isLeaf (elements s) = true)
        (Hmiss : match lastTrace s with
                 | None => True
                 | Some (lastRay, _) => traced_ne ray lastRay = true
                 end) :
  exists t,
    res (trace (OTraced ray) s w) = Val t
    /\ List.length t = (1 + List.length (elements s))%nat
    /\ nth_error t 0 = Some ray
    /\ (forall j e rin,
          nth_error (elements s) j = Some e ->
          nth_error t j = Some (TRay rin) ->
          exists rout,
            nth_error t (S j) = Some (TRay rout)
            /\ y rout = A (matrixOf e) * y rin + B (matrixOf e) * theta rin
            /\ theta rout = C (matrixOf e) * y rin + D (matrixOf e) * theta rin
            /\ isBlocked rout
               = isBlocked rin || exceeds (y rout) (apertureDiameter (matrixOf e)))
    /\ (forall r k ek rk,
          ray = TRay r -> isBlocked r = false ->
          nth_error (elements s) k = Some ek ->
          nth_error t (S k) = Some (TRay rk) ->
          exceeds (y rk) (apertureDiameter (matrixOf ek)) = true ->
          (forall i ei ri, (i < k)%nat ->
             nth_error (elements s) i = Some ei ->
             nth_error t (S i) = Some (TRay ri) ->
             exceeds (y ri) (apertureDiameter (matrixOf ei)) = false) ->
          (forall j rj, (j <= k)%nat -> nth_error t j = Some (TRay rj) ->
             isBlocked rj = false)
          /\ (forall j rj, (k < j)%nat -> nth_error t j = Some (TRay rj) ->
                isBlocked rj = true)).
Proof.
  exists (ray :: propagate (elements s) ray (nextId w)).
  split; [apply trace_flat_miss; assumption|].
  split; [cbn [List.length]; rewrite propagate_length; reflexivity|].
  split; [reflexivity|]. split.
  - intros j e rin He Hin.
    exists (mul_ray (matrixOf e) rin (nextId w + j)).
    split; [exact (propagate_step _ ray _ j e (TRay rin) He Hin)|].
    repeat split.
  - intros r k ek rk -> Hr Hek Hrk Hex Hfirst. split.
    + exact (unblocked_before _ r _ k Hr Hfirst).
    + exact (blocked_after _ r _ k ek rk Hek Hrk Hex).
Qed.

Lemma trace_flat_witness :
  exists t,
    res (trace (OTraced highRay) apertureGroup world0) = Val t
    /\ List.length t = 4%nat.
Proof.
  destruct (trace_flat apertureGroup world0 highRay eq_refl I) as (t & Hres & Hlen & _).
  exists t. split; [exact Hres | exact Hlen].
Defined.

(** On that sequence the entries read unblocked, unblocked, blocked,
    blocked. *)
Example trace_aperture_blocks :
  match res (trace (OTraced highRay) apertureGroup world0) with
  | Val t =>
      map (fun x => match x with TRay r => Some (isBlocked r) | TBeam _ => None end) t
  | Raise _ => []
  end = [Some false; Some false; Some true; Some true].
Proof. vm_compute. reflexivity. Qed.

(** * Further properties *)

(** ** What every edit keeps *)

Section Invariant.
Variable I : MatrixGroup -> Prop.
Hypothesis I_clear : forall s, I s -> I (setElements s []).
Hypothesis I_append : forall x, preserves I (append x).

Lemma preserves_ret {T} (v : T) : preserves I (ret v).
Proof. intros s w H; exact H. Qed.

Lemma preserves_raise {T} (e : Exn) : preserves I (@raise T e).
Proof. intros s w H; exact H. Qed.

Lemma preserves_warn (msg : string) : preserves I (warn msg).
Proof. intros s w H; exact H. Qed.

Lemma preserves_bind {T U} (m : M T) (k : T -> M U) :
  preserves I m -> (forall v, preserves I (k v)) -> preserves I (bind m k).
Proof.
  intros Hm Hk s w H. rewrite bind_run. specialize (Hm s w H).
  destruct (res (m s w)) as [v|e]; [apply Hk|]; exact Hm.
Qed.

Lemma preserves_getSelf_bind {U} (k : MatrixGroup -> M U) :
  (forall s, preserves I (k s)) -> preserves I (bind getSelf k).
Proof. intros H s w Hs. rewrite bind_getSelf. apply H. exact Hs. Qed.

Lemma preserves_forEach {T} (xs : list T) (body : T -> M unit) :
  (forall x, preserves I (body x)) -> preserves I (forEach xs body).
Proof.
  intros H. induction xs as [|x rest IH]; simpl.
  - apply preserves_ret.
  - apply preserves_bind; [apply H | intros _; exact IH].
Qed.

Lemma preserves_appendAll (g : MatrixGroup) : preserves I (appendAll g).
Proof. apply preserves_forEach. intros x. apply I_append. Qed.

Lemma preserves_construct (els : PyObj) : preserves I (construct els).
Proof. intros s w H. rewrite construct_keeps. exact H. Qed.

Lemma preserves_asGroup (x : PyObj) : preserves I (asGroup x).
Proof. intros s w H. rewrite asGroup_keeps. exact H. Qed.

Lemma preserves_getItem {T} (xs : list T) (i : Z) : preserves I (getItem xs i).
Proof.
  intros s w H. unfold getItem. destruct (_ <? 0)%Z; [exact H|].
  destruct (nth_error _ _); exact H.
Qed.

Lemma preserves_clearElements : preserves I clearElements.
Proof. intros s w H. apply I_clear. exact H. Qed.

Ltac keeps_invariant :=
  lazymatch goal with
  | |- preserves _ (ret _) => apply preserves_ret
  | |- preserves _ (raise _) => apply preserves_raise
  | |- preserves _ (warn _) => apply preserves_warn
  | |- preserves _ (append _) => apply I_append
  | |- preserves _ (appendAll _) => apply preserves_appendAll
  | |- preserves _ (construct _) => apply preserves_construct
  | |- preserves _ (asGroup _) => apply preserves_asGroup
  | |- preserves _ (getItem _ _) => apply preserves_getItem
  | |- preserves _ clearElements => apply preserves_clearElements
  | |- preserves _ (bind getSelf _) =>
      apply preserves_getSelf_bind; intros ?; keeps_invariant
  | |- preserves _ (bind _ _) =>
      apply preserves_bind; [keeps_invariant | intros ?; keeps_invariant]
  | |- preserves _ (forEach _ _) =>
      apply preserves_forEach; intros ?; keeps_invariant
  | |- preserves _ (if ?b then _ else _) => destruct b; keeps_invariant
  | |- preserves _ (let (_, _) := ?p in _) => destruct p; keeps_invariant
  | |- preserves _ (let _ := _ in _) => cbv zeta; keeps_invariant
  | |- preserves _ (match ?o with Some _ => _ | None => _ end) =>
      destruct o; keeps_invariant
  | |- _ => idtac
  end.

Lemma preserves_removeElement (index : Z) (pad : bool) :
  preserves I (removeElement index pad).
Proof. unfold removeElement. keeps_invariant. Qed.

Lemma preserves_insertElement (index : Z) (x : PyObj) :
  preserves I (insertElement index x).
Proof. unfold insertElement. keeps_invariant. Qed.

Lemma preserves_replaceSingle (index : Z) (x : PyObj) :
  preserves I (replaceSingle index x).
Proof. unfold replaceSingle. keeps_invariant. Qed.

Lemma preserves_replaceChunk (startIndex stopIndex : Z) (x : PyObj) :
  preserves I (replaceChunk startIndex stopIndex x).
Proof. unfold replaceChunk, getSlice. keeps_invariant. Qed.

Lemma preserves_flipOrientation : preserves I flipOrientation.
Proof.
  unfold flipOrientation, flip_body. keeps_invariant.
  intros g w H. destruct (_ w) as [[e|e] w']; exact H.
Qed.

Lemma preserves_setitem (key : Key) (value : PyObj) :
  preserves I (setitem__ key value).
Proof.
  destruct key as [i|start stop step]; simpl.
  - apply preserves_replaceSingle.
  - apply preserves_bind; [destruct step; keeps_invariant | intros _].
    destruct start as [a|]; [destruct stop as [b|]|].
    + apply preserves_replaceChunk.
    + keeps_invariant.
    + keeps_invariant.
Qed.

Lemma preserves_runEdit (e : Edit) : preserves I (runEdit e).
Proof.
  destruct e; simpl.
  - apply I_append.
  - apply preserves_removeElement.
  - apply preserves_insertElement.
  - apply preserves_replaceSingle.
  - apply preserves_replaceChunk.
  - apply preserves_flipOrientation.
Qed.

Lemma preserves_afterEdits (es : list Edit) :
  forall s w, I s -> I (fst (afterEdits es s w)).
Proof.
  induction es as [|e rest IH]; intros s w H; [exact H|].
  simpl. apply IH. apply preserves_runEdit. exact H.
Qed.

(** The constructor, too, goes through [append] only. *)
Lemma preserves_init (x : PyObj) (w : World) (g : MatrixGroup) (w' : World) :
  I emptyGroup -> MatrixGroup_init x w = (Val g, w') -> I g.
Proof.
  intros H0. unfold MatrixGroup_init. destruct (iterItems x) as [xs|]; [|discriminate].
  pose proof (preserves_forEach xs append I_append emptyGroup w H0) as H.
  destruct (res (forEach xs append emptyGroup w)); [|discriminate].
  intros E. inversion E; subst.
  destruct (self' (forEach xs append emptyGroup w)) as [b els it c] eqn:Es.
  pose proof (keepsCache_forEach xs append keepsCache_append emptyGroup w) as Hc.
  rewrite Es in Hc. simpl in Hc. subst c. exact H.
Qed.
End Invariant.

Lemma Qeq_bool_same (q : Q) : Qeq_bool q q = true.
Proof. apply Qeq_bool_iff. apply Qeq_refl. Qed.

Lemma setIndices_front (e : Element) (a b : Q) :
  frontIndex (matrixOf (setIndices e a b)) = a.
Proof. destruct e as [c m|g]; reflexivity. Qed.

Lemma append_continuous (x : PyObj) : preserves continuous (append x).
Proof.
  intros s w H. unfold continuous in *.
  destruct x as [m| | |]; try exact H.
  rewrite append_matrix.
  destruct (indexCheck s m) as [[stored b]|] eqn:E; [|exact H].
  cbn [self']. rewrite elements_appended, linked_app, H. cbn [andb linked].
  rewrite andb_true_r. unfold indexCheck in E.
  destruct (lastOf (elements s)) as [l|]; [|reflexivity].
  destruct (Qne_bool (backIndex (matrixOf l)) (frontIndex (matrixOf m))) eqn:En.
  - destruct (isSpace m); [|discriminate E]. inversion E; subst.
    rewrite setIndices_front. apply Qeq_bool_same.
  - inversion E; subst. unfold Qne_bool in En. apply negb_false_iff in En. exact En.
Qed.

Lemma append_emptyOrConsistent (x : PyObj) : preserves emptyOrConsistent (append x).
Proof.
  intros s w H. destruct (res (append x s w)) as [[]|e] eqn:E.
  - right. apply append_consistent. exact E.
  - rewrite (proj1 (proj2 (append_raise x s w e E))). exact H.
Qed.

Lemma append_sameFrame (g0 : MatrixGroup) (x : PyObj) : preserves (sameFrame g0) (append x).
Proof.
  intros s w H. destruct x as [m| | |]; try exact H.
  rewrite append_matrix. destruct (indexCheck s m) as [[stored b]|]; exact H.
Qed.

Lemma emptyGroup_consistent : consistent emptyGroup.
Proof. reflexivity. Qed.

Lemma append_keeps_consistent (x : PyObj) : preserves consistent (append x).
Proof.
  intros s w H. destruct (res (append x s w)) as [[]|e] eqn:E.
  - apply append_consistent. exact E.
  - rewrite (proj1 (proj2 (append_raise x s w e E))). exact H.
Qed.

(** X2: the aggregate is stale only on an empty list.  From a sequence
    whose aggregate agrees with its elements, or that has no element, any
    run of edits, whether they return or raise, leaves a sequence with no
    element or with [A, B, C, D, L, frontVertex, backVertex] equal to those
    of the transfer matrix of its elements; and the aggregate of every group
    that the constructor builds agrees with its elements. *)
Theorem aggregate_kept :
  (forall es s w, emptyOrConsistent s -> emptyOrConsistent (fst (afterEdits es s w)))
  /\ (forall key value s w,
        emptyOrConsistent s -> emptyOrConsistent (self' (setitem__ key value s w)))
  /\ (forall x w g w', MatrixGroup_init x w = (Val g, w') -> consistent g).
Proof.
  assert (Hc : forall s, emptyOrConsistent s -> emptyOrConsistent (setElements s []))
    by (intros s _; left; reflexivity).
  split; [|split].
  - intros es. apply (preserves_afterEdits emptyOrConsistent Hc append_emptyOrConsistent).
  - intros key value. apply (preserves_setitem emptyOrConsistent Hc append_emptyOrConsistent).
  - intros x w g w'.
    apply (preserves_init consistent append_keeps_consistent). reflexivity.
Qed.

Lemma aggregate_kept_witness :
  emptyOrConsistent (fst (afterEdits [ERemove 1 true; EFlip] group3 world0)).
Proof.
  exact (proj1 aggregate_kept [ERemove 1%Z true; EFlip] group3 world0
               (or_intror eq_refl)).
Defined.

(** X3: what no edit writes.  Any run of edits and any [g[key] = value],
    whether they return or raise, leaves the [frontIndex], [backIndex] and
    [apertureDiameter] of the group itself, its iteration position and its
    cached trace as they were: the indices of a group stay those its
    constructor set, whatever its elements are. *)
Theorem frame_kept (g0 : MatrixGroup) :
  (forall es s w, sameFrame g0 s -> sameFrame g0 (fst (afterEdits es s w)))
  /\ (forall key value s w,
        sameFrame g0 s -> sameFrame g0 (self' (setitem__ key value s w)))
  /\ (forall x w g w',
        MatrixGroup_init x w = (Val g, w') ->
        frontIndex (base g) = frontIndex (base emptyGroup)
        /\ backIndex (base g) = backIndex (base emptyGroup)
        /\ apertureDiameter (base g) = apertureDiameter (base emptyGroup)).
Proof.
  assert (Hc : forall s, sameFrame g0 s -> sameFrame g0 (setElements s []))
    by (intros s H; exact H).
  split; [|split].
  - intros es. apply (preserves_afterEdits (sameFrame g0) Hc (append_sameFrame g0)).
  - intros key value. apply (preserves_setitem (sameFrame g0) Hc (append_sameFrame g0)).
  - intros x w g w' E.
    assert (H : sameFrame emptyGroup g).
    { apply (preserves_init (sameFrame emptyGroup) (append_sameFrame emptyGroup) x w g w');
        [repeat split | exact E]. }
    destruct H as (H1 & H2 & H3 & _). repeat split; assumption.
Qed.

Lemma frame_kept_witness :
  sameFrame group3 (fst (afterEdits [ERemove 1 true; EFlip] group3 world0)).
Proof.
  apply (proj1 (frame_kept group3) [ERemove 1%Z true; EFlip] group3 world0).
  repeat split.
Defined.

(** ** append and transferMatrix *)

Lemma composeAll_app (xs ys : list Element) (start : Matrix) :
  composeAll (xs ++ ys) start = composeAll ys (composeAll xs start).
Proof. unfold composeAll. apply fold_left_app. Qed.

Lemma transferMatrix_PInf (els : list Element) :
  transferMatrix els PInf = composeAll els (Matrix_init 1 0 0 1).
Proof. apply transferMatrix_loop_PInf. Qed.

(** X4: recomposition is the incremental update.  When [append] returns on
    a sequence whose aggregate agrees with its elements, the new aggregate is
    the product of the stored element and the old aggregate: folding the
    whole list again gives what one more multiplication gives. *)
Theorem append_is_incremental (s : MatrixGroup) (w : World) (x : Element)
        (Hc : consistent s)
        (Hv : res (append (OMatrix x) s w) = Val tt) :
  exists stored,
    storedFrom x stored
    /\ elements (self' (append (OMatrix x) s w)) = elements s ++ [stored]
    /\ aggregateOf (self' (append (OMatrix x) s w))
       = matrixAggregate (mul_matrix (matrixOf stored) (base s)).
Proof.
  rewrite append_matrix in *.
  destruct (indexCheck s x) as [[stored b]|] eqn:E; [|discriminate Hv].
  exists stored. split; [exact (indexCheck_storedFrom _ _ _ _ E)|].
  split; [reflexivity|].
  cbn [self']. rewrite (appended_consistent s stored).
  rewrite elements_appended, transferMatrix_PInf, composeAll_app.
  unfold consistent in Hc. rewrite transferMatrix_PInf in Hc.
  unfold aggregateOf, matrixAggregate in Hc. inversion Hc as [[Ha Hb Hcc Hd Hl Hf Hbv]].
  unfold composeAll at 1. cbn [fold_left].
  unfold matrixAggregate, mul_matrix. cbn [A B C D L frontVertex backVertex].
  fold (composeAll (elements s) (Matrix_init 1 0 0 1)).
  rewrite <- Ha, <- Hb, <- Hcc, <- Hd, <- Hl, <- Hf. reflexivity.
Qed.

Lemma append_is_incremental_witness :
  exists stored,
    aggregateOf (self' (append (OMatrix (Lens 5)) group2 world0))
    = matrixAggregate (mul_matrix (matrixOf stored) (base group2)).
Proof.
  destruct (append_is_incremental group2 world0 (Lens 5) eq_refl eq_refl)
    as (stored & _ & _ & H).
  exists stored. exact H.
Defined.

Lemma loop_beyond_end (els : list Element) :
  forall start d,
    Forall (fun e => 0 <= L (matrixOf e)) els ->
    sumL els <= d ->
    transferMatrix_loop elem_transferMatrix els start (Fin d) = composeAll els start.
Proof.
  induction els as [|e rest IH]; intros start d Hpos Hd; [reflexivity|].
  inversion Hpos as [|? ? He Hrest]; subst.
  assert (Hs : 0 <= sumL rest).
  { clear -Hrest. induction Hrest as [|y ys Hy _ IHy]; simpl.
    - apply Qle_refl.
    - fold (sumL ys). rewrite <- (Qplus_0_r 0). apply Qplus_le_compat; assumption. }
  change (sumL (e :: rest)) with (L (matrixOf e) + sumL rest) in Hd.
  cbn [transferMatrix_loop le_num sub_num].
  assert (Hfit : Qle_bool (L (matrixOf e)) d = true).
  { apply Qle_bool_iff. eapply Qle_trans; [|exact Hd].
    rewrite <- (Qplus_0_r (L (matrixOf e))) at 1.
    apply Qplus_le_compat; [apply Qle_refl | exact Hs]. }
  rewrite Hfit. rewrite IH; [reflexivity | exact Hrest |].
  apply (Qplus_le_r _ _ (L (matrixOf e))). ring_simplify.
  eapply Qle_trans; [|exact Hd]. ring_simplify. apply Qle_refl.
Qed.

Lemma wholeNumber_nonneg (q : Q) : wholeNumber q -> 0 <= q.
Proof.
  intros (z & Hq & Hz). rewrite Hq.
  change 0 with (inject_Z 0). rewrite <- Zle_Qle. lia.
Qed.

Lemma wholeNumber_sub (d x : Q) :
  wholeNumber d -> wholeNumber x -> x <= d -> wholeNumber (d - x).
Proof.
  intros (zd & Hd & Bd) (zx & Hx & Bx) Hle.
  exists (zd - zx)%Z. split.
  - rewrite Hd, Hx. unfold Zminus, Qminus. rewrite inject_Z_plus, inject_Z_opp.
    reflexivity.
  - rewrite Hd, Hx, <- Zle_Qle in Hle. lia.
Qed.

Lemma sumL_nonneg (els : list Element) :
  Forall (fun e => wholeNumber (L (matrixOf e))) els -> 0 <= sumL els.
Proof.
  induction 1 as [|e rest He _ IH]; [apply Qle_refl|].
  change (sumL (e :: rest)) with (L (matrixOf e) + sumL rest).
  rewrite <- (Qplus_0_r 0).
  apply Qplus_le_compat; [exact (wholeNumber_nonneg _ He) | exact IH].
Qed.

(** What is left of a whole distance stays a whole number all along the
    walk. *)
Lemma remaining_whole (els : list Element) :
  forall d k,
    Forall (fun e => wholeNumber (L (matrixOf e))) els ->
    wholeNumber d ->
    sumL els <= d ->
    exists q, remaining (firstn k els) (Fin d) = Fin q /\ wholeNumber q.
Proof.
  induction els as [|e rest IH]; intros d k Hw Hd Hsum.
  - exists d. rewrite firstn_nil. split; [reflexivity | exact Hd].
  - destruct k as [|k]; [exists d; split; [reflexivity | exact Hd]|].
    inversion Hw as [|? ? He Hrest]; subst.
    change (sumL (e :: rest)) with (L (matrixOf e) + sumL rest) in Hsum.
    pose proof (sumL_nonneg rest Hrest) as Hs.
    change (remaining (firstn (S k) (e :: rest)) (Fin d))
      with (remaining (firstn k rest) (Fin (d - L (matrixOf e)))).
    apply IH; [exact Hrest | |].
    + apply wholeNumber_sub; [exact Hd | exact He |].
      eapply Qle_trans; [|exact Hsum].
      rewrite <- (Qplus_0_r (L (matrixOf e))) at 1.
      apply Qplus_le_compat; [apply Qle_refl | exact Hs].
    + apply (Qplus_le_r _ _ (L (matrixOf e))). ring_simplify.
      eapply Qle_trans; [|exact Hsum]. ring_simplify. apply Qle_refl.
Qed.

(** X5: a query at or past the end gives the whole sequence.  When the
    lengths of the elements and [upTo] are whole numbers from 0 to 2^53 and
    [upTo] is at least the sum of the lengths, [transferMatrix(upTo)] is
    [transferMatrix()]: no partial matrix is asked of any element.  What is
    left of the distance after each element is again such a whole number, so
    that the subtraction of line 142, which a float rounds, is exact all
    along the walk. *)
Theorem transferMatrix_beyond_end (els : list Element) (d : Q)
        (Hwhole : Forall (fun e => wholeNumber (L (matrixOf e))) els)
        (Hupto : wholeNumber d)
        (Hd : sumL els <= d) :
  transferMatrix els (Fin d) = transferMatrix els PInf
  /\ (forall k, exists q, remaining (firstn k els) (Fin d) = Fin q /\ wholeNumber q).
Proof.
  split.
  - rewrite transferMatrix_PInf. unfold transferMatrix.
    apply loop_beyond_end; [|exact Hd].
    apply Forall_forall. intros e He.
    apply wholeNumber_nonneg. exact (proj1 (Forall_forall _ _) Hwhole e He).
  - intros k. apply remaining_whole; assumption.
Qed.

Lemma transferMatrix_beyond_end_witness :
  transferMatrix [Space 10; Lens 10; Space 10] (Fin 25)
  = transferMatrix [Space 10; Lens 10; Space 10] PInf.
Proof.
  assert (H53 : forall z, (0 <= z <= 25)%Z -> (0 <= z <= 2 ^ 53)%Z).
  { intros z [H0 H1]. split; [exact H0|].
    apply (Z.le_trans _ 25); [exact H1 | intros H; discriminate H]. }
  refine (proj1 (transferMatrix_beyond_end [Space 10; Lens 10; Space 10] 25 _ _ _)).
  - constructor; [exists 10%Z; split; [reflexivity | apply H53; lia]|].
    constructor; [exists 0%Z; split; [reflexivity | apply H53; lia]|].
    constructor; [exists 10%Z; split; [reflexivity | apply H53; lia] | constructor].
  - exists 25%Z. split; [reflexivity | apply H53; lia].
  - vm_compute. intros H; discriminate H.
Defined.

Lemma isTranslation_eq (m : Matrix) (b b' : Q) :
  isTranslation m b -> b == b' -> isTranslation m b'.
Proof.
  intros (Ha & Hb & Hc & Hd & Hl) E. repeat split; try assumption.
  - eapply Qeq_trans; [exact Hb | exact E].
  - eapply Qeq_trans; [exact Hl | exact E].
Qed.

Lemma isTranslation_mul (len n : Q) (start : Matrix) (b0 : Q) :
  isTranslation start b0 ->
  isTranslation (mul_matrix (Space_matrix len n) start) (b0 + len).
Proof.
  intros (Ha & Hb & Hc & Hd & Hl). unfold isTranslation, mul_matrix, Space_matrix.
  cbn [A B C D L]. repeat split.
  - rewrite Ha, Hc. ring.
  - rewrite Hb, Hd. ring.
  - rewrite Ha, Hc. ring.
  - rewrite Hb, Hd. ring.
  - rewrite Hl. ring.
Qed.

Lemma loop_spacers (els : list Element) :
  forall start b0 d,
    Forall isSpacer els -> 0 <= d -> d <= sumL els ->
    isTranslation start b0 ->
    isTranslation (transferMatrix_loop elem_transferMatrix els start (Fin d)) (b0 + d).
Proof.
  induction els as [|e rest IH]; intros start b0 d Hsp H0 Hd Hstart.
  - apply (isTranslation_eq _ b0); [exact Hstart|].
    assert (Hz : d == 0) by (apply Qle_antisym; assumption).
    rewrite Hz. ring.
  - inversion Hsp as [|? ? (len & n & -> & Hlen) Hrest]; subst.
    change (sumL (SpaceN len n :: rest)) with (len + sumL rest) in Hd.
    cbn [transferMatrix_loop le_num sub_num matrixOf SpaceN Space_matrix L].
    destruct (Qle_bool len d) eqn:Efit.
    + apply Qle_bool_iff in Efit.
      apply (isTranslation_eq _ (b0 + len + (d - len))); [|ring].
      apply IH.
      * exact Hrest.
      * apply (Qplus_le_r _ _ len). ring_simplify. exact Efit.
      * apply (Qplus_le_r _ _ len). ring_simplify.
        eapply Qle_trans; [exact Hd|]. ring_simplify. apply Qle_refl.
      * exact (isTranslation_mul len n start b0 Hstart).
    + assert (Hp : elem_transferMatrix (SpaceN len n) (Fin d) = Space_matrix d 1).
      { unfold SpaceN. cbn [elem_transferMatrix leaf_transferMatrix Space_matrix L].
        rewrite Efit. reflexivity. }
      rewrite Hp. exact (isTranslation_mul d 1 start b0 Hstart).
Qed.

(** X6: free space adds up.  Through a sequence of [Space] elements of
    lengths that are not negative, in whatever media, the matrix up to any
    [d] from 0 to the total length is the translation [[1 d] [0 1]] of
    length [d]: the spacers before the point are taken in whole, the one that
    holds it as [Space(d=remaining)]. *)
Theorem spacers_up_to (els : list Element) (d : Q)
        (Hsp : Forall isSpacer els) (H0 : 0 <= d) (Hd : d <= sumL els) :
  isTranslation (transferMatrix els (Fin d)) d.
Proof.
  apply (isTranslation_eq _ (0 + d)); [|ring].
  apply loop_spacers; try assumption.
  repeat split; apply Qeq_refl.
Qed.

Lemma spacers_up_to_witness :
  isTranslation (transferMatrix [Space 10; SpaceN 20 1.5] (Fin 25)) 25.
Proof.
  apply spacers_up_to.
  - constructor; [exists 10, 1 | constructor; [exists 20, 1.5 | constructor]];
      (split; [reflexivity | vm_compute; intros H; discriminate H]).
  - vm_compute. intros H; discriminate H.
  - vm_compute. intros H; discriminate H.
Defined.

(** ** trace and the aggregate *)

Lemma lastOf_cons_cons {T} (x y : T) (l : list T) : lastOf (x :: y :: l) = lastOf (y :: l).
Proof.
  rewrite lastOf_cons. destruct (lastOf (y :: l)) eqn:E; [reflexivity|].
  apply lastOf_nil_iff in E. discriminate E.
Qed.

Lemma propagate_through (els : list Element) :
  forall r id start y0 theta0 z0,
    rayThrough start y0 theta0 z0 r ->
    exists rout,
      lastOf (TRay r :: propagate els (TRay r) id) = Some (TRay rout)
      /\ rayThrough (composeAll els start) y0 theta0 z0 rout.
Proof.
  induction els as [|e rest IH]; intros r id start y0 theta0 z0 Hr.
  - exists r. split; [reflexivity | exact Hr].
  - cbn [propagate step]. rewrite lastOf_cons_cons.
    apply (IH (mul_ray (matrixOf e) r id) (S id) (mul_matrix (matrixOf e) start)).
    destruct Hr as (Hy & Ht & Hz).
    unfold rayThrough, mul_ray, mul_matrix. cbn [y theta z A B C D L].
    repeat split.
    + rewrite Hy, Ht. ring.
    + rewrite Hy, Ht. ring.
    + rewrite Hz. ring.
Qed.

(** X7: tracing agrees with the transfer matrix.  For a sequence of single
    elements and a ray that is not the cached one, the last entry of the
    trace is the input ray taken through [transferMatrix()]: its height and
    angle are the 2x2 product of the whole sequence applied to the input, its
    position is advanced by the total length; and the call changes nothing
    in the group but the cache, which now holds the ray and the list. *)
Theorem trace_agrees_with_transferMatrix (s : MatrixGroup) (w : World) (r : Ray)
        (Hflat : forallb isLeaf (elements s) = true)
        (Hmiss : match lastTrace s with
                 | None => True
                 | Some (lastRay, _) => traced_ne (TRay r) lastRay = true
                 end) :
  exists t rout,
    res (trace (OTraced (TRay r)) s w) = Val t
    /\ lastOf t = Some (TRay rout)
    /\ rayThrough (transferMatrix (elements s) PInf) (y r) (theta r) (z r) rout
    /\ self' (trace (OTraced (TRay r)) s w)
       = mkGroup (base s) (elements s) (iteration s) (Some (TRay r, t)).
Proof.
  destruct (propagate_through (elements s) r (nextId w) (Matrix_init 1 0 0 1)
                              (y r) (theta r) (z r))
    as (rout & Hlast & Hthrough).
  { unfold rayThrough. cbn [A B C D L Matrix_init]. repeat split; ring. }
  exists (TRay r :: propagate (elements s) (TRay r) (nextId w)), rout.
  split; [apply trace_flat_miss; assumption|].
  split; [exact Hlast|]. split; [rewrite transferMatrix_PInf; exact Hthrough|].
  unfold trace, trace_body. rewrite (trace_loop_flat _ Hflat). cbn [app].
  destruct (lastTrace s) as [[lastRay lastRayTrace]|]; [rewrite Hmiss|]; reflexivity.
Qed.

Lemma trace_agrees_with_transferMatrix_witness :
  exists t rout,
    res (trace (OTraced highRay) apertureGroup world0) = Val t
    /\ lastOf t = Some (TRay rout)
    /\ rayThrough (transferMatrix (elements apertureGroup) PInf) 3 0 0 rout.
Proof.
  destruct (trace_agrees_with_transferMatrix apertureGroup world0
              (mkRay 7 3 0 0 false) eq_refl I) as (t & rout & H1 & H2 & H3 & _).
  exists t, rout. split; [exact H1|]. split; [exact H2 | exact H3].
Defined.

Lemma trace_loop_size (els : list Element) :
  Forall traceHasSize els -> forallb noCache els = true ->
  forall ray acc w, exists l els' w',
    trace_loop elem_trace els ray acc w = (Val (acc ++ l), els', w')
    /\ List.length l = list_sum (map traceSize els)
    /\ List.length els' = List.length els.
Proof.
  induction 1 as [|e rest He _ IH]; intros Hn ray acc w.
  - exists [], [], w. simpl. rewrite app_nil_r. repeat split.
  - simpl in Hn. apply andb_true_iff in Hn. destruct Hn as [Hne Hnr].
    destruct (He Hne ray w) as (l & e' & w1 & Ht & Hlen & Hnil).
    destruct (lastOf_some l Hnil) as (lastRay & Hl).
    destruct (IH Hnr lastRay (acc ++ l) w1) as (l2 & rest' & w2 & Hr & Hlen2 & Hcount).
    exists (l ++ l2), (e' :: rest'), w2.
    cbn [trace_loop]. rewrite Ht, Hl, Hr, app_assoc.
    repeat split.
    + rewrite length_app, Hlen, Hlen2. reflexivity.
    + simpl. rewrite Hcount. reflexivity.
Qed.

Lemma elem_trace_size (e : Element) : traceHasSize e.
Proof.
  induction e as [cls m | b els it c IH] using Element_nested_ind; intros Hn ray w.
  - simpl. destruct ray as [r|bm]; simpl; eexists _, _, _;
      (split; [reflexivity | split; [reflexivity | discriminate]]).
  - simpl in Hn. apply andb_true_iff in Hn. destruct Hn as [Hc Hels].
    destruct c as [c|]; [discriminate Hc|].
    destruct (trace_loop_size els IH Hels ray [ray] w) as (l & els' & w' & Hr & Hlen & _).
    cbn [elem_trace]. unfold trace_body. cbn [lastTrace elements base iteration].
    rewrite Hr. eexists _, _, _. split; [reflexivity|].
    split; [|discriminate]. cbn [app List.length traceSize elements].
    rewrite Hlen. reflexivity.
Qed.

(** X8: the length of a trace.  When no nested group has a cached trace and
    the ray is not the cached one, [trace] returns one entry for the input
    and, for every element, one entry if it is a single element and one more
    than its own elements give if it is a group: a nested group contributes
    its whole trace, its input ray included; the number of elements of the
    sequence is unchanged. *)
Theorem trace_length (s : MatrixGroup) (w : World) (ray : Traced)
        (Hfresh : forallb noCache (elements s) = true)
        (Hmiss : match lastTrace s with
                 | None => True
                 | Some (lastRay, _) => traced_ne ray lastRay = true
                 end) :
  exists t,
    res (trace (OTraced ray) s w) = Val t
    /\ List.length t = S (list_sum (map traceSize (elements s)))
    /\ List.length (elements (self' (trace (OTraced ray) s w)))
       = List.length (elements s).
Proof.
  assert (HF : Forall traceHasSize (elements s))
    by (apply Forall_forall; intros e _; apply elem_trace_size).
  destruct (trace_loop_size _ HF Hfresh ray [ray] w) as (l & els' & w' & Hr & Hlen & Hcount).
  exists (ray :: l). unfold trace, trace_body. rewrite Hr. cbn [app].
  destruct (lastTrace s) as [[lastRay lastRayTrace]|]; [rewrite Hmiss|];
    cbn [res self' elements List.length]; rewrite Hlen; repeat split; exact Hcount.
Qed.

Lemma trace_length_witness :
  exists t,
    res (trace (OTraced ray0) outerGroup world0) = Val t
    /\ List.length t = 4%nat.
Proof.
  destruct (trace_length outerGroup world0 ray0 eq_refl I) as (t & H1 & H2 & _).
  exists t. split; [exact H1 | exact H2].
Defined.

(** ** replaceSingle and replaceChunk *)

Lemma forEach_ext_in {T} (xs : list T) (f g : T -> M unit) :
  (forall x, In x xs -> forall s w, f x s w = g x s w) ->
  forall s w, forEach xs f s w = forEach xs g s w.
Proof.
  induction xs as [|x rest IH]; intros H s w; [reflexivity|].
  cbn [forEach]. rewrite !bind_run. rewrite (H x (or_introl eq_refl)).
  destruct (res (g x s w)); [|reflexivity].
  apply IH. intros y Hy. apply H. right; exact Hy.
Qed.

Lemma bind_ret {T U} (v : T) (k : T -> M U) (s : MatrixGroup) (w : World) :
  bind (ret v) k s w = k v s w.
Proof. reflexivity. Qed.

Local Open Scope Z_scope.

Lemma replaceBody_other (index : Z) (g : MatrixGroup) (k : Z) (e : Element) :
  k <> index -> replaceBody index g k e = append (OMatrix e).
Proof.
  intros H. unfold replaceBody. apply Z.eqb_neq in H. rewrite H. reflexivity.
Qed.

Lemma replaceBody_after (index : Z) (g : MatrixGroup) (t : list Element) :
  forall k s w, index < k ->
    forEachFrom k t (replaceBody index g) s w = appendEach t s w.
Proof.
  induction t as [|e rest IH]; intros k s w Hk; [reflexivity|].
  unfold appendEach in *. cbn [forEachFrom forEach].
  rewrite replaceBody_other by lia. rewrite !bind_run.
  destruct (res _); [|reflexivity]. apply IH. lia.
Qed.

(** The replay of [replaceSingle]: the elements before the index, the
    length check against the element at the index, the new elements, the
    elements after the index. *)
Lemma replaceBody_list (index : Z) (g : MatrixGroup) (t : list Element) :
  forall k s w e,
    k <= index ->
    nth_error t (Z.to_nat (index - k)) = Some e ->
    forEachFrom k t (replaceBody index g) s w
    = (appendEach (firstn (Z.to_nat (index - k)) t) ;;
       (if Qne_bool (L (matrixOf e)) (L (base g)) then warn msgLength else ret tt) ;;
       appendEach (elements g ++ skipn (S (Z.to_nat (index - k))) t)) s w.
Proof.
  induction t as [|x rest IH]; intros k s w e Hk He.
  - destruct (Z.to_nat (index - k)); discriminate He.
  - cbn [forEachFrom]. destruct (Z.eq_dec k index) as [E|E].
    + subst k. rewrite Z.sub_diag in He |- *. cbn [Z.to_nat nth_error] in He.
      inversion He; subst x.
      change (firstn (Z.to_nat 0) (e :: rest)) with (@nil Element).
      change (skipn (S (Z.to_nat 0)) (e :: rest)) with rest.
      unfold replaceBody at 1. rewrite Z.eqb_refl.
      unfold appendEach at 1. cbn [forEach]. rewrite bind_ret_tt.
      unfold appendEach, appendAll.
      destruct (Qne_bool (L (matrixOf e)) (L (base g)));
        rewrite !bind_run; cbn [warn ret res self' world'];
        rewrite forEach_app, !bind_run;
        (destruct (res (forEach (elements g) _ _ _)); [|reflexivity]);
        apply replaceBody_after; lia.
    + rewrite replaceBody_other by exact E.
      replace (Z.to_nat (index - k)) with (S (Z.to_nat (index - (k + 1)))) in He |- * by lia.
      change (firstn (S (Z.to_nat (index - (k + 1)))) (x :: rest))
        with (x :: firstn (Z.to_nat (index - (k + 1))) rest).
      change (skipn (S (S (Z.to_nat (index - (k + 1))))) (x :: rest))
        with (skipn (S (Z.to_nat (index - (k + 1)))) rest).
      cbn [nth_error] in He.
      unfold appendEach at 1. cbn [forEach]. rewrite !bind_run.
      destruct (res (append (OMatrix x) s w)); [|reflexivity].
      rewrite (IH _ _ _ e) by (try lia; exact He).
      rewrite !bind_run. reflexivity.
Qed.

Local Close Scope Z_scope.

(** [replaceSingle] at a valid index. *)
Lemma replaceSingle_valid (index : Z) (x : PyObj) (g : MatrixGroup) (e : Element)
      (s : MatrixGroup) (w : World) :
  res (asGroup x s w) = Val g ->
  (0 <= normalized s index < len__ s)%Z ->
  nth_error (elements s) (Z.to_nat (normalized s index)) = Some e ->
  replaceSingle index x s w
  = (appendEach (firstn (Z.to_nat (normalized s index)) (elements s)) ;;
     (if Qne_bool (L (matrixOf e)) (L (base g)) then warn msgLength else ret tt) ;;
     appendEach (elements g ++ skipn (S (Z.to_nat (normalized s index))) (elements s)))
      (setElements s []) (world' (asGroup x s w)).
Proof.
  intros Hg Hidx He. unfold normalized in *. unfold replaceSingle.
  rewrite bind_run, Hg, asGroup_keeps, bind_getSelf. cbv zeta.
  set (j := if (index <? 0)%Z then (index + len__ s)%Z else index) in *.
  destruct ((j >=? len__ s)%Z || (j <? 0)%Z) eqn:E.
  - apply orb_true_iff in E.
    destruct E as [E|E]; [apply Z.geb_le in E | apply Z.ltb_lt in E]; lia.
  - rewrite bind_run. cbn [clearElements bind getSelf putSelf res self' world'].
    etransitivity.
    + apply (forEach_ext_in _ _
               (fun i => y <- getItem (elements s) i ;; replaceBody j g i y)).
      intros i Hi s0 w0. destruct (getItem_in_range (elements s) i Hi) as (y & _ & Hy).
      unfold replaceBody. rewrite Hy. destruct (i =? j)%Z; reflexivity.
    + etransitivity; [apply replay_range|].
      rewrite (replaceBody_list j g (elements s) 0%Z _ _ e);
        [|lia | rewrite Z.sub_0_r; exact He].
      rewrite Z.sub_0_r. reflexivity.
Qed.

Lemma Qeq_bool_comp (a b b' : Q) : b == b' -> Qeq_bool a b = Qeq_bool a b'.
Proof.
  intros E. destruct (Qeq_bool a b) eqn:E1, (Qeq_bool a b') eqn:E2; try reflexivity.
  - apply Qeq_bool_iff in E1. rewrite <- E2. symmetry. apply Qeq_bool_iff.
    eapply Qeq_trans; [exact E1 | exact E].
  - apply Qeq_bool_iff in E2. rewrite <- E1. apply Qeq_bool_iff.
    eapply Qeq_trans; [exact E2 | apply Qeq_sym; exact E].
Qed.

Lemma linked_weaken (prev : option Element) (xs : list Element) :
  linked prev xs = true -> linked None xs = true.
Proof.
  destruct xs as [|x rest]; [reflexivity|]. cbn [linked].
  intros H. apply andb_true_iff in H. destruct H as [_ H]. exact H.
Qed.

(** Two index-continuous runs replayed one after the other, a length check
    in between. *)
Lemma appendEach_linked_around (a b : list Element) (old new : Q)
      (s : MatrixGroup) (w : World) :
  elements s = [] ->
  linked None (a ++ b) = true ->
  b <> [] ->
  (appendEach a ;;
   (if Qne_bool old new then warn msgLength else ret tt) ;;
   appendEach b) s w
  = mkOut (Val tt) (withElements s (a ++ b)) (warnedLength w old new).
Proof.
  intros Hs Hl Hb. rewrite linked_app in Hl. apply andb_true_iff in Hl.
  destruct Hl as [Ha Hlb].
  rewrite bind_run, appendEach_linked by (rewrite Hs; exact Ha).
  cbn [res self' world']. rewrite Hs. cbn [app].
  assert (Hw : forall g,
             ((if Qne_bool old new then warn msgLength else ret tt) ;; appendEach b) g w
             = appendEach b g (warnedLength w old new)).
  { intros g. unfold warnedLength. destruct (Qne_bool old new); reflexivity. }
  rewrite Hw. rewrite appendEach_linked.
  - destruct b as [|y b']; [contradiction Hb; reflexivity|].
    destruct a as [|x a']; [rewrite Hs; reflexivity | reflexivity].
  - destruct a as [|x a'].
    + rewrite Hs. exact Hlb.
    + cbn [elements withElements setAggregate setElements app].
      change (x :: a') with ([] ++ x :: a').
      cbn [app]. destruct (lastOf (x :: a')) eqn:El; [exact Hlb|].
      apply lastOf_nil_iff in El. discriminate El.
Qed.

(** [replaceSingle] of a single element at a valid index where it fits. *)
Lemma replaceSingle_leaf (s : MatrixGroup) (w : World) (index : Z)
        (cls : LeafClass) (m : Matrix) (e : Element)
        (Hidx : (0 <= normalized s index < len__ s)%Z)
        (He : nth_error (elements s) (Z.to_nat (normalized s index)) = Some e)
        (Hfit : linked None (replacedList (elements s) (Z.to_nat (normalized s index))
                                          (Z.to_nat (normalized s index)) [Leaf cls m])
                = true) :
  replaceSingle index (OMatrix (Leaf cls m)) s w
  = mkOut (Val tt)
          (withElements s (replacedList (elements s) (Z.to_nat (normalized s index))
                                        (Z.to_nat (normalized s index)) [Leaf cls m]))
          (warnedLength w (L (matrixOf e)) (L m)).
Proof.
  rewrite (replaceSingle_valid index _ (withElements emptyGroup [Leaf cls m]) e s w
             (f_equal res (asGroup_leaf cls m s w)) Hidx He).
  rewrite asGroup_leaf. cbn [world'].
  assert (Hl : L (base (withElements emptyGroup [Leaf cls m])) == L m)
    by (cbn; ring).
  unfold replacedList in *.
  rewrite (appendEach_linked_around _ _ (L (matrixOf e))
             (L (base (withElements emptyGroup [Leaf cls m]))));
    [|reflexivity | exact Hfit | discriminate].
  unfold warnedLength, Qne_bool. rewrite (Qeq_bool_comp _ _ _ Hl). reflexivity.
Qed.

(** X9: [replaceSingle] puts the new element in the place of the old one.
    At a valid index, counted from the end when negative, with one single
    element whose indices fit its neighbours there, [replaceSingle] returns,
    the element list is the old one with that element replaced, the
    aggregate is recomputed, and the only effect of a different length is one
    warning: the replacement is made all the same. *)
Theorem replaceSingle_replaces (s : MatrixGroup) (w : World) (index : Z)
        (cls : LeafClass) (m : Matrix) (e : Element)
        (Hidx : (0 <= normalized s index < len__ s)%Z)
        (He : nth_error (elements s) (Z.to_nat (normalized s index)) = Some e)
        (Hfit : linked None (replacedList (elements s) (Z.to_nat (normalized s index))
                                          (Z.to_nat (normalized s index)) [Leaf cls m])
                = true) :
  replaceSingle index (OMatrix (Leaf cls m)) s w
  = mkOut (Val tt)
          (withElements s (replacedList (elements s) (Z.to_nat (normalized s index))
                                        (Z.to_nat (normalized s index)) [Leaf cls m]))
          (warnedLength w (L (matrixOf e)) (L m)).
Proof.
  exact (replaceSingle_leaf s w index cls m e Hidx He Hfit).
Qed.

Lemma replaceSingle_replaces_witness :
  elements (self' (replaceSingle (-1) (OMatrix (Lens 5)) group2 world0))
  = [Space 10; Lens 5]
  /\ warnings (world' (replaceSingle (-1) (OMatrix (Lens 5)) group2 world0))
     = [msgLength].
Proof.
  assert (Hidx : (0 <= normalized group2 (-1) < len__ group2)%Z)
    by (vm_compute; split; [intros H; discriminate H | reflexivity]).
  pose proof (replaceSingle_replaces group2 world0 (-1)%Z ClsMatrix (Lens_matrix 5)
                (Space 20) Hidx eq_refl eq_refl) as H.
  change (Leaf ClsMatrix (Lens_matrix 5)) with (Lens 5) in H.
  rewrite H. split; reflexivity.
Defined.


Lemma linked_firstn (n : nat) (xs : list Element) (prev : option Element) :
  linked prev xs = true -> linked prev (firstn n xs) = true.
Proof.
  intros H. rewrite <- (firstn_skipn n xs), linked_app in H.
  apply andb_true_iff in H. exact (proj1 H).
Qed.

Lemma linked_skipn (n : nat) (xs : list Element) (prev : option Element) :
  linked prev xs = true -> linked None (skipn n xs) = true.
Proof.
  intros H. rewrite <- (firstn_skipn n xs), linked_app in H.
  apply andb_true_iff in H. exact (linked_weaken _ _ (proj2 H)).
Qed.

Lemma linked_slice (xs : list Element) (a b : Z) :
  linked None xs = true -> linked None (slice xs a b) = true.
Proof.
  intros H. unfold slice. apply linked_firstn. exact (linked_skipn _ _ _ H).
Qed.

Lemma forEach_map {T U} (f : T -> U) (xs : list T) (body : U -> M unit) :
  forall s w, forEach (map f xs) body s w = forEach xs (fun x => body (f x)) s w.
Proof.
  induction xs as [|x rest IH]; intros s w; [reflexivity|].
  cbn [map forEach]. rewrite !bind_run.
  destruct (res (body (f x) s w)); [|reflexivity]. apply IH.
Qed.

(** [MatrixGroup(els)] of index-continuous elements: the new group, no
    warning, the calling group untouched. *)
Lemma construct_linked (els : list Element) (s : MatrixGroup) (w : World) :
  linked None els = true ->
  construct (OList (map OMatrix els)) s w = mkOut (Val (groupOf els)) s w.
Proof.
  intros H. unfold construct, MatrixGroup_init. cbn [iterItems].
  rewrite forEach_map. fold (appendEach els).
  rewrite appendEach_linked by exact H. cbn [res self' world'].
  destruct els; reflexivity.
Qed.

Local Open Scope Z_scope.




Local Close Scope Z_scope.




(** ** Indexed access *)

Lemma nth_positions {T} (xs : list T) (a c : nat) :
  forall k,
    (a + k + c <= List.length xs)%nat ->
    flat_map (fun i => match nth_error xs (Z.to_nat i) with
                       | Some x => [x]
                       | None => []
                       end)
             (map (fun j => (Z.of_nat a + Z.of_nat j * 1)%Z) (seq k c))
    = firstn c (skipn (a + k) xs).
Proof.
  induction c as [|c IH]; intros k Hk; [reflexivity|].
  cbn [seq map flat_map].
  replace (Z.to_nat (Z.of_nat a + Z.of_nat k * 1)) with (a + k)%nat by lia.
  destruct (nth_error xs (a + k)) as [x|] eqn:E.
  - rewrite (skipn_nth_error xs _ x E). cbn [firstn app]. f_equal.
    rewrite IH by lia. f_equal. f_equal. lia.
  - apply nth_error_None in E. lia.
Qed.

(** [xs[a:b]] inside the list. *)
Lemma pySlice_inside {T} (xs : list T) (a b : Z) :
  (0 <= a <= b)%Z -> (b <= Z.of_nat (List.length xs))%Z ->
  pySlice xs (Some a) (Some b) None = Some (slice xs a b).
Proof.
  intros Hab Hb. unfold pySlice, sliceIndices, clampIndex, slice.
  change (1 =? 0)%Z with false. change (1 <? 0)%Z with false. cbv iota.
  destruct (a <? 0)%Z eqn:E1; [apply Z.ltb_lt in E1; lia|].
  destruct (b <? 0)%Z eqn:E2; [apply Z.ltb_lt in E2; lia|].
  rewrite !Z.min_l by lia.
  assert (Hc : (if (a <? b)%Z then ((b - a - 1) / 1 + 1)%Z else 0%Z) = (b - a)%Z).
  { destruct (a <? b)%Z eqn:E3.
    - rewrite Z.div_1_r. lia.
    - apply Z.ltb_ge in E3. lia. }
  rewrite Hc. f_equal.
  pose proof (nth_positions xs (Z.to_nat a) (Z.to_nat (b - a)) 0 ltac:(lia)) as H.
  rewrite Z2Nat.id in H by lia. rewrite Nat.add_0_r in H.
  replace (Z.to_nat b - Z.to_nat a)%nat with (Z.to_nat (b - a)) by lia.
  exact H.
Qed.

(** [g[a:b]] inside a group with continuous indices. *)
Lemma getitem_slice_inside (s : MatrixGroup) (w : World) (a b : Z)
        (Hc : continuous s) (Ha : (0 <= a <= b)%Z) (Hb : (b <= len__ s)%Z) :
  getitem__ (KSlice (Some a) (Some b) None) s w
  = mkOut (Val (ItemGroup (groupOf (slice (elements s) a b)))) s w
  /\ len__ (groupOf (slice (elements s) a b)) = (b - a)%Z
  /\ consistent (groupOf (slice (elements s) a b)).
Proof.
  split; [|split].
  - unfold getitem__. rewrite bind_getSelf, pySlice_inside by assumption.
    rewrite bind_run, construct_linked by (apply linked_slice; exact Hc).
    reflexivity.
  - unfold len__, groupOf, slice in *.
    cbn [elements withElements setAggregate setElements].
    rewrite length_firstn, length_skipn. lia.
  - reflexivity.
Qed.

(** X11: a slice of a group is a new group of that part.  On a group whose
    elements are index-continuous, [g[a:b]] with [0 <= a <= b <= len(g)]
    returns a new group made of the [b - a] elements from [a] on, with its
    own aggregate; nothing is raised, no warning is given, and the group
    itself is left as it was. *)
Theorem getitem_slice (s : MatrixGroup) (w : World) (a b : Z)
        (Hc : continuous s) (Ha : (0 <= a <= b)%Z) (Hb : (b <= len__ s)%Z) :
  getitem__ (KSlice (Some a) (Some b) None) s w
  = mkOut (Val (ItemGroup (groupOf (slice (elements s) a b)))) s w
  /\ len__ (groupOf (slice (elements s) a b)) = (b - a)%Z
  /\ consistent (groupOf (slice (elements s) a b)).
Proof.
  exact (getitem_slice_inside s w a b Hc Ha Hb).
Qed.

Lemma getitem_slice_witness :
  res (getitem__ (KSlice (Some 1%Z) (Some 3%Z) None) group5 world0)
  = Val (ItemGroup (groupOf [Lens 5; Space 20])).
Proof.
  refine (f_equal res
            (proj1 (getitem_slice group5 world0 1%Z 3%Z eq_refl _ _)));
    vm_compute; try split; intros H; discriminate H.
Defined.

(** X12: what [g[i] = x] stores, [g[i]] gives back.  At a valid index,
    counted from the end when negative, with a single element that fits its
    neighbours there, the assignment returns, the length of the group is
    unchanged, and reading the same index afterwards returns that
    element. *)
Theorem setitem_getitem (s : MatrixGroup) (w : World) (index : Z)
        (cls : LeafClass) (m : Matrix) (e : Element)
        (Hidx : (0 <= normalized s index < len__ s)%Z)
        (He : nth_error (elements s) (Z.to_nat (normalized s index)) = Some e)
        (Hfit : linked None (replacedList (elements s) (Z.to_nat (normalized s index))
                                          (Z.to_nat (normalized s index)) [Leaf cls m])
                = true) :
  res (setitem__ (KInt index) (OMatrix (Leaf cls m)) s w) = Val tt
  /\ len__ (self' (setitem__ (KInt index) (OMatrix (Leaf cls m)) s w)) = len__ s
  /\ res (getitem__ (KInt index)
            (self' (setitem__ (KInt index) (OMatrix (Leaf cls m)) s w))
            (world' (setitem__ (KInt index) (OMatrix (Leaf cls m)) s w)))
     = Val (ItemElement (Leaf cls m)).
Proof.
  change (setitem__ (KInt index) (OMatrix (Leaf cls m)))
    with (replaceSingle index (OMatrix (Leaf cls m))).
  rewrite (replaceSingle_leaf s w index cls m e Hidx He Hfit).
  cbn [res self' world'].
  set (j := Z.to_nat (normalized s index)) in *.
  assert (Hj : (j < List.length (elements s))%nat) by (unfold len__ in Hidx; lia).
  assert (Hlen : List.length (replacedList (elements s) j j [Leaf cls m])
                 = List.length (elements s)).
  { unfold replacedList. rewrite !length_app, length_firstn, length_skipn.
    cbn [List.length]. lia. }
  split; [reflexivity|]. split.
  - unfold len__. cbn [elements withElements setAggregate setElements].
    rewrite Hlen. reflexivity.
  - unfold getitem__. rewrite bind_getSelf.
    cbn [elements withElements setAggregate setElements].
    unfold getItem. rewrite Hlen. fold (len__ s). fold (normalized s index).
    destruct (normalized s index <? 0)%Z eqn:E; [apply Z.ltb_lt in E; lia|].
    fold j. unfold replacedList.
    rewrite nth_error_app2 by (rewrite length_firstn; lia).
    rewrite length_firstn.
    replace (j - Nat.min j (List.length (elements s)))%nat with 0%nat by lia.
    reflexivity.
Qed.

Lemma setitem_getitem_witness :
  res (getitem__ (KInt (-2))
         (self' (setitem__ (KInt (-2)) (OMatrix (Lens 8)) group5 world0))
         (world' (setitem__ (KInt (-2)) (OMatrix (Lens 8)) group5 world0)))
  = Val (ItemElement (Lens 8)).
Proof.
  assert (Hidx : (0 <= normalized group5 (-2) < len__ group5)%Z)
    by (vm_compute; split; [intros H; discriminate H | reflexivity]).
  exact (proj2 (proj2 (setitem_getitem group5 world0 (-2)%Z ClsMatrix (Lens_matrix 8)
                         (Lens 3) Hidx eq_refl eq_refl))).
Defined.



(** X14: a slice assignment that names no range is refused.  Whatever the
    value, [g[a:b:step] = value] raises and leaves the elements and the
    aggregate of the group as they were when a bound is missing (the
    comparison of [None] with 0 is a [TypeError]) and when the two bounds
    name the same position ([IndexError], or before it what building the
    group of the new elements raised): one element cannot be replaced
    through a slice, and [g[a:a]], which reads as the empty group, cannot be
    written. *)
Theorem setitem_slice_refused (s : MatrixGroup) (w : World)
        (start stop step : option Z) (value : PyObj)
        (H : start = None \/ stop = None
             \/ exists a b, start = Some a /\ stop = Some b
                            /\ normalized s a = normalized s b) :
  (exists e, res (setitem__ (KSlice start stop step) value s w) = Raise e)
  /\ self' (setitem__ (KSlice start stop step) value s w) = s.
Proof.
  set (w1 := warnedStep w step).
  assert (Hnone : (exists e, res ((_ <- asGroup value ;; raise (T:=unit) TypeError) s w1)
                             = Raise e)
                  /\ self' ((_ <- asGroup value ;; raise (T:=unit) TypeError) s w1) = s).
  { rewrite bind_run. pose proof (asGroup_keeps value s w1) as Hk.
    destruct (res (asGroup value s w1)) as [g|e].
    - split; [exists TypeError; reflexivity | exact Hk].
    - split; [exists e; reflexivity | exact Hk]. }
  assert (Hset : forall k : M unit,
             ((match step with Some _ => warn msgStep | None => ret tt end) ;; k) s w
             = k s w1)
    by (intros k; unfold w1; destruct step; reflexivity).
  unfold setitem__. rewrite Hset.
  destruct H as [-> | [-> | (a & b & -> & -> & Hab)]].
  - exact Hnone.
  - destruct start; exact Hnone.
  - unfold replaceChunk. rewrite bind_run.
    pose proof (asGroup_keeps value s w1) as Hk.
    destruct (res (asGroup value s w1)) as [g|e];
      [|split; [exists e; reflexivity | exact Hk]].
    rewrite Hk, bind_getSelf. cbv zeta.
    fold (normalized s a). fold (normalized s b). rewrite Hab.
    destruct ((normalized s b >=? len__ s)%Z || (normalized s b <? 0)%Z);
      [split; [exists IndexError; reflexivity | reflexivity]|].
    rewrite Z.eqb_refl. split; [exists IndexError; reflexivity | reflexivity].
Qed.

Lemma setitem_slice_refused_witness :
  res (setitem__ (KSlice (Some 2%Z) (Some (-3)%Z) None) (OMatrix (Lens 8)) group5 world0)
  = Raise IndexError
  /\ self' (setitem__ (KSlice (Some 2%Z) (Some (-3)%Z) None) (OMatrix (Lens 8))
                      group5 world0) = group5.
Proof.
  split.
  - reflexivity.
  - refine (proj2 (setitem_slice_refused group5 world0 (Some 2%Z) (Some (-3)%Z) None
                     (OMatrix (Lens 8)) _)).
    right; right. exists 2%Z, (-3)%Z. repeat split.
Defined.

(** ** load *)

Lemma forallb_isMatrix (els : list Element) : forallb isMatrix (map OMatrix els) = true.
Proof. induction els as [|e rest IH]; [reflexivity | exact IH]. Qed.

(** X15: what [save] writes, [load] reads back.  Loading the element list
    of a group whose elements are index-continuous and not empty raises
    nothing and gives no warning; without [append] the loaded elements
    replace those of the loading group, whatever they were, and the
    aggregate is recomputed from them, so that it is the aggregate of the
    saved group when that one was consistent; with [append], onto a group
    whose last element they continue, they are added after its own. *)
Theorem save_load (g s : MatrixGroup) (w : World)
        (Hc : continuous g) (Hne : elements g <> []) :
  load (saved g) false s w = mkLoadOut None (withElements s (elements g)) w
  /\ (consistent g ->
      aggregateOf (loadSelf (load (saved g) false s w)) = aggregateOf g)
  /\ (linked (lastOf (elements s)) (elements g) = true ->
      load (saved g) true s w
      = mkLoadOut None (withElements s (elements s ++ elements g)) w).
Proof.
  assert (H1 : load (saved g) false s w = mkLoadOut None (withElements s (elements g)) w).
  { unfold load, saved. cbn [iterItems]. rewrite forallb_isMatrix. cbn [negb].
    rewrite bind_run. cbn [clearElements bind getSelf putSelf res self' world'].
    rewrite forEach_map. fold (appendEach (elements g)).
    rewrite appendEach_linked by exact Hc. cbn [res self' world'].
    destruct (elements g); [contradiction Hne; reflexivity | reflexivity]. }
  split; [exact H1|]. split.
  - intros Hg. rewrite H1. cbn [loadSelf]. unfold consistent in Hg. rewrite Hg.
    reflexivity.
  - intros Hl. unfold load, saved. cbn [iterItems]. rewrite forallb_isMatrix. cbn [negb].
    rewrite forEach_map. fold (appendEach (elements g)).
    rewrite appendEach_linked by exact Hl. cbn [res self' world'].
    destruct (elements g); [contradiction Hne; reflexivity | reflexivity].
Qed.

Lemma save_load_witness :
  elements (loadSelf (load (saved group5) false group2 world0)) = elements group5
  /\ aggregateOf (loadSelf (load (saved group5) false group2 world0))
     = aggregateOf group5
  /\ elements (loadSelf (load (saved group5) true group2 world0))
     = elements group2 ++ elements group5.
Proof.
  assert (Hne : elements group5 <> []) by discriminate.
  destruct (save_load group5 group2 world0 eq_refl Hne) as (H1 & H2 & H3).
  split; [rewrite H1; reflexivity|].
  split; [apply H2; reflexivity|].
  rewrite H3 by reflexivity. reflexivity.
Defined.

(** X16: [load] checks the whole file before it touches the group.  When
    [load] ends by its own [IOError] (the loaded object is not iterable, or
    one of its items is not a [Matrix]), the group and its elements are as
    they were, with [append] or without; and it ends so as soon as one item
    of the loaded list is not a [Matrix], even if the items before it
    are. *)
Theorem load_rejects_before_change (loaded : PyObj) (appendToCurrent : bool)
        (s : MatrixGroup) (w : World) :
  (loadRaised (load loaded appendToCurrent s w) = Some IOError ->
   loadSelf (load loaded appendToCurrent s w) = s
   /\ loadWorld (load loaded appendToCurrent s w) = w)
  /\ (forall xs, loaded = OList xs -> existsb (fun o => negb (isMatrix o)) xs = true ->
      load loaded appendToCurrent s w = mkLoadOut (Some IOError) s w).
Proof.
  split.
  - unfold load. destruct (iterItems loaded) as [xs|]; [|intros _; split; reflexivity].
    destruct (negb (forallb isMatrix xs)); [intros _; split; reflexivity|].
    destruct (res _); cbn [loadRaised]; intros H; discriminate H.
  - intros xs -> Hx. unfold load. cbn [iterItems].
    assert (Hf : forallb isMatrix xs = false).
    { induction xs as [|o rest IH]; [discriminate Hx|].
      cbn [existsb forallb] in *. destruct (isMatrix o); [|reflexivity].
      cbn [negb orb andb] in *. exact (IH Hx). }
    rewrite Hf. reflexivity.
Qed.

Lemma load_rejects_before_change_witness :
  load (OList [OMatrix (Space 1); OOther]) false group2 world0
  = mkLoadOut (Some IOError) group2 world0.
Proof.
  exact (proj2 (load_rejects_before_change (OList [OMatrix (Space 1); OOther]) false
                  group2 world0) _ eq_refl eq_refl).
Defined.

(** ** Apertures *)

Lemma existsb_flat_map {T U} (f : U -> bool) (g : T -> list U) (xs : list T) :
  existsb f (flat_map g xs) = existsb (fun x => existsb f (g x)) xs.
Proof.
  induction xs as [|x rest IH]; [reflexivity|].
  cbn [flat_map existsb]. rewrite existsb_app, IH. reflexivity.
Qed.

Lemma existsb_ext_Forall {T} (f g : T -> bool) (xs : list T) :
  Forall (fun x => f x = g x) xs -> existsb f xs = existsb g xs.
Proof.
  induction 1 as [|x rest Hx _ IH]; [reflexivity|].
  cbn [existsb]. rewrite Hx, IH. reflexivity.
Qed.

Lemma elem_hasFinite_leaves (e : Element) :
  elem_hasFiniteApertureDiameter e
  = existsb elem_hasFiniteApertureDiameter (elem_transferMatrices e).
Proof.
  induction e as [cls m | b els it c IH] using Element_nested_ind.
  - cbn [elem_transferMatrices existsb]. rewrite orb_false_r. reflexivity.
  - cbn [elem_hasFiniteApertureDiameter elem_transferMatrices elements].
    rewrite existsb_flat_map. apply existsb_ext_Forall. exact IH.
Qed.

(** X17: a group has a finite aperture exactly when one of the single
    elements it is made of, at any depth of nesting, has one:
    [hasFiniteApertureDiameter()] is the test of the elements of
    [transferMatrices()]. *)
Theorem hasFiniteApertureDiameter_leaves (g : MatrixGroup) :
  hasFiniteApertureDiameter g
  = existsb elem_hasFiniteApertureDiameter (transferMatrices g).
Proof.
  unfold hasFiniteApertureDiameter, transferMatrices.
  rewrite existsb_flat_map. apply existsb_ext_Forall.
  apply Forall_forall. intros e _. apply elem_hasFinite_leaves.
Qed.

Lemma largest_loop_bounds (elargest : Element -> Num) (els : list Element) :
  forall start,
    start <= largest_loop elargest els start
    /\ (forall e a, In e els -> elargest e = Fin a ->
                    a <= largest_loop elargest els start)
    /\ (largest_loop elargest els start = start
        \/ exists e, In e els /\ elargest e = Fin (largest_loop elargest els start)).
Proof.
  induction els as [|x rest IH]; intros start.
  - cbn [largest_loop]. split; [apply Qle_refl|]. split; [|left; reflexivity].
    intros e a [].
  - cbn [largest_loop]. destruct (elargest x) as [d|] eqn:Ex.
    + unfold Qgt_bool. destruct (Qle_bool d start) eqn:Ecmp; cbn [negb].
      * apply Qle_bool_iff in Ecmp.
        destruct (IH start) as (H1 & H2 & H3). split; [exact H1|]. split.
        -- intros e a [He|He] Ha.
           ++ subst e. rewrite Ex in Ha. inversion Ha; subst a.
              eapply Qle_trans; [exact Ecmp | exact H1].
           ++ exact (H2 e a He Ha).
        -- destruct H3 as [H3|(e & He & H3)]; [left; exact H3|].
           right. exists e. split; [right; exact He | exact H3].
      * assert (Hlt : start < d).
        { apply Qnot_le_lt. intros Hle. apply Qle_bool_iff in Hle.
          rewrite Hle in Ecmp. discriminate Ecmp. }
        destruct (IH d) as (H1 & H2 & H3). split.
        -- eapply Qle_trans; [apply Qlt_le_weak; exact Hlt | exact H1].
        -- split.
           ++ intros e a [He|He] Ha.
              ** subst e. rewrite Ex in Ha. inversion Ha; subst a. exact H1.
              ** exact (H2 e a He Ha).
           ++ right. destruct H3 as [H3|(e & He & H3)].
              ** exists x. split; [left; reflexivity | rewrite H3; exact Ex].
              ** exists e. split; [right; exact He | exact H3].
    + destruct (IH start) as (H1 & H2 & H3). split; [exact H1|]. split.
      * intros e a [He|He] Ha.
        -- subst e. rewrite Ex in Ha. discriminate Ha.
        -- exact (H2 e a He Ha).
      * destruct H3 as [H3|(e & He & H3)]; [left; exact H3|].
        right. exists e. split; [right; exact He | exact H3].
Qed.

(** X18: [largestDiameter] is [+Inf] for the empty group only, and with a
    finite aperture in the group it is the largest of 0 and the finite
    diameters of the elements: not negative, at least the diameter of every
    element that has a finite one, and either 0 or the diameter of one of
    the elements. *)
Theorem largestDiameter_bounds (displayHalfHeight : Element -> Q) (g : MatrixGroup) :
  (largestDiameter displayHalfHeight g = PInf <-> elements g = [])
  /\ (hasFiniteApertureDiameter g = true ->
      exists d,
        largestDiameter displayHalfHeight g = Fin d
        /\ 0 <= d
        /\ (forall e a, In e (elements g) ->
                        elem_largestDiameter displayHalfHeight e = Fin a -> a <= d)
        /\ (d = 0
            \/ exists e, In e (elements g)
                         /\ elem_largestDiameter displayHalfHeight e = Fin d)).
Proof.
  split.
  - unfold largestDiameter, hasFiniteApertureDiameter.
    destruct (elements g) as [|first rest] eqn:E.
    + cbn [existsb]. split; reflexivity.
    + destruct (existsb _ (first :: rest)); split; intros H; discriminate H.
  - intros Hf. unfold largestDiameter. rewrite Hf.
    destruct (largest_loop_bounds (elem_largestDiameter displayHalfHeight)
                (elements g) 0) as (H1 & H2 & H3).
    eexists. split; [reflexivity|]. split; [exact H1|]. split; [exact H2 | exact H3].
Qed.

Lemma largestDiameter_bounds_witness :
  exists d, largestDiameter (fun _ => 5) lensBehindAperture = Fin d /\ 0 <= d.
Proof.
  destruct (proj2 (largestDiameter_bounds (fun _ => 5) lensBehindAperture) eq_refl)
    as (d & Hd & H0 & _).
  exists d. split; [exact Hd | exact H0].
Defined.

(** ** transferMatrices *)

Lemma abcd_eq_refl (m : Matrix) : abcd_eq m m.
Proof. unfold abcd_eq. repeat split; apply Qeq_refl. Qed.

Lemma abcd_eq_sym (m1 m2 : Matrix) : abcd_eq m1 m2 -> abcd_eq m2 m1.
Proof.
  unfold abcd_eq. intros (Ha & Hb & Hc & Hd).
  repeat split; apply Qeq_sym; assumption.
Qed.

Lemma abcd_eq_trans (m1 m2 m3 : Matrix) :
  abcd_eq m1 m2 -> abcd_eq m2 m3 -> abcd_eq m1 m3.
Proof.
  unfold abcd_eq. intros (Ha & Hb & Hc & Hd) (Ha' & Hb' & Hc' & Hd').
  repeat split; eapply Qeq_trans; eassumption.
Qed.

Lemma mul_matrix_abcd (l l' r r' : Matrix) :
  abcd_eq l l' -> abcd_eq r r' -> abcd_eq (mul_matrix l r) (mul_matrix l' r').
Proof.
  unfold abcd_eq. intros (Ha & Hb & Hc & Hd) (Ha' & Hb' & Hc' & Hd').
  cbn [mul_matrix A B C D].
  repeat split.
  - rewrite Ha, Hb, Ha', Hc'. reflexivity.
  - rewrite Ha, Hb, Hb', Hd'. reflexivity.
  - rewrite Hc, Hd, Ha', Hc'. reflexivity.
  - rewrite Hc, Hd, Hb', Hd'. reflexivity.
Qed.

Lemma mul_matrix_assoc (a b c : Matrix) :
  abcd_eq (mul_matrix a (mul_matrix b c)) (mul_matrix (mul_matrix a b) c).
Proof. unfold abcd_eq. cbn [mul_matrix A B C D]. repeat split; ring. Qed.

Lemma mul_matrix_identity (a : Matrix) :
  abcd_eq (mul_matrix a (Matrix_init 1 0 0 1)) a.
Proof.
  unfold abcd_eq, Matrix_init. cbn [mul_matrix A B C D]. repeat split; ring.
Qed.

(** The product of a list onto a start is the product of the list times
    the start. *)
Lemma composeAll_factor (els : list Element) :
  forall start,
    abcd_eq (composeAll els start)
            (mul_matrix (composeAll els (Matrix_init 1 0 0 1)) start).
Proof.
  induction els as [|e rest IH]; intros start.
  - unfold composeAll. cbn [fold_left]. unfold abcd_eq, Matrix_init.
    cbn [mul_matrix A B C D]. repeat split; ring.
  - change (composeAll (e :: rest) start)
      with (composeAll rest (mul_matrix (matrixOf e) start)).
    change (composeAll (e :: rest) (Matrix_init 1 0 0 1))
      with (composeAll rest (mul_matrix (matrixOf e) (Matrix_init 1 0 0 1))).
    eapply abcd_eq_trans; [apply IH|].
    eapply abcd_eq_trans; [apply mul_matrix_assoc|].
    apply mul_matrix_abcd; [|apply abcd_eq_refl].
    apply abcd_eq_sym. eapply abcd_eq_trans; [apply IH|].
    apply mul_matrix_abcd; [apply abcd_eq_refl | apply mul_matrix_identity].
Qed.

Lemma composeAll_abcd (els : list Element) :
  forall s1 s2, abcd_eq s1 s2 -> abcd_eq (composeAll els s1) (composeAll els s2).
Proof.
  induction els as [|e rest IH]; intros s1 s2 H; [exact H|].
  apply (IH (mul_matrix (matrixOf e) s1) (mul_matrix (matrixOf e) s2)).
  apply mul_matrix_abcd; [apply abcd_eq_refl | exact H].
Qed.

Lemma deepConsistent_nested (b : Matrix) (els : list Element) (it : nat)
      (c : option (Traced * list Traced)) :
  deepConsistent (Nested (mkGroup b els it c))
  <-> abcd_eq b (transferMatrix els PInf) /\ Forall deepConsistent els.
Proof.
  cbn [deepConsistent]. split; intros [H1 H2]; (split; [exact H1|]); clear H1.
  - induction els as [|x rest IH]; [constructor|].
    destruct H2 as [Hx Hr]. constructor; [exact Hx | exact (IH Hr)].
  - induction H2 as [|x rest Hx _ IH]; [exact I | split; [exact Hx | exact IH]].
Qed.

Lemma flatten_product (els : list Element) :
  Forall (fun e => deepConsistent e ->
                   forall s1 s2, abcd_eq s1 s2 ->
                     abcd_eq (composeAll (elem_transferMatrices e) s1)
                             (mul_matrix (matrixOf e) s2)) els ->
  Forall deepConsistent els ->
  forall s1 s2, abcd_eq s1 s2 ->
    abcd_eq (composeAll (flat_map elem_transferMatrices els) s1) (composeAll els s2).
Proof.
  induction 1 as [|e rest He _ IH]; intros Hd s1 s2 Hs; [exact Hs|].
  inversion Hd as [|? ? Hde Hdr]; subst.
  cbn [flat_map]. rewrite composeAll_app.
  change (composeAll (e :: rest) s2) with (composeAll rest (mul_matrix (matrixOf e) s2)).
  apply (IH Hdr). apply (He Hde). exact Hs.
Qed.

Lemma elem_flatten_product (e : Element) :
  deepConsistent e ->
  forall s1 s2, abcd_eq s1 s2 ->
    abcd_eq (composeAll (elem_transferMatrices e) s1) (mul_matrix (matrixOf e) s2).
Proof.
  induction e as [cls m | b els it c IH] using Element_nested_ind; intros Hd s1 s2 Hs.
  - cbn [elem_transferMatrices matrixOf]. unfold composeAll. cbn [fold_left matrixOf].
    apply mul_matrix_abcd; [apply abcd_eq_refl | exact Hs].
  - apply deepConsistent_nested in Hd. destruct Hd as [Hb Hels].
    cbn [elem_transferMatrices elements matrixOf base].
    eapply abcd_eq_trans; [apply (flatten_product els IH Hels s1 s2 Hs)|].
    eapply abcd_eq_trans; [apply composeAll_factor|].
    apply mul_matrix_abcd; [|apply abcd_eq_refl].
    apply abcd_eq_sym. unfold transferMatrix in Hb.
    rewrite transferMatrix_loop_PInf in Hb. exact Hb.
Qed.

(** X19: the matrices of [transferMatrices()], multiplied in order, give
    the transfer matrix of the group.  When the four entries of every
    nested group, at any depth, are those of the product of its elements
    (as [append] keeps them), the product of the flattened list has the four
    entries of [transferMatrix()]. *)
Theorem transferMatrices_product (g : MatrixGroup)
        (H : Forall deepConsistent (elements g)) :
  abcd_eq (composeAll (transferMatrices g) (Matrix_init 1 0 0 1))
          (transferMatrix (elements g) PInf).
Proof.
  unfold transferMatrix, transferMatrices. rewrite transferMatrix_loop_PInf.
  apply flatten_product; [|exact H | apply abcd_eq_refl].
  apply Forall_forall. intros e _. apply elem_flatten_product.
Qed.

Lemma transferMatrices_product_witness :
  transferMatrices nestedTelescope = [Space 10; Lens 5; Space 20]
  /\ abcd_eq (composeAll (transferMatrices nestedTelescope) (Matrix_init 1 0 0 1))
             (transferMatrix (elements nestedTelescope) PInf).
Proof.
  split; [reflexivity|].
  apply transferMatrices_product.
  repeat constructor; vm_compute; reflexivity.
Defined.

(** ** intermediateConjugates *)

Lemma conjugates_loop_planes (forwardConjugate : Matrix -> option Num * option Matrix)
      (matrices : list Element) :
  forall transferMatrix planes,
    exists found,
      conjugates_loop forwardConjugate matrices transferMatrix planes = planes ++ found
      /\ (List.length found <= List.length matrices)%nat
      /\ Forall (fun plane => num_ne0 (fst plane) = true) found.
Proof.
  induction matrices as [|element rest IH]; intros tm planes.
  - exists []. cbn [conjugates_loop]. rewrite app_nil_r.
    split; [reflexivity|]. split; [apply Nat.le_refl | constructor].
  - cbn [conjugates_loop].
    set (tm' := mul_matrix (matrixOf element) tm).
    assert (Hskip : exists found,
               conjugates_loop forwardConjugate rest tm' planes = planes ++ found
               /\ (List.length found <= List.length (element :: rest))%nat
               /\ Forall (fun plane => num_ne0 (fst plane) = true) found).
    { destruct (IH tm' planes) as (found & H1 & H2 & H3).
      exists found. split; [exact H1|]. split; [cbn [List.length]; lia | exact H3]. }
    destruct (forwardConjugate tm') as [[distance|] [c|]]; try exact Hskip.
    destruct (num_ne0 (add_num (L tm') distance)) eqn:E; [|exact Hskip].
    destruct (IH tm' (planes ++ [(add_num (L tm') distance, A c)]))
      as (found & H1 & H2 & H3).
    exists ((add_num (L tm') distance, A c) :: found).
    split; [rewrite H1, <- app_assoc; reflexivity|].
    split; [cbn [List.length]; lia|].
    constructor; [exact E | exact H3].
Qed.

(** X20: [intermediateConjugates] reports at most one plane for each matrix
    of [transferMatrices()], and never a plane at position 0, whatever
    [forwardConjugate] of the matrices answers; the empty group has no
    plane. *)
Theorem intermediateConjugates_planes
        (forwardConjugate : Matrix -> option Num * option Matrix) (g : MatrixGroup) :
  (List.length (intermediateConjugates forwardConjugate g)
   <= List.length (transferMatrices g))%nat
  /\ Forall (fun plane => num_ne0 (fst plane) = true)
            (intermediateConjugates forwardConjugate g)
  /\ (elements g = [] -> intermediateConjugates forwardConjugate g = []).
Proof.
  unfold intermediateConjugates.
  destruct (conjugates_loop_planes forwardConjugate (transferMatrices g)
              (Matrix_init 1 0 0 1) []) as (found & H1 & H2 & H3).
  rewrite H1. cbn [app]. split; [exact H2|]. split; [exact H3|].
  intros He. unfold transferMatrices in H2. rewrite He in H2. cbn in H2.
  destruct found; [reflexivity | cbn in H2; lia].
Qed.

Lemma intermediateConjugates_planes_witness :
  intermediateConjugates forwardConjugate_spec emptyGroup = [].
Proof.
  exact (proj2 (proj2 (intermediateConjugates_planes forwardConjugate_spec emptyGroup))
           eq_refl).
Defined.

(** The docstring of [intermediateConjugates]: one plane, at 90 with
    magnification -2. *)
Example intermediateConjugates_docstring :
  exists position magnification,
    intermediateConjugates forwardConjugate_spec twoLenses
    = [(Fin position, magnification)]
    /\ position == 90 /\ magnification == -2.
Proof.
  eexists. eexists. split; [vm_compute; reflexivity|].
  split; vm_compute; reflexivity.
Qed.

(** ** flipOrientation *)

Lemma Qeq_bool_sym (a b : Q) : Qeq_bool a b = Qeq_bool b a.
Proof. unfold Qeq_bool. apply Z.eqb_sym. Qed.

Lemma leaf_flipOrientation_twice (m : Matrix) :
  leaf_flipOrientation (leaf_flipOrientation m) = m.
Proof. destruct m; reflexivity. Qed.

Lemma flipLeaves_twice (ms : list (LeafClass * Matrix)) :
  flipLeaves (flipLeaves ms) = ms.
Proof.
  unfold flipLeaves. rewrite map_rev, rev_involutive, map_map.
  rewrite <- (map_id ms) at 2. apply map_ext.
  intros [cls m]. cbn [fst snd]. rewrite leaf_flipOrientation_twice. reflexivity.
Qed.

Lemma leaves_tail_linked (prev : option Element) (x : Element) (rest : list Element) :
  linked prev (x :: rest) = true -> linked None rest = true.
Proof.
  cbn [linked]. intros H. apply andb_true_iff in H.
  exact (linked_weaken _ _ (proj2 H)).
Qed.

(** Flipping every element and reversing the order keeps the indices
    continuous. *)
Lemma linked_flipLeaves (ms : list (LeafClass * Matrix)) :
  linked None (leaves ms) = true -> linked None (leaves (flipLeaves ms)) = true.
Proof.
  unfold flipLeaves, leaves. rewrite map_rev, map_map. cbn [fst snd].
  induction ms as [|[ca a] rest IH]; intros H; [reflexivity|].
  cbn [map rev fst snd]. rewrite linked_app.
  cbn [map fst snd] in H.
  rewrite (IH (leaves_tail_linked _ _ _ H)). cbn [andb].
  destruct rest as [|[cb b] rest']; [reflexivity|].
  cbn [map rev fst snd]. rewrite lastOf_app.
  cbn [map linked fst snd] in H. cbn [linked matrixOf].
  apply andb_true_iff in H. destruct H as [_ H].
  apply andb_true_iff in H. destruct H as [H _].
  cbn [matrixOf] in H. unfold leaf_flipOrientation. cbn [backIndex frontIndex].
  rewrite Qeq_bool_sym, H. reflexivity.
Qed.

(** The loop of [flipOrientation] over single elements appends the flipped
    elements. *)
Lemma flip_loop_leaves (ms : list (LeafClass * Matrix)) :
  forall s w,
    forEach (map elem_flipOrientation (leaves ms))
            (fun flipElement =>
               element <- (fun s w =>
                             match flipElement w with
                             | (Val e, w') => mkOut (Val e) s w'
                             | (Raise x, w') => mkOut (Raise x) s w'
                             end) ;;
               append (OMatrix element)) s w
    = appendEach (map (fun cm => Leaf (fst cm) (leaf_flipOrientation (snd cm))) ms) s w.
Proof.
  induction ms as [|[cls m] rest IH]; intros s w; [reflexivity|].
  unfold appendEach, leaves in *. cbn [map forEach fst snd].
  rewrite (bind_run _ _ s w). rewrite (bind_run (append _) _ s w).
  change (bind _ (fun element => append (OMatrix element)) s w)
    with (append (OMatrix (Leaf cls (leaf_flipOrientation m))) s w).
  destruct (res (append (OMatrix (Leaf cls (leaf_flipOrientation m))) s w));
    [|reflexivity].
  apply IH.
Qed.

(** [flipOrientation] on index-continuous single elements. *)
Lemma flipOrientation_leaves (s : MatrixGroup) (w : World)
      (ms : list (LeafClass * Matrix)) :
  elements s = leaves ms -> ms <> [] -> linked None (leaves ms) = true ->
  flipOrientation s w = mkOut (Val tt) (withElements s (leaves (flipLeaves ms))) w.
Proof.
  intros He Hne Hl. unfold flipOrientation, flip_body.
  rewrite bind_getSelf. cbv zeta. rewrite bind_run.
  cbn [clearElements bind getSelf putSelf res self' world'].
  rewrite He. unfold leaves at 1. rewrite <- map_rev, <- map_rev.
  fold (leaves (rev ms)). rewrite flip_loop_leaves.
  assert (Hm : map (fun cm => Leaf (fst cm) (leaf_flipOrientation (snd cm))) (rev ms)
               = leaves (flipLeaves ms)).
  { unfold leaves, flipLeaves. rewrite !map_rev, map_map. reflexivity. }
  rewrite Hm. rewrite appendEach_linked by (apply linked_flipLeaves; exact Hl).
  destruct (leaves (flipLeaves ms)) as [|x l] eqn:E; [|reflexivity].
  exfalso. apply Hne. rewrite <- (flipLeaves_twice ms).
  unfold leaves in E. apply map_eq_nil in E. rewrite E. reflexivity.
Qed.

(** X21: [flipOrientation] reverses a group of single elements and flips
    each of them, and doing it twice gives the group back.  On a non-empty
    group of single elements with continuous indices it returns without a
    warning, the elements are the flipped ones in the reverse order, still
    continuous, and the aggregate is recomputed; a second call restores the
    element list, and the whole group when its aggregate was consistent. *)
Theorem flipOrientation_twice (s : MatrixGroup) (w : World)
        (ms : list (LeafClass * Matrix))
        (He : elements s = leaves ms) (Hne : ms <> []) (Hc : continuous s) :
  flipOrientation s w = mkOut (Val tt) (withElements s (leaves (flipLeaves ms))) w
  /\ continuous (withElements s (leaves (flipLeaves ms)))
  /\ (flipOrientation ;; flipOrientation) s w
     = mkOut (Val tt) (withElements s (elements s)) w
  /\ (consistent s -> (flipOrientation ;; flipOrientation) s w = mkOut (Val tt) s w).
Proof.
  assert (Hl : linked None (leaves ms) = true) by (rewrite <- He; exact Hc).
  pose proof (flipOrientation_leaves s w ms He Hne Hl) as H1.
  assert (Hne' : flipLeaves ms <> []).
  { intros E. apply Hne. rewrite <- (flipLeaves_twice ms), E. reflexivity. }
  assert (H2 : (flipOrientation ;; flipOrientation) s w
               = mkOut (Val tt) (withElements s (elements s)) w).
  { rewrite bind_run, H1. cbn [res self' world'].
    rewrite (flipOrientation_leaves (withElements s (leaves (flipLeaves ms))) w
               (flipLeaves ms) eq_refl Hne' (linked_flipLeaves ms Hl)).
    rewrite flipLeaves_twice, He. reflexivity. }
  split; [exact H1|]. split; [exact (linked_flipLeaves ms Hl)|].
  split; [exact H2|].
  intros Hs. rewrite H2, (withElements_consistent s Hs). reflexivity.
Qed.

Lemma flipOrientation_twice_witness :
  elements (self' (flipOrientation group3 world0))
  = leaves (flipLeaves [(ClsMatrix, matrixOf interface15);
                        (ClsMatrix, matrixOf glassExit);
                        (ClsMatrix, matrixOf thickLens)])
  /\ (flipOrientation ;; flipOrientation) group3 world0 = mkOut (Val tt) group3 world0.
Proof.
  assert (Hne : [(ClsMatrix, matrixOf interface15); (ClsMatrix, matrixOf glassExit);
                 (ClsMatrix, matrixOf thickLens)] <> []) by discriminate.
  destruct (flipOrientation_twice group3 world0
              [(ClsMatrix, matrixOf interface15); (ClsMatrix, matrixOf glassExit);
               (ClsMatrix, matrixOf thickLens)] eq_refl Hne eq_refl)
    as (H1 & _ & _ & H4).
  split; [rewrite H1; reflexivity | apply H4; reflexivity].
Defined.

(** ** append on element objects *)

Lemma lastOf_map {T U} (f : T -> U) (xs : list T) :
  lastOf (map f xs) = option_map f (lastOf xs).
Proof.
  unfold lastOf. rewrite <- map_rev. destruct (rev xs); reflexivity.
Qed.

Lemma deref_writeObject (st : Store) (r : Ref) (e : Element) (refs : list Ref) :
  ~ In r refs -> deref (writeObject st r e) refs = deref st refs.
Proof.
  intros H. unfold deref. apply map_ext_in. intros r' Hr'. unfold writeObject.
  destruct (Nat.eqb r' r) eqn:E; [|reflexivity].
  apply Nat.eqb_eq in E. subst r'. contradiction.
Qed.

Lemma writeObject_same (st : Store) (r : Ref) (e : Element) : writeObject st r e r = e.
Proof. unfold writeObject. rewrite Nat.eqb_refl. reflexivity. Qed.

(** On an object that is not yet stored, [append] on references does what
    [append] on values does: the check has the same verdict, the list grows
    by the element as it is stored, and no other object is written. *)
Lemma appendRef_value (matrix : Ref) (st : Store) (refs : list Ref) (s : MatrixGroup) :
  ~ In matrix refs ->
  elements s = deref st refs ->
  match appendRef matrix st refs with
  | Some o =>
      indexCheck s (st matrix) = Some (store o matrix, flag o)
      /\ stored o = refs ++ [matrix]
      /\ deref (store o) (stored o) = elements s ++ [store o matrix]
      /\ (forall r, r <> matrix -> store o r = st r)
  | None => indexCheck s (st matrix) = None
  end.
Proof.
  intros Hfresh Hel.
  assert (Hlast : lastOf (elements s) = option_map st (lastOf refs))
    by (rewrite Hel; apply lastOf_map).
  unfold appendRef, indexCheck. rewrite Hlast, Hel.
  assert (Hsame : forall st', (forall r, r <> matrix -> st' r = st r) ->
                    deref st' (refs ++ [matrix]) = deref st refs ++ [st' matrix]).
  { intros st' H. unfold deref. rewrite map_app. cbn [map]. f_equal.
    apply map_ext_in. intros r Hr. apply H. intros ->. contradiction. }
  destruct (lastOf refs) as [lastElement|]; cbn [option_map].
  - destruct (Qne_bool _ _).
    + destruct (isSpace (st matrix)); [|reflexivity].
      cbn [store stored flag]. rewrite writeObject_same.
      assert (Hother : forall r, r <> matrix ->
                 writeObject st matrix
                   (setIndices (st matrix) (backIndex (matrixOf (st lastElement)))
                               (backIndex (matrixOf (st lastElement)))) r = st r).
      { intros r Hr. unfold writeObject. apply Nat.eqb_neq in Hr. rewrite Hr. reflexivity. }
      split; [reflexivity|]. split; [reflexivity|]. split; [|exact Hother].
      rewrite (Hsame _ Hother), writeObject_same. reflexivity.
    + cbn [store stored flag]. split; [reflexivity|]. split; [reflexivity|].
      split; [apply Hsame; reflexivity | reflexivity].
  - cbn [store stored flag]. split; [reflexivity|]. split; [reflexivity|].
    split; [apply Hsame; reflexivity | reflexivity].
Qed.

(** A run of [append] calls on objects that are pairwise distinct and not
    yet stored shows the list that the run on their values builds. *)
Lemma appendRefs_value (matrices : list Ref) :
  forall st refs s w,
    NoDup (refs ++ matrices) ->
    elements s = deref st refs ->
    deref (store (appendRefs matrices st refs)) (stored (appendRefs matrices st refs))
    = elements (self' (appendEach (deref st matrices) s w))
    /\ (flag (appendRefs matrices st refs) = false
        <-> res (appendEach (deref st matrices) s w) = Val tt).
Proof.
  induction matrices as [|matrix rest IH]; intros st refs s w Hnd Hel.
  - cbn [appendRefs store stored flag deref map appendEach forEach ret self' res].
    split; [symmetry; exact Hel | split; reflexivity].
  - assert (Hfresh : ~ In matrix refs).
    { intros Hin. apply NoDup_remove_2 in Hnd. apply Hnd.
      apply in_or_app. left. exact Hin. }
    assert (Hrest : ~ In matrix rest).
    { intros Hin. apply NoDup_remove_2 in Hnd. apply Hnd.
      apply in_or_app. right. exact Hin. }
    pose proof (appendRef_value matrix st refs s Hfresh Hel) as Hv.
    change (deref st (matrix :: rest)) with (st matrix :: deref st rest).
    rewrite appendEach_cons. cbn [appendRefs].
    destruct (appendRef matrix st refs) as [o|].
    + destruct Hv as (Hc & Hs & Hd & Ho). rewrite Hc.
      assert (Hr : deref st rest = deref (store o) rest).
      { unfold deref. apply map_ext_in. intros r Hr. symmetry. apply Ho.
        intros ->. contradiction. }
      rewrite Hr. apply IH.
      * rewrite Hs, <- app_assoc. exact Hnd.
      * rewrite elements_appended. symmetry. exact Hd.
    + rewrite Hv. cbn [store stored flag self' res].
      split; [symmetry; exact Hel | split; intros H; discriminate H].
Qed.

(** X1: [append] keeps the indices continuous when it is given objects that
    are not yet stored.  Appending, one after the other, objects that are
    pairwise distinct and different from those already stored to a list in
    which each element starts at the index where the one before it ends, as
    the constructor and the replay of an edit do, leaves such a list, whether
    every object is appended or the run stops by [ValueError]; the indices
    that [append] writes into a mismatched [Space] then change no stored
    element, and the elements that the references show are those that the
    run on values builds. *)
Theorem append_keeps_continuity (matrices : list Ref) (st : Store) (refs : list Ref)
        (s : MatrixGroup) (w : World)
        (Hdistinct : NoDup (refs ++ matrices))
        (Hel : elements s = deref st refs)
        (Hc : continuous s) :
  linked None (deref (store (appendRefs matrices st refs))
                     (stored (appendRefs matrices st refs))) = true
  /\ deref (store (appendRefs matrices st refs)) (stored (appendRefs matrices st refs))
     = elements (self' (appendEach (deref st matrices) s w))
  /\ (flag (appendRefs matrices st refs) = false
      <-> res (appendEach (deref st matrices) s w) = Val tt).
Proof.
  destruct (appendRefs_value matrices st refs s w Hdistinct Hel) as [H1 H2].
  split; [|split; [exact H1 | exact H2]].
  rewrite H1. unfold appendEach.
  exact (preserves_forEach continuous (deref st matrices)
           (fun x => append (OMatrix x))
           (fun x => append_continuous (OMatrix x)) s w Hc).
Qed.

Lemma append_keeps_continuity_witness :
  linked None (deref (store (appendRefs [0%nat] spacerAndInterface [1%nat]))
                     (stored (appendRefs [0%nat] spacerAndInterface [1%nat]))) = true
  /\ deref (store (appendRefs [0%nat] spacerAndInterface [1%nat]))
           (stored (appendRefs [0%nat] spacerAndInterface [1%nat]))
     = [interface15; SpaceN 10 1.5].
Proof.
  assert (Hnd : NoDup ([1%nat] ++ [0%nat])).
  { constructor; [intros [H|[]]; discriminate H|].
    constructor; [intros [] | constructor]. }
  destruct (append_keeps_continuity [0%nat] spacerAndInterface [1%nat]
              (groupOf [interface15]) world0 Hnd eq_refl eq_refl) as (H1 & H2 & _).
  split; [exact H1 | rewrite H2; reflexivity].
Defined.

(** The hypothesis is needed: appending once more the spacer that is
    already stored in front of the interface writes the index 1.5 into that
    one object, which the list holds twice, and the first occurrence no
    longer ends at the index where the interface starts. *)
Example append_stored_space_breaks_continuity :
  linked None (deref spacerAndInterface [0%nat; 1%nat]) = true
  /\ exists o,
       appendRef 0%nat spacerAndInterface [0%nat; 1%nat] = Some o
       /\ stored o = [0%nat; 1%nat; 0%nat]
       /\ flag o = true
       /\ deref (store o) (stored o) = [SpaceN 10 1.5; interface15; SpaceN 10 1.5]
       /\ linked None (deref (store o) (stored o)) = false.
Proof.
  split; [reflexivity|]. eexists. split; [reflexivity|].
  repeat split.
Qed.
